(** * Coin-flip compressibility scripts: a shallow embedding and its properties

    The development follows the four scripts of [stats-study-guide/scripts]
    that analyse how well a sequence of coin flips compresses:

    - [huffman_compression.py]  (n-gram Huffman coding of the transition stream),
    - [runlength_huffman.py]    (Huffman coding of run lengths),
    - [advanced_compression.py] (Huffman coding of tuples of run lengths),
    - [compression_analysis.py] (prediction errors, Golomb coding of runs).

    Python values are modelled as follows.  A [str] is a [string]; a list
    is a [list]; an [int] that is a length or a count is a [nat], an [int]
    that takes part in subtraction or division is a [Z]; a [float] is a
    binary64 [float]; a [dict] is an association list in insertion order;
    a raised exception is a value of [result]. *)

From stdpp Require Import base list strings.
From Stdlib Require Import ZArith Ascii Floats Uint63 DecimalString.

Local Open Scope Z_scope.
Local Open Scope nat_scope.

(** ** Exceptions and results *)

Module Py.

(** The exceptions the modelled code can raise.  [MalformedStreamError] is
    the decoder's failure of the specification; the others are Python's. *)
Inductive exn : Set :=
  | IndexError
  | KeyError
  | ZeroDivisionError
  | MalformedStreamError.

(** The outcome of running a piece of code: a value, an exception, or a
    loop that was cut off by its iteration bound.  The last outcome is
    shown never to happen for the functions below. *)
Inductive result (A : Type) : Type :=
  | Ok (a : A)
  | Raise (e : exn)
  | OutOfFuel.

Global Arguments Ok {A} a.
Global Arguments Raise {A} e.
Global Arguments OutOfFuel {A}.

Global Instance result_ret : MRet result := λ A a, Ok a.
Global Instance result_bind : MBind result := λ A B f m,
  match m with
  | Ok a => f a
  | Raise e => Raise e
  | OutOfFuel => OutOfFuel
  end.
Global Instance result_fmap : FMap result := λ A B f m,
  match m with
  | Ok a => Ok (f a)
  | Raise e => Raise e
  | OutOfFuel => OutOfFuel
  end.

(** [l[i]] for [0 <= i]: an [IndexError] out of range. *)
Definition getitem {A} (l : list A) (i : nat) : result A :=
  match l !! i with
  | Some x => Ok x
  | None => Raise IndexError
  end.

(** [l[i] = x] for [0 <= i]: an [IndexError] out of range. *)
Definition setitem {A} (l : list A) (i : nat) (x : A) : result (list A) :=
  if decide (i < length l) then Ok (<[i:=x]> l) else Raise IndexError.

(** A [for x in xs] loop whose body may raise, on the loop state [s]. *)
Fixpoint for_each {S X} (xs : list X) (body : S → X → result S) (s : S) : result S :=
  match xs with
  | [] => Ok s
  | x :: xs => s ← body s x; for_each xs body s
  end.

(** [l.pop()]: the last element and the list without it; an [IndexError]
    on the empty list. *)
Definition list_pop {A} (l : list A) : result (A * list A) :=
  match last l with
  | Some x => Ok (x, take (length l - 1) l)
  | None => Raise IndexError
  end.

(** [s * n] on a string: [n] copies of [s], none when [n <= 0]. *)
Definition str_repeat (s : string) (n : Z) : string :=
  String.concat "" (replicate (Z.to_nat n) s).

(** [sum(l)] on a list of integers. *)
Definition sum (l : list Z) : Z := foldr Z.add 0%Z l.

(** [sum(l)] on a list of lengths. *)
Definition sum_nat (l : list nat) : nat := foldr Nat.add 0 l.

End Py.
Import Py.

(** ** The transition stream *)

Section transitions.
Context {A : Type} `{EqDecision A}.

(** [[1 if xs[i] != xs[i-1] else 0 for i in range(1, len(xs))]], the body
    shared by [to_transitions] (on a string) and [get_transitions] (on a
    list of bits).  The two subscripts are in range for every [i] of the
    range, so no [IndexError] can arise. *)
Definition transition_stream (xs : list A) : list Z :=
  (λ i, if decide (xs !! i ≠ xs !! (i - 1)) then 1%Z else 0%Z)
    <$> seq 1 (length xs - 1).
End transitions.

(** [to_transitions(flips)] of [huffman_compression.py],
    [runlength_huffman.py] and [advanced_compression.py]. *)
Definition to_transitions (flips : string) : list Z :=
  transition_stream (String.list_ascii_of_string flips).

(** [get_transitions(bits)] of [compression_analysis.py]. *)
Definition get_transitions (bits : list Z) : list Z :=
  transition_stream bits.

(** ** Runs *)

(** A run is a pair [(value, length)]. *)
Abbreviation Run A := (A * nat)%type.

Section runs.
Context {A : Type} `{EqDecision A}.

(** The body of the [for bit in stream[1:]] loop of [get_runs], on the
    state [(runs, current_val, current_len)]. *)
Definition get_runs_step (st : list (Run A) * A * nat) (bit : A)
    : list (Run A) * A * nat :=
  let '(runs, current_val, current_len) := st in
  if decide (bit = current_val) then (runs, current_val, current_len + 1)
  else (runs ++ [(current_val, current_len)], bit, 1).

(** [get_runs(stream)] of [runlength_huffman.py] and
    [advanced_compression.py]; [run_length_encode(bits)] of
    [compression_analysis.py] is the same code. *)
Definition get_runs (stream : list A) : list (Run A) :=
  match stream with
  | [] => []
  | first :: rest =>
      let '(runs, current_val, current_len) :=
        foldl get_runs_step ([], first, 1) rest in
      runs ++ [(current_val, current_len)]
  end.

Definition run_length_encode (bits : list A) : list (Run A) := get_runs bits.

(** The stream a list of runs stands for: each value repeated its length. *)
Definition expand_runs (runs : list (Run A)) : list A :=
  runs ≫= (λ r, replicate r.2 r.1).

(** No two neighbours of a list of runs have the same value. *)
Definition alternating (runs : list (Run A)) : Prop :=
  ∀ i r1 r2, runs !! i = Some r1 → runs !! (S i) = Some r2 → r1.1 ≠ r2.1.
End runs.


(** ** Dictionaries and counters *)

(** A [dict] keeps its keys in insertion order; assigning to a key that is
    present replaces the value in place. *)
Abbreviation dict K V := (list (K * V)).

Section dict.
Context {K V : Type} `{EqDecision K}.

(** [d.get(k)] *)
Fixpoint dict_lookup (d : dict K V) (k : K) : option V :=
  match d with
  | [] => None
  | (k', v) :: d => if decide (k = k') then Some v else dict_lookup d k
  end.

(** [d[k]]: a [KeyError] when [k] is absent. *)
Definition dict_get (d : dict K V) (k : K) : result V :=
  match dict_lookup d k with
  | Some v => Ok v
  | None => Raise KeyError
  end.

(** [d[k] = v] *)
Fixpoint dict_set (d : dict K V) (k : K) (v : V) : dict K V :=
  match d with
  | [] => [(k, v)]
  | (k', v') :: d =>
      if decide (k = k') then (k', v) :: d else (k', v') :: dict_set d k v
  end.

(** [d.keys()] *)
Definition dict_keys (d : dict K V) : list K := d.*1.
End dict.

(** [Counter(xs)]: every element counted, keys in order of first occurrence. *)
Definition Counter {K} `{EqDecision K} (xs : list K) : dict K Z :=
  foldl (λ c x, dict_set c x (default 0 (dict_lookup c x) + 1)%Z) [] xs.

(** ** The binary heap of Python's [heapq]

    The functions follow [Lib/heapq.py]; [lt] is the [<] of the elements
    (their [__lt__]).  The heap is a list used as an array. *)

Module heapq.
Section heapq.
Context {A : Type} (lt : A → A → bool).

(** The [while pos > startpos] loop of [_siftdown].  Every iteration makes
    [pos] smaller, so [pos] iterations are enough. *)
Fixpoint siftdown_loop (fuel : nat) (heap : list A) (startpos pos : nat)
    (newitem : A) : result (list A * nat) :=
  if decide (startpos < pos) then
    match fuel with
    | 0 => OutOfFuel
    | S fuel =>
        let parentpos := Nat.shiftr (pos - 1) 1 in
        parent ← getitem heap parentpos;
        if lt newitem parent then
          heap ← setitem heap pos parent;
          siftdown_loop fuel heap startpos parentpos newitem
        else Ok (heap, pos)
    end
  else Ok (heap, pos).

(** [_siftdown(heap, startpos, pos)] *)
Definition siftdown (heap : list A) (startpos pos : nat) : result (list A) :=
  newitem ← getitem heap pos;
  '(heap, pos) ← siftdown_loop pos heap startpos pos newitem;
  setitem heap pos newitem.

(** The [while childpos < endpos] loop of [_siftup].  Every iteration makes
    [childpos] larger, so [endpos] iterations are enough. *)
Fixpoint siftup_loop (fuel : nat) (heap : list A) (endpos pos childpos : nat)
    : result (list A * nat) :=
  if decide (childpos < endpos) then
    match fuel with
    | 0 => OutOfFuel
    | S fuel =>
        let rightpos := childpos + 1 in
        childpos ←
          (if decide (rightpos < endpos) then
             l ← getitem heap childpos;
             r ← getitem heap rightpos;
             Ok (if negb (lt l r) then rightpos else childpos)
           else Ok childpos);
        child ← getitem heap childpos;
        heap ← setitem heap pos child;
        siftup_loop fuel heap endpos childpos (2 * childpos + 1)
    end
  else Ok (heap, pos).

(** [_siftup(heap, pos)] *)
Definition siftup (heap : list A) (pos : nat) : result (list A) :=
  let endpos := length heap in
  let startpos := pos in
  newitem ← getitem heap pos;
  '(heap, pos) ← siftup_loop endpos heap endpos pos (2 * pos + 1);
  heap ← setitem heap pos newitem;
  siftdown heap startpos pos.

(** [heappush(heap, item)] *)
Definition heappush (heap : list A) (item : A) : result (list A) :=
  let heap := heap ++ [item] in
  siftdown heap 0 (length heap - 1).

(** [heappop(heap)]: the smallest item and the heap that is left. *)
Definition heappop (heap : list A) : result (A * list A) :=
  '(lastelt, heap) ← list_pop heap;
  match heap with
  | [] => Ok (lastelt, heap)
  | _ :: _ =>
      returnitem ← getitem heap 0;
      heap ← setitem heap 0 lastelt;
      heap ← siftup heap 0;
      Ok (returnitem, heap)
  end.

(** [heapify(x)]: [for i in reversed(range(n//2)): _siftup(x, i)] *)
Definition heapify (x : list A) : result (list A) :=
  let n := length x in
  for_each (reverse (seq 0 (n / 2))) siftup x.
End heapq.
End heapq.

(** ** Huffman trees and codes *)

Section huffman.
Context {Sym : Type} `{EqDecision Sym}.

(** The class [HuffmanNode] ([Node] in [advanced_compression.py]).  A node
    made by [HuffmanNode(sym, freq)] has a symbol and no children; a node
    made in the merge loop has [symbol = None] and both children set. *)
Inductive HuffmanNode : Type :=
  | Leaf (symbol : Sym) (freq : Z)
  | Merged (freq : Z) (left right : HuffmanNode).

Definition freq (node : HuffmanNode) : Z :=
  match node with
  | Leaf _ f => f
  | Merged f _ _ => f
  end.

(** [HuffmanNode.__lt__] *)
Definition node_lt (self other : HuffmanNode) : bool :=
  bool_decide (freq self < freq other)%Z.

(** The [while len(heap) > 1] loop that merges the two smallest nodes.
    Every iteration makes the heap one shorter. *)
Fixpoint merge_loop (fuel : nat) (heap : list HuffmanNode) : result (list HuffmanNode) :=
  if decide (1 < length heap) then
    match fuel with
    | 0 => OutOfFuel
    | S fuel =>
        '(l, heap) ← heapq.heappop node_lt heap;
        '(r, heap) ← heapq.heappop node_lt heap;
        let merged := Merged (freq l + freq r) l r in
        heap ← heapq.heappush node_lt heap merged;
        merge_loop fuel heap
    end
  else Ok heap.

(** The heap of leaves, heapified: the first two statements of
    [build_huffman_tree] and of the general case of [build_huffman_codes]. *)
Definition initial_heap (freq_dict : dict Sym Z) : result (list HuffmanNode) :=
  let heap := (λ '(sym, f), Leaf sym f) <$> freq_dict in
  heapq.heapify node_lt heap.

(** [build_huffman_tree(freq_dict)] of [huffman_compression.py]; [None] on
    an empty dictionary. *)
Definition build_huffman_tree (freq_dict : dict Sym Z) : result (option HuffmanNode) :=
  heap ← initial_heap freq_dict;
  heap ← merge_loop (length heap) heap;
  Ok (head heap).

(** [get_huffman_codes(node, prefix, codes)] of [huffman_compression.py],
    and the local [extract_codes] / [extract] of the two
    [build_huffman_codes]; the dictionary [codes] is threaded through the
    recursive calls. *)
Fixpoint get_huffman_codes (node : HuffmanNode) (prefix : string)
    (codes : dict Sym string) : dict Sym string :=
  match node with
  | Leaf symbol _ =>
      dict_set codes symbol (if decide (prefix = "") then "0" else prefix)
  | Merged _ l r =>
      let codes := get_huffman_codes l (prefix +:+ "0") codes in
      get_huffman_codes r (prefix +:+ "1") codes
  end.

(** [huffman_encode(symbols, codes)]: [''.join(codes[s] for s in symbols)];
    a [KeyError] on a symbol without a code. *)
Definition huffman_encode (symbols : list Sym) (codes : dict Sym string) : result string :=
  parts ← mapM (dict_get codes) symbols;
  Ok (String.concat "" parts).

(** [build_huffman_codes(freq_dict)] of [runlength_huffman.py] and
    [advanced_compression.py]. *)
Definition build_huffman_codes (freq_dict : dict Sym Z) : result (dict Sym string) :=
  if decide (length freq_dict = 0) then Ok []
  else if decide (length freq_dict = 1) then
    key ← getitem (dict_keys freq_dict) 0;
    Ok [(key, "0")]
  else
    heap ← initial_heap freq_dict;
    heap ← merge_loop (length heap) heap;
    root ← getitem heap 0;
    Ok (get_huffman_codes root "" []).

(** Modelled from the spec: the decoder of the Huffman codec, which no
    script defines.  It "walks the tree bit by bit, emitting a symbol and
    resetting to the root whenever a leaf is reached" and "fails with
    MalformedStreamError on trailing bits that do not resolve to a complete
    leaf path".  [pending] says that bits were read since the last symbol.
    For the tree of a single leaf, whose symbol has the code "0", every
    bit "0" stands for the symbol. *)
Fixpoint huffman_decode_from (root node : HuffmanNode) (pending : bool)
    (bits : string) : result (list Sym) :=
  match bits with
  | EmptyString => if pending then Raise MalformedStreamError else Ok []
  | String b bits =>
      let arrive child :=
        match child with
        | Leaf symbol _ => (symbol ::.) <$> huffman_decode_from root root false bits
        | Merged _ _ _ => huffman_decode_from root child true bits
        end in
      match node with
      | Leaf symbol _ =>
          if decide (b = "0"%char) then
            (symbol ::.) <$> huffman_decode_from root root false bits
          else Raise MalformedStreamError
      | Merged _ l r =>
          if decide (b = "0"%char) then arrive l
          else if decide (b = "1"%char) then arrive r
          else Raise MalformedStreamError
      end
  end.

(** Modelled from the spec: decoding starts at the root of the tree, with
    no bit read. *)
Definition huffman_decode (root : HuffmanNode) (bits : string) : result (list Sym) :=
  huffman_decode_from root root false bits.
End huffman.

Global Arguments HuffmanNode Sym : clear implicits.

(** ** Grouping runs into tuples

    [advanced_compression.py] groups the run lengths into pairs, triples,
    ..., 6-tuples with five loops of one shape.  A Python tuple of run
    lengths is modelled as the list of its components. *)

Section grouping.
Context {A : Type}.

(** [i = 0; while i < len(runs) - (k-1): groups.append(item(i)); i += k].
    Every iteration moves [i] forward by [k], so [len(runs)] iterations
    are enough when [k >= 1]. *)
Fixpoint group_loop (k : nat) (item : nat → result (list nat)) (len : nat)
    (fuel i : nat) (groups : list (list nat)) : result (list (list nat)) :=
  if decide (Z.of_nat i < Z.of_nat len - (Z.of_nat k - 1))%Z then
    match fuel with
    | 0 => OutOfFuel
    | S fuel =>
        g ← item i;
        group_loop k item len fuel (i + k) (groups ++ [g])
    end
  else Ok groups.

(** [(runs[i][1], runs[i + 1][1])] *)
Definition pair_at (runs : list (Run A)) (i : nat) : result (list nat) :=
  r0 ← getitem runs i;
  r1 ← getitem runs (i + 1);
  Ok [r0.2; r1.2].

(** [(runs[i][1], runs[i+1][1], runs[i+2][1])] *)
Definition triple_at (runs : list (Run A)) (i : nat) : result (list nat) :=
  r0 ← getitem runs i;
  r1 ← getitem runs (i + 1);
  r2 ← getitem runs (i + 2);
  Ok [r0.2; r1.2; r2.2].

(** [(runs[i][1], runs[i+1][1], runs[i+2][1], runs[i+3][1])] *)
Definition quad_at (runs : list (Run A)) (i : nat) : result (list nat) :=
  r0 ← getitem runs i;
  r1 ← getitem runs (i + 1);
  r2 ← getitem runs (i + 2);
  r3 ← getitem runs (i + 3);
  Ok [r0.2; r1.2; r2.2; r3.2].

(** [tuple(r[1] for r in runs[i:i+k])]; a slice never raises. *)
Definition slice_at (k : nat) (runs : list (Run A)) (i : nat) : result (list nat) :=
  Ok ((take k (drop i runs)).*2).

(** Method 2: the pairs, and
    [leftover = runs[-1] if len(runs) % 2 == 1 else None]. *)
Definition paired_runs (runs : list (Run A))
    : result (list (list nat) * option (Run A)) :=
  pairs ← group_loop 2 (pair_at runs) (length runs) (length runs) 0 [];
  leftover ←
    (if decide (length runs `mod` 2 = 1)
     then Some <$> getitem runs (length runs - 1)
     else Ok None);
  Ok (pairs, leftover).

(** [runs[-(len(runs) % k):] if len(runs) % k != 0 else []] *)
Definition leftover_runs (k : nat) (runs : list (Run A)) : list (Run A) :=
  if decide (length runs `mod` k ≠ 0)
  then drop (length runs - length runs `mod` k) runs
  else [].

(** Methods 3 to 6: the tuples and the leftover runs. *)
Definition tupled_runs (k : nat) (item : list (Run A) → nat → result (list nat))
    (runs : list (Run A)) : result (list (list nat) * list (Run A)) :=
  groups ← group_loop k (item runs) (length runs) (length runs) 0 [];
  Ok (groups, leftover_runs k runs).

Definition triple_runs := tupled_runs 3 triple_at.
Definition quad_runs := tupled_runs 4 quad_at.
Definition quintuple_runs := tupled_runs 5 (slice_at 5).
Definition sextuple_runs := tupled_runs 6 (slice_at 6).

(** The grouping of [analyze_sequence] at group size [k], for the sizes
    it has a method for: the tuples and the runs left over. *)
Definition grouping (k : nat) (runs : list (Run A))
    : option (result (list (list nat) * list (Run A))) :=
  match k with
  | 2 => Some ('(pairs, leftover) ← paired_runs runs;
               Ok (pairs, option_list leftover))
  | 3 => Some (triple_runs runs)
  | 4 => Some (quad_runs runs)
  | 5 => Some (quintuple_runs runs)
  | 6 => Some (sextuple_runs runs)
  | _ => None
  end.
End grouping.

(** ** Floating-point arithmetic *)

(** [float(z)]: the binary64 number nearest to the integer [z]. *)
Definition float_of_int (z : Z) : float :=
  SF2Prim (SpecFloat.binary_normalize prec emax z 0 false).

(** [x / y] on floats: a [ZeroDivisionError] when [y] is zero. *)
Definition truediv (x y : float) : result float :=
  if (y =? 0)%float then Raise ZeroDivisionError else Ok (x / y)%float.

(** [a / b] on integers: a [ZeroDivisionError] when [b] is zero.  Both
    are converted before the division, which gives Python's result for
    integers below [2^53]. *)
Definition int_truediv (a b : Z) : result float :=
  if decide (b = 0)%Z then Raise ZeroDivisionError
  else Ok (float_of_int a / float_of_int b)%float.

(** [x / b] for a float [x] and an integer [b]: [b] is converted, and the
    division raises a [ZeroDivisionError] when [b] is zero. *)
Definition float_int_truediv (x : float) (b : Z) : result float :=
  if decide (b = 0)%Z then Raise ZeroDivisionError
  else Ok (x / float_of_int b)%float.

(** [-p*log2(p) - (1-p)*log2(1-p) if 0 < p < 1 else 0] *)
Definition binary_entropy (log2 : float → float) (p : float) : float :=
  if ((0 <? p) && (p <? 1))%float
  then (- p * log2 p - (1 - p) * log2 (1 - p))%float
  else 0%float.

(** ** Golomb and unary codes of a run length *)

(** The binary digits of a positive number, most significant first. *)
Fixpoint bin_pos (p : positive) : string :=
  match p with
  | xH => "1"
  | xO p => bin_pos p +:+ "0"
  | xI p => bin_pos p +:+ "1"
  end.

(** [format(r, '0{b}b')]: the binary digits of [r], padded with zeros on
    the left to [b] characters, a minus sign first when [r < 0]. *)
Definition format_0b (r b : Z) : string :=
  let sign := if decide (r < 0)%Z then "-" else "" in
  let digits :=
    match r with
    | Z0 => "0"
    | Zpos p => bin_pos p
    | Zneg p => bin_pos p
    end in
  let padding := (b - Z.of_nat (String.length sign) - Z.of_nat (String.length digits))%Z in
  sign +:+ str_repeat "0" padding +:+ digits.

(** [math.ceil(x)] on a float: for the finite number [±m·2^e] the least
    integer that is not below it.  On an infinity and on a NaN Python
    raises; [math.log2] returns neither on a positive number, and the
    model gives 0 there. *)
Definition float_ceil (x : float) : Z :=
  match Prim2SF x with
  | SpecFloat.S754_finite s m e =>
      let z := if s then Z.neg m else Z.pos m in
      if decide (0 ≤ e)%Z then (z * 2 ^ e)%Z else (- ((- z) `div` 2 ^ (- e)))%Z
  | _ => 0%Z
  end.

(** The fraction and the exponent of an integer [m > 0] that is too large
    for a float, as [_PyLong_Frexp] of CPython gives them: [m] is about
    [x·2^e] with [0.5 <= x < 1], [x] being rounded to the nearest float
    (and [e] is one more when the rounding reaches 1). *)
Definition long_frexp (m : Z) : float * Z :=
  let e := (Z.log2 m + 1)%Z in
  let x := SF2Prim (SpecFloat.binary_normalize prec emax m (- e) false) in
  if (x =? 1)%float then (0.5%float, (e + 1)%Z) else (x, e).

(** [math.log2(m)] on an integer [m > 0], after [loghelper] of CPython's
    [mathmodule.c]: the logarithm of [float(m)], and, when [m] is too
    large for a float, [log2(x) + log2(2.0) * e] for the fraction [x] and
    the exponent [e] of [m].  [log2] stands for the logarithm of the C
    library on floats. *)
Definition log2_of_int (log2 : float → float) (m : Z) : float :=
  let x := float_of_int m in
  if is_infinity x then
    let '(x, e) := long_frexp m in (log2 x + log2 2 * float_of_int e)%float
  else log2 x.

(** [int(math.ceil(math.log2(m)))], as binary64 arithmetic computes it:
    the rounding of the logarithm can make it one less than the exact
    [ceil(log2 m)], as it does at [m = 2^49 + 1]. *)
Definition ceil_log2 (log2 : float → float) (m : Z) : Z :=
  float_ceil (log2_of_int log2 m).

(** [encode_run_length_unary(length)] *)
Definition encode_run_length_unary (length : Z) : string :=
  str_repeat "1" length +:+ "0".

(** [encode_run_length_golomb(length, m)]; [//] and [%] raise a
    [ZeroDivisionError] when [m = 0].  [log2] stands for [math.log2] on
    floats; on an integer above 1 it is positive and finite, so [b] is a
    width that [format] accepts. *)
Definition encode_run_length_golomb (log2 : float → float) (length m : Z)
    : result string :=
  if decide (m = 0)%Z then Raise ZeroDivisionError
  else
    let q := ((length - 1) `div` m)%Z in
    let r := ((length - 1) `mod` m)%Z in
    let b := if decide (1 < m)%Z then ceil_log2 log2 m else 1%Z in
    let unary := str_repeat "1" q +:+ "0" in
    let binary := format_0b r b in
    Ok (unary +:+ binary).

(** The [w] low bits of [r], most significant first: the fixed-width
    field the remainder is written in. *)
Definition fixed_width (w : nat) (r : Z) : string :=
  String.string_of_list_ascii
    ((λ i, if Z.testbit r (Z.of_nat i) then "1"%char else "0"%char)
       <$> reverse (seq 0 w)).

(** What the specification says of the codeword of a run length, for a
    remainder field of [width] bits: [q] ones, a zero, the remainder [r]
    in [width] bits, and so [q + 1 + width] characters. *)
Definition golomb_codeword (length m width : Z) (code : string) : Prop :=
  let q := ((length - 1) `div` m)%Z in
  let r := ((length - 1) `mod` m)%Z in
  code = str_repeat "1" q +:+ "0" +:+ fixed_width (Z.to_nat width) r ∧
  Z.of_nat (String.length code) = (q + 1 + width)%Z.

(** ** The analyses

    What the scripts print is left out; a division that is computed only
    to be printed is kept, since it can raise.  [log2] stands for
    [math.log2] on floats; the entropies apply it to numbers strictly
    between 0 and 1, the Golomb code to a divisor above 1. *)

(** The dictionary returned by [analyze_compression]. *)
Record compression_result : Type := {
  cr_original : nat;
  cr_encoded : nat;
  cr_ratio : float;
  cr_savings : float;
  cr_theoretical_min : float;
  cr_alt_rate : float;
  cr_entropy : float;
  cr_runs : list (Run Z);
  cr_run_codes : dict nat string
}.

(** An entry such as [results['paired']] of [analyze_sequence]; the entry
    [results['separate']] has no ['unique']. *)
Record method_result : Type := {
  mr_bits : nat;
  mr_ratio : float;
  mr_unique : option nat
}.

(** The dictionary returned by [analyze_sequence]. *)
Record sequence_results : Type := {
  sr_n : nat;
  sr_num_runs : nat;
  sr_runs_1 : list nat;
  sr_runs_0 : list nat;
  sr_alt_rate : float;
  sr_separate : method_result;
  sr_paired : method_result;
  sr_triple : method_result;
  sr_quad : method_result;
  sr_5_tuple : method_result;
  sr_6_tuple : method_result
}.

(** The statistics returned by [prediction_encode]. *)
Record prediction_stats : Type := {
  ps_first_bit : Z;
  ps_num_transitions : nat;
  ps_num_alternations : nat;
  ps_num_same : nat;
  ps_alternation_rate : float
}.

(** The dictionary returned by [compress_sequence], without the entries
    of [pred_stats] that are merged into it. *)
Record compress_result : Type := {
  cs_original_bits : nat;
  cs_compressed_bits : nat;
  cs_compression_ratio : float;
  cs_savings_percent : float;
  cs_entropy_per_error_bit : float;
  cs_theoretical_min_bits : float;
  cs_theoretical_ratio : float;
  cs_num_runs : nat;
  cs_runs : list (Run Z);
  cs_encoded_runs : list (Z * nat * string);
  cs_error_stream : list Z;
  cs_pred_stats : prediction_stats
}.

(** [[length for val, length in runs if val == v]] *)
Definition runs_of (v : Z) (runs : list (Run Z)) : list nat :=
  (filter (λ r, r.1 = v) runs).*2.

(** [if lengths: ... sum(lengths)/len(lengths) ...], the average that
    [analyze_compression] prints for the runs of a value when there are
    any. *)
Definition average_if_any (lengths : list nat) : result float :=
  match lengths with
  | [] => Ok 0%float
  | _ :: _ =>
      int_truediv (Z.of_nat (sum_nat lengths)) (Z.of_nat (length lengths))
  end.

Section analyses.
Variable log2 : float → float.

(** [analyze_compression(flips, name)] of [runlength_huffman.py] *)
Definition analyze_compression (flips : string) : result compression_result :=
  let n := String.length flips in
  let transitions := to_transitions flips in
  let t_len := length transitions in
  let ones := Py.sum transitions in
  let zeros := (Z.of_nat t_len - ones)%Z in
  alt_rate ← int_truediv ones (Z.of_nat t_len);
  let entropy := binary_entropy log2 alt_rate in
  let theoretical_min := (1 + entropy * float_of_int (Z.of_nat t_len))%float in
  _ ← float_int_truediv theoretical_min (Z.of_nat n);
  let runs := get_runs transitions in
  let runs_of_1 := runs_of 1 runs in
  let runs_of_0 := runs_of 0 runs in
  _ ← average_if_any runs_of_1;
  _ ← average_if_any runs_of_0;
  let all_run_lengths := runs.*2 in
  let run_freq := Counter all_run_lengths in
  run_codes ← build_huffman_codes run_freq;
  let total_runs := length runs in
  _ ← for_each run_codes
        (λ _ '(length, code),
           let count := default 0%Z (dict_lookup run_freq length) in
           _ ← int_truediv count (Z.of_nat total_runs); Ok ()) ();
  encoded_bits ← for_each runs
        (λ encoded_bits '(_, length),
           code ← dict_get run_codes length;
           Ok (encoded_bits + String.length code)) (1 + 1);
  let original_bits := n in
  compression_ratio ←
    int_truediv (Z.of_nat encoded_bits) (Z.of_nat original_bits);
  let savings := ((1 - compression_ratio) * 100)%float in
  theoretical_ratio ← float_int_truediv theoretical_min (Z.of_nat original_bits);
  _ ← (if (0 <? savings)%float
       then truediv savings ((1 - theoretical_ratio) * 100)%float
       else Ok savings);
  Ok {| cr_original := original_bits;
        cr_encoded := encoded_bits;
        cr_ratio := compression_ratio;
        cr_savings := savings;
        cr_theoretical_min := theoretical_min;
        cr_alt_rate := alt_rate;
        cr_entropy := entropy;
        cr_runs := runs;
        cr_run_codes := run_codes |}.

(** [bits += len(codes_1[length]) if val == 1 else len(codes_0[length])],
    the statement that costs one run in every method of
    [analyze_sequence]. *)
Definition add_run_bits (codes_1 codes_0 : dict nat string) (bits : nat)
    (run : Run Z) : result nat :=
  let '(val, length) := run in
  code ← (if decide (val = 1%Z) then dict_get codes_1 length
          else dict_get codes_0 length);
  Ok (bits + String.length code).

(** [for t in tuples: bits += len(codes[t])] *)
Definition add_tuple_bits (codes : dict (list nat) string) (bits : nat)
    (t : list nat) : result nat :=
  code ← dict_get codes t;
  Ok (bits + String.length code).

(** The body shared by the methods 3 to 6 of [analyze_sequence]. *)
Definition tuple_method (n : nat) (codes_1 codes_0 : dict nat string)
    (grouped : result (list (list nat) * list (Run Z))) : result method_result :=
  '(tuples, leftover_runs) ← grouped;
  tuple_codes ←
    (match tuples with
     | [] => Ok []
     | _ :: _ => build_huffman_codes (Counter tuples)
     end);
  bits ← for_each tuples (add_tuple_bits tuple_codes) 2;
  bits ← for_each leftover_runs (add_run_bits codes_1 codes_0) bits;
  ratio ← int_truediv (Z.of_nat bits) (Z.of_nat n);
  Ok {| mr_bits := bits; mr_ratio := ratio;
        mr_unique := Some (length tuple_codes) |}.

(** [analyze_sequence(flips, name)] of [advanced_compression.py] *)
Definition analyze_sequence (flips : string) : result sequence_results :=
  let n := String.length flips in
  let transitions := to_transitions flips in
  let runs := get_runs transitions in
  let runs_1 := runs_of 1 runs in
  let runs_0 := runs_of 0 runs in
  alt_rate ← int_truediv (Py.sum transitions) (Z.of_nat (length transitions));
  codes_1 ← build_huffman_codes (Counter runs_1);
  codes_0 ← build_huffman_codes (Counter runs_0);
  (* Method 1: separate codes *)
  bits ← for_each runs (add_run_bits codes_1 codes_0) 2;
  ratio ← int_truediv (Z.of_nat bits) (Z.of_nat n);
  let separate := {| mr_bits := bits; mr_ratio := ratio; mr_unique := None |} in
  (* Method 2: paired runs *)
  '(pairs, leftover) ← paired_runs runs;
  pair_codes ← build_huffman_codes (Counter pairs);
  bits ← for_each pairs (add_tuple_bits pair_codes) 2;
  bits ← (match leftover with
          | Some run => add_run_bits codes_1 codes_0 bits run
          | None => Ok bits
          end);
  ratio ← int_truediv (Z.of_nat bits) (Z.of_nat n);
  let paired := {| mr_bits := bits; mr_ratio := ratio;
                   mr_unique := Some (length pair_codes) |} in
  (* Methods 3 to 6 *)
  triple ← tuple_method n codes_1 codes_0 (triple_runs runs);
  quad ← tuple_method n codes_1 codes_0 (quad_runs runs);
  quint ← tuple_method n codes_1 codes_0 (quintuple_runs runs);
  sext ← tuple_method n codes_1 codes_0 (sextuple_runs runs);
  Ok {| sr_n := n;
        sr_num_runs := length runs;
        sr_runs_1 := runs_1;
        sr_runs_0 := runs_0;
        sr_alt_rate := alt_rate;
        sr_separate := separate;
        sr_paired := paired;
        sr_triple := triple;
        sr_quad := quad;
        sr_5_tuple := quint;
        sr_6_tuple := sext |}.

(** [to_bits(flips)]: [[1 if f == 'H' else 0 for f in flips]] *)
Definition to_bits (flips : string) : list Z :=
  (λ f, if decide (f = "H"%char) then 1%Z else 0%Z)
    <$> String.list_ascii_of_string flips.

(** [[0 if t == 1 else 1 for t in transitions]] *)
Definition prediction_errors (transitions : list Z) : list Z :=
  (λ t, if decide (t = 1%Z) then 0%Z else 1%Z) <$> transitions.

(** [l.count(x)] *)
Definition count (x : Z) (l : list Z) : nat := length (filter (λ y, y = x) l).

(** [prediction_encode(flips)] of [compression_analysis.py] *)
Definition prediction_encode (flips : string) : result (list Z * prediction_stats) :=
  let bits := to_bits flips in
  let n := length bits in
  first_bit ← getitem bits 0;
  let transitions := get_transitions bits in
  let errors := prediction_errors transitions in
  let num_correct := count 0 errors in
  let num_wrong := count 1 errors in
  alternation_rate ←
    (match errors with
     | _ :: _ => int_truediv (Z.of_nat num_correct) (Z.of_nat (length errors))
     | [] => Ok 0%float
     end);
  Ok (errors,
      {| ps_first_bit := first_bit;
         ps_num_transitions := length transitions;
         ps_num_alternations := num_correct;
         ps_num_same := num_wrong;
         ps_alternation_rate := alternation_rate |}).

(** [compress_sequence(flips, use_golomb, golomb_m)] of
    [compression_analysis.py] *)
Definition compress_sequence (flips : string) (use_golomb : bool) (golomb_m : Z)
    : result compress_result :=
  let n := String.length flips in
  let original_bits := n in
  '(errors, pred_stats) ← prediction_encode flips;
  let runs := run_length_encode errors in
  '(compressed_bits, encoded_runs) ← for_each runs
    (λ '(compressed_bits, encoded_runs) '(bit_val, length),
       code ← (if use_golomb
               then encode_run_length_golomb log2 (Z.of_nat length) golomb_m
               else Ok (encode_run_length_unary (Z.of_nat length)));
       Ok (compressed_bits + String.length code,
           encoded_runs ++ [(bit_val, length, code)])) (1, []);
  let compressed_bits := compressed_bits + 1 in
  p0 ← (match errors with
        | _ :: _ => int_truediv (Z.of_nat (count 0 errors)) (Z.of_nat (length errors))
        | [] => Ok 0.5%float
        end);
  let p1 := (1 - p0)%float in
  let entropy :=
    if ((0 <? p0) && (p0 <? 1))%float
    then (- p0 * log2 p0 - p1 * log2 p1)%float
    else 0%float in
  let theoretical_min := (1 + entropy * float_of_int (Z.of_nat (length errors)))%float in
  compression_ratio ← int_truediv (Z.of_nat compressed_bits) (Z.of_nat original_bits);
  let savings_percent := ((1 - compression_ratio) * 100)%float in
  theoretical_ratio ← float_int_truediv theoretical_min (Z.of_nat original_bits);
  Ok {| cs_original_bits := original_bits;
        cs_compressed_bits := compressed_bits;
        cs_compression_ratio := compression_ratio;
        cs_savings_percent := savings_percent;
        cs_entropy_per_error_bit := entropy;
        cs_theoretical_min_bits := theoretical_min;
        cs_theoretical_ratio := theoretical_ratio;
        cs_num_runs := length runs;
        cs_runs := runs;
        cs_encoded_runs := encoded_runs;
        cs_error_stream := errors;
        cs_pred_stats := pred_stats |}.
End analyses.

(** ** Notions used in the statements and in the proofs *)

(** The characters of a string. *)
Abbreviation chars := String.list_ascii_of_string.

(** What the loop of [get_runs] keeps true: the runs found and the current
    run stand for the bits read so far, every run has a length of at least
    1, and neighbours differ in value. *)
Definition runs_inv {A} `{EqDecision A} (seen : list A)
    (st : list (Run A) * A * nat) : Prop :=
  let '(runs, current_val, current_len) := st in
  expand_runs (runs ++ [(current_val, current_len)]) = seen ∧
  Forall (λ r, 1 ≤ r.2) (runs ++ [(current_val, current_len)]) ∧
  alternating (runs ++ [(current_val, current_len)]).

(** The loop state of [get_runs] with [f] applied to every value. *)
Definition map_state {A B} (f : A → B) (st : list (Run A) * A * nat)
    : list (Run B) * B * nat :=
  let '(runs, v, n) := st in (prod_map f id <$> runs, f v, n).

(** The characters of [fixed_width w r]. *)
Definition msb_bits (w : nat) (r : Z) : list ascii :=
  (λ i, if Z.testbit r (Z.of_nat i) then "1"%char else "0"%char)
    <$> reverse (seq 0 w).

(** [for k, v in ps: d[k] = v] *)
Definition dict_update {K V} `{EqDecision K} (d ps : dict K V) : dict K V :=
  foldl (λ d p, dict_set d p.1 p.2) d ps.

Section trees.
Context {Sym : Type}.
Implicit Types (node root : HuffmanNode Sym) (heap : list (HuffmanNode Sym)).

(** The symbols at the leaves of a tree, from left to right. *)
Fixpoint leaves node : list Sym :=
  match node with
  | Leaf symbol _ => [symbol]
  | Merged _ l r => leaves l ++ leaves r
  end.

(** The symbols at the leaves of the trees of a heap. *)
Definition forest_leaves heap : list Sym := heap ≫= leaves.

Definition is_merged node : Prop :=
  match node with
  | Leaf _ _ => False
  | Merged _ _ _ => True
  end.

(** The path to every leaf of a tree, "0" for left and "1" for right. *)
Fixpoint rel_paths node : dict Sym string :=
  match node with
  | Leaf symbol _ => [(symbol, "")]
  | Merged _ l r =>
      (prod_map id (String "0") <$> rel_paths l)
        ++ (prod_map id (String "1") <$> rel_paths r)
  end.

(** The code of a leaf that is reached with the path [prefix]:
    [prefix if prefix else "0"]. *)
Definition leaf_code (prefix : string) : string :=
  if decide (prefix = "") then "0" else prefix.

(** The code table of a tree: the paths to its leaves, and "0" for the
    lone leaf of a tree without a merged node. *)
Definition code_table root : dict Sym string :=
  match root with
  | Leaf symbol _ => [(symbol, "0")]
  | Merged _ _ _ => rel_paths root
  end.
End trees.

(** ** N-grams of the transition stream *)

(** [str(x)] on an integer: its decimal digits, a minus sign first when
    it is negative. *)
Definition str_int (x : Z) : string := NilZero.string_of_int (Z.to_int x).

(** [get_ngrams(stream, n)] of [huffman_compression.py] for a size
    [n >= 0] (the script calls it with 1, 2, 3 and 4):
    [[''.join(map(str, stream[i:i+n])) for i in range(len(stream) - n + 1)]].
    The range is empty when the stream is shorter than [n - 1]. *)
Definition get_ngrams (stream : list Z) (n : nat) : list string :=
  (λ i, String.concat "" (str_int <$> take n (drop i stream)))
    <$> seq 0 (length stream + 1 - n).

(** ** The flips file

    [load_flips] of the four scripts, from the string that [f.read()]
    returns.  A character is modelled by its code point, below 256. *)

(** [c.isspace()], the characters that [strip()] removes: the code points
    9 to 13, 28 to 32, 133 and 160. *)
Definition isspace (c : ascii) : bool :=
  bool_decide (nat_of_ascii c ∈ [9; 10; 11; 12; 13; 28; 29; 30; 31; 32; 133; 160]).

(** [c.upper()] for the letters a to z.  The other characters are left as
    they are; Python maps some of them to other characters, none to ['H']
    or ['T'], and [load_flips] only asks whether [c.upper()] is one of
    these two. *)
Definition upper (c : ascii) : ascii :=
  if decide (97 ≤ nat_of_ascii c ≤ 122) then ascii_of_nat (nat_of_ascii c - 32)
  else c.

(** [s.split(sep)] for a separator of one character. *)
Fixpoint split (sep : ascii) (s : string) : list string :=
  match s with
  | EmptyString => [""]
  | String c s =>
      if decide (c = sep) then "" :: split sep s
      else
        match split sep s with
        | line :: lines => String c line :: lines
        | [] => [String c ""]
        end
  end.

(** [s.lstrip()], [s.rstrip()] and [s.strip()] *)
Fixpoint lstrip (s : string) : string :=
  match s with
  | EmptyString => ""
  | String c s' => if isspace c then lstrip s' else s
  end.

Definition rstrip (s : string) : string := String.rev (lstrip (String.rev s)).

Definition strip (s : string) : string := rstrip (lstrip s).

(** [line.strip().startswith('#')] *)
Definition is_comment (line : string) : bool := String.prefix "#" (strip line).

(** [c.upper() in 'HT']: a string of one character is in ['HT'] when it
    is ['H'] or ['T']. *)
Definition upper_in_HT (c : ascii) : bool :=
  bool_decide (upper c = "H"%char ∨ upper c = "T"%char).

(** The line feed ['\n'], the character of code 10. *)
Definition newline : ascii := "010"%char.

(** [load_flips]: the lines that are not comments are joined, and of
    their characters the letters h and t are kept, in upper case. *)
Definition load_flips (content : string) : string :=
  let lines := filter (λ line, is_comment line = false) (split newline content) in
  let content := String.concat "" lines in
  String.string_of_list_ascii
    (upper <$> filter (λ c, upper_in_HT c = true) (String.list_ascii_of_string content)).

(** ** Notions used in the further properties *)

(** The parent of the position [i > 0] of a heap: [(i - 1) >> 1]. *)
Definition parent (i : nat) : nat := Nat.shiftr (i - 1) 1.

(** Position [i] lies in the subtree of the heap that starts at [k]. *)
Inductive descends (k : nat) : nat → Prop :=
  | descends_refl : descends k k
  | descends_step i : 0 < i → descends k (parent i) → descends k i.

Section heap_order.
Context {A : Type} (key : A → Z).

(** The heap order on every edge whose parent is at position [k] or
    after it; [heap_from 0] is the invariant of [heapq]. *)
Definition heap_from (k : nat) (h : list A) : Prop :=
  ∀ i x y, 0 < i → k ≤ parent i →
    h !! i = Some x → h !! parent i = Some y → (key y ≤ key x)%Z.

Definition is_heap (h : list A) : Prop := heap_from 0 h.

(** A heap with a hole at [pos]: the order holds on the edges that do not
    touch the hole. *)
Definition hole_edges (k : nat) (h : list A) (pos : nat) : Prop :=
  ∀ i x y, 0 < i → i ≠ pos → parent i ≠ pos → k ≤ parent i →
    h !! i = Some x → h !! parent i = Some y → (key y ≤ key x)%Z.

(** The parent of the hole is below the children of the hole. *)
Definition hole_above (k : nat) (h : list A) (pos : nat) : Prop :=
  k < pos → ∀ c x y, 0 < c → parent c = pos →
    h !! c = Some x → h !! parent pos = Some y → (key y ≤ key x)%Z.

(** The item that is to fill the hole is below the children of the hole. *)
Definition hole_below (h : list A) (pos : nat) (newitem : A) : Prop :=
  ∀ c x, 0 < c → parent c = pos → h !! c = Some x → (key newitem ≤ key x)%Z.
End heap_order.

Section huffman_merges.
Context {Sym : Type}.

(** The construction of Huffman: as long as there are two trees, two
    trees of least frequency are replaced by their merge. *)
Inductive huffman_merges : list (HuffmanNode Sym) → HuffmanNode Sym → Prop :=
  | huffman_merges_done root : huffman_merges [root] root
  | huffman_merges_step forest l r rest root :
      forest ≡ₚ l :: r :: rest →
      (freq l ≤ freq r)%Z →
      Forall (λ node, freq r ≤ freq node)%Z rest →
      huffman_merges (Merged (freq l + freq r) l r :: rest) root →
      huffman_merges forest root.

(** The leaves of a tree with their frequencies, from left to right. *)
Fixpoint leaf_entries (node : HuffmanNode Sym) : dict Sym Z :=
  match node with
  | Leaf symbol f => [(symbol, f)]
  | Merged _ l r => leaf_entries l ++ leaf_entries r
  end.

(** Every merged node carries the sum of the frequencies of its children. *)
Fixpoint sums_frequencies (node : HuffmanNode Sym) : Prop :=
  match node with
  | Leaf _ _ => True
  | Merged f l r =>
      f = (freq l + freq r)%Z ∧ sums_frequencies l ∧ sums_frequencies r
  end.
End huffman_merges.

(** The codeword that [compress_sequence] gives a run of [length]: the
    [if use_golomb: ... else: ...] of its loop. *)
Definition run_codeword (log2 : float → float) (use_golomb : bool)
    (golomb_m : Z) (length : nat) : result string :=
  if use_golomb then encode_run_length_golomb log2 (Z.of_nat length) golomb_m
  else Ok (encode_run_length_unary (Z.of_nat length)).

(** The width [b] of the remainder field that [encode_run_length_golomb]
    computes: [int(math.ceil(math.log2(m))) if m > 1 else 1]. *)
Definition golomb_width (log2 : float → float) (m : Z) : Z :=
  if decide (1 < m)%Z then ceil_log2 log2 m else 1%Z.

(** * Properties *)

(** ** Results *)

Lemma bind_Ok_l {A B} (a : A) (f : A → result B) : Ok a ≫= f = f a.
Proof. done. Qed.

Lemma fmap_Ok_l {A B} (a : A) (f : A → B) : f <$> Ok a = Ok (f a).
Proof. done. Qed.

Lemma getitem_Ok {A} (l : list A) (i : nat) (x : A) :
  getitem l i = Ok x ↔ l !! i = Some x.
Proof. unfold getitem. destruct (l !! i); naive_solver. Qed.

Lemma getitem_lt {A} (l : list A) (i : nat) :
  i < length l → ∃ x, getitem l i = Ok x ∧ l !! i = Some x.
Proof.
  intros [x Hx]%lookup_lt_is_Some_2. exists x.
  by rewrite getitem_Ok.
Qed.

(** ** The transition stream *)

Lemma string_get_lookup (s : string) (i : nat) :
  String.get i s = String.list_ascii_of_string s !! i.
Proof.
  revert i. induction s as [|c s IH]; intros [|i]; simpl; auto.
Qed.

Lemma string_length_list (s : string) :
  length (String.list_ascii_of_string s) = String.length s.
Proof. induction s; simpl; auto. Qed.

Section transitions_facts.
Context {A : Type} `{EqDecision A}.
Implicit Types xs : list A.

Lemma transition_stream_length xs :
  length (transition_stream xs) = length xs - 1.
Proof. unfold transition_stream. by rewrite length_fmap, length_seq. Qed.

Lemma transition_stream_short xs :
  length xs ≤ 1 → transition_stream xs = [].
Proof.
  intros Hn. apply nil_length_inv. rewrite transition_stream_length. lia.
Qed.

Lemma transition_stream_lookup xs i a b :
  xs !! i = Some a → xs !! S i = Some b →
  transition_stream xs !! i = Some (if decide (b ≠ a) then 1 else 0)%Z.
Proof.
  intros Ha Hb. unfold transition_stream.
  assert (S i < length xs) by (by eapply lookup_lt_Some).
  rewrite list_lookup_fmap, lookup_seq_lt by lia. simpl.
  rewrite Nat.sub_0_r, Ha, Hb.
  repeat case_decide; naive_solver.
Qed.

(** Every element of the stream is 0 or 1. *)
Lemma transition_stream_bits xs :
  Forall (λ t, t = 0 ∨ t = 1)%Z (transition_stream xs).
Proof.
  unfold transition_stream. apply Forall_fmap, Forall_forall.
  intros i _. simpl. case_decide; auto.
Qed.
End transitions_facts.

(** C9. [to_transitions] returns a stream of [n - 1] elements for a string
    of [n >= 1] flips, the empty stream (and no exception) when [n <= 1],
    and the element that stands for flip [i] (for [1 <= i < n], at index
    [i - 1] of the stream) is 1 when flip [i] differs from flip [i - 1]
    and 0 when it does not. *)
Theorem to_transitions_spec (flips : string) :
  length (to_transitions flips) = String.length flips - 1 ∧
  (String.length flips ≤ 1 → to_transitions flips = []) ∧
  (∀ i, 1 ≤ i < String.length flips →
     ∃ a b, String.get (i - 1) flips = Some a ∧ String.get i flips = Some b ∧
       to_transitions flips !! (i - 1)
         = Some (if decide (b ≠ a) then 1 else 0)%Z).
Proof.
  unfold to_transitions. split_and!.
  - by rewrite transition_stream_length, string_length_list.
  - intros Hn. apply transition_stream_short. by rewrite string_length_list.
  - intros i [Hi1 Hi2]. rewrite <-string_length_list in Hi2.
    destruct (lookup_lt_is_Some_2 (String.list_ascii_of_string flips) (i - 1))
      as [a Ha]; [lia|].
    destruct (lookup_lt_is_Some_2 (String.list_ascii_of_string flips) i)
      as [b Hb]; [lia|].
    exists a, b. rewrite !string_get_lookup. split_and!; [done..|].
    apply transition_stream_lookup; [done|].
    by replace (S (i - 1)) with i by lia.
Qed.

Lemma to_transitions_spec_witness :
  to_transitions "HTTH" = [1; 0; 1]%Z ∧
  ∃ a b, String.get 0 "HTTH" = Some a ∧ String.get 1 "HTTH" = Some b ∧
    to_transitions "HTTH" !! 0 = Some (if decide (b ≠ a) then 1 else 0)%Z.
Proof.
  split; [reflexivity|].
  apply (proj2 (proj2 (to_transitions_spec "HTTH")) 1). simpl. lia.
Defined.

(** [get_transitions] of [compression_analysis.py] is the same stream on
    a list of bits. *)
Lemma get_transitions_spec (bits : list Z) :
  length (get_transitions bits) = length bits - 1 ∧
  ∀ i a b, bits !! i = Some a → bits !! S i = Some b →
    get_transitions bits !! i = Some (if decide (b ≠ a) then 1 else 0)%Z.
Proof.
  split; [apply transition_stream_length|].
  intros i a b. apply transition_stream_lookup.
Qed.

(** ** Runs *)

Section runs_facts.
Context {A : Type} `{EqDecision A}.
Implicit Types (runs : list (Run A)) (stream : list A).

Lemma expand_runs_app runs1 runs2 :
  expand_runs (runs1 ++ runs2) = expand_runs runs1 ++ expand_runs runs2.
Proof. unfold expand_runs. apply bind_app. Qed.

Lemma expand_runs_singleton (v : A) (n : nat) :
  expand_runs [(v, n)] = replicate n v.
Proof. unfold expand_runs. simpl. apply app_nil_r. Qed.

Lemma expand_runs_length runs :
  length (expand_runs runs) = sum_nat (runs.*2).
Proof.
  induction runs as [|[v n] runs IH]; [done|].
  change ((v, n) :: runs) with ([(v, n)] ++ runs).
  rewrite expand_runs_app, length_app, expand_runs_singleton, length_replicate.
  simpl. by rewrite IH.
Qed.

(** Two lists of runs with the same values are alternating together. *)
Lemma alternating_values runs1 runs2 :
  runs1.*1 = runs2.*1 → alternating runs1 → alternating runs2.
Proof.
  intros Hv Halt i r1 r2 H1 H2.
  assert (runs2.*1 !! i = Some r1.1) as H1' by (by rewrite list_lookup_fmap, H1).
  assert (runs2.*1 !! S i = Some r2.1) as H2' by (by rewrite list_lookup_fmap, H2).
  rewrite <-Hv, list_lookup_fmap in H1', H2'.
  destruct (runs1 !! i) as [q1|] eqn:Hq1; [|done].
  destruct (runs1 !! S i) as [q2|] eqn:Hq2; [|done].
  simpl in *. injection H1' as <-. injection H2' as <-.
  by apply (Halt i).
Qed.

(** A new run whose value differs from the last one keeps a list
    alternating. *)
Lemma alternating_snoc runs (last_run new_run : Run A) :
  alternating (runs ++ [last_run]) → last_run.1 ≠ new_run.1 →
  alternating ((runs ++ [last_run]) ++ [new_run]).
Proof.
  intros Halt Hne i r1 r2 H1 H2.
  destruct (decide (S i < length (runs ++ [last_run]))) as [Hlt|Hge].
  - rewrite lookup_app_l in H1 by lia. rewrite lookup_app_l in H2 by lia.
    by apply (Halt i).
  - assert (S i = length (runs ++ [last_run])) as Hi.
    { apply lookup_lt_Some in H2. rewrite length_app in H2. simpl in H2. lia. }
    rewrite Hi, lookup_app_r, Nat.sub_diag in H2 by lia.
    injection H2 as <-.
    rewrite length_app in Hi. simpl in Hi.
    rewrite lookup_app_l in H1 by (rewrite length_app; simpl; lia).
    rewrite lookup_app_r in H1 by lia.
    replace (i - length runs) with 0 in H1 by lia.
    by injection H1 as <-.
Qed.

Lemma get_runs_step_inv (seen : list A) (st : list (Run A) * A * nat) (bit : A) :
  runs_inv seen st → runs_inv (seen ++ [bit]) (get_runs_step st bit).
Proof.
  destruct st as [[runs cv] cl]. unfold get_runs_step.
  intros (Hexp & Hlen & Halt).
  destruct (decide (bit = cv)) as [->|Hne]; unfold runs_inv.
  - split_and!.
    + rewrite expand_runs_app, expand_runs_singleton in *.
      rewrite <-Hexp, Nat.add_1_r, replicate_S_end. by rewrite (assoc_L (++)).
    + apply Forall_app in Hlen as [Hl1 Hl2]. apply Forall_app. split; [done|].
      apply Forall_singleton. simpl. lia.
    + revert Halt. apply alternating_values. by rewrite !fmap_app.
  - split_and!.
    + rewrite expand_runs_app, Hexp. by rewrite expand_runs_singleton.
    + apply Forall_app. split; [done|]. by apply Forall_singleton.
    + apply alternating_snoc; [done|]. simpl. congruence.
Qed.

Lemma get_runs_loop_inv (rest seen : list A) (st : list (Run A) * A * nat) :
  runs_inv seen st → runs_inv (seen ++ rest) (foldl get_runs_step st rest).
Proof.
  revert seen st. induction rest as [|bit rest IH]; intros seen st Hinv; simpl.
  - by rewrite app_nil_r.
  - rewrite (cons_middle bit), (assoc_L (++)).
    by apply IH, get_runs_step_inv.
Qed.

Lemma get_runs_inv (first : A) (rest : list A) :
  runs_inv (first :: rest) (foldl get_runs_step ([], first, 1) rest).
Proof.
  apply (get_runs_loop_inv rest [first]).
  unfold runs_inv. simpl. split_and!.
  - done.
  - by apply Forall_singleton.
  - intros [|i] r1 r2 H1 H2; simplify_eq/=.
Qed.
End runs_facts.

(** C3. For every stream [T], the runs that [get_runs] returns have no two
    neighbours of the same value, have lengths of at least 1, have lengths
    that sum to [len(T)], and give [T] back when every value is repeated
    its length, in order. *)
Theorem get_runs_spec {A : Type} `{EqDecision A} (T : list A) :
  alternating (get_runs T) ∧
  Forall (λ r, 1 ≤ r.2) (get_runs T) ∧
  sum_nat ((get_runs T).*2) = length T ∧
  expand_runs (get_runs T) = T.
Proof.
  assert (alternating (get_runs T) ∧ Forall (λ r, 1 ≤ r.2) (get_runs T) ∧
          expand_runs (get_runs T) = T) as (Halt & Hlen & Hexp).
  { destruct T as [|first rest]; simpl.
    - split_and!; [|done..]. by intros i r1 r2 ?.
    - pose proof (get_runs_inv first rest) as Hinv.
      destruct (foldl get_runs_step ([], first, 1) rest) as [[runs cv] cl].
      by destruct Hinv as (? & ? & ?). }
  split_and!; [done..| |done].
  by rewrite <-expand_runs_length, Hexp.
Qed.

(** ** The prediction errors and the transition stream *)

Section runs_fmap.
Context {A B : Type} `{EqDecision A} `{EqDecision B}.
Context (f : A → B) (P : A → Prop).
Hypothesis f_inj : ∀ x y, P x → P y → f x = f y → x = y.

Lemma get_runs_step_fmap (st : list (Run A) * A * nat) (bit : A) :
  P st.1.2 → P bit →
  get_runs_step (map_state f st) (f bit) = map_state f (get_runs_step st bit).
Proof.
  destruct st as [[runs cv] cl]. simpl. intros Hcv Hbit.
  destruct (decide (bit = cv)) as [->|Hne].
  - by rewrite decide_True.
  - rewrite decide_False by (intros ?; apply Hne; auto).
    simpl. by rewrite fmap_app.
Qed.

Lemma get_runs_step_value (st : list (Run A) * A * nat) (bit : A) :
  (get_runs_step st bit).1.2 = bit ∨ (get_runs_step st bit).1.2 = st.1.2.
Proof.
  destruct st as [[runs cv] cl]. simpl. case_decide; simpl; auto.
Qed.

Lemma get_runs_loop_fmap (rest : list A) (st : list (Run A) * A * nat) :
  P st.1.2 → Forall P rest →
  foldl get_runs_step (map_state f st) (f <$> rest)
    = map_state f (foldl get_runs_step st rest).
Proof.
  revert st. induction rest as [|bit rest IH]; intros st Hst Hrest; [done|].
  apply Forall_cons in Hrest as [Hbit Hrest]. simpl.
  rewrite get_runs_step_fmap by done. apply IH; [|done].
  by destruct (get_runs_step_value st bit) as [-> | ->].
Qed.

Lemma get_runs_fmap (stream : list A) :
  Forall P stream →
  get_runs (f <$> stream) = prod_map f id <$> get_runs stream.
Proof.
  destruct stream as [|first rest]; [done|].
  intros [Hfirst Hrest]%Forall_cons. simpl.
  change ([], f first, 1) with (map_state f ([], first, 1)).
  rewrite get_runs_loop_fmap by done.
  destruct (foldl get_runs_step ([], first, 1) rest) as [[runs cv] cl].
  simpl. by rewrite fmap_app.
Qed.
End runs_fmap.

Lemma prediction_errors_complement (transitions : list Z) :
  Forall (λ t, t = 0 ∨ t = 1)%Z transitions →
  prediction_errors transitions = (λ t, 1 - t)%Z <$> transitions.
Proof.
  intros Hbits. unfold prediction_errors.
  apply Forall_fmap_ext_1. eapply Forall_impl; [done|].
  intros t [-> | ->]; by simpl.
Qed.

Lemma to_bits_length (flips : string) :
  length (to_bits flips) = String.length flips.
Proof. unfold to_bits. by rewrite length_fmap, string_length_list. Qed.

(** C10. For flips of length at least 2, [prediction_encode] succeeds, its
    error stream is the transition stream of the same bits with every
    element complemented (0 for 1 and 1 for 0), and so the runs of the
    error stream are the runs of the transition stream with the same
    lengths in the same order and the complemented values. *)
Theorem prediction_errors_spec (flips : string) :
  2 ≤ String.length flips →
  ∃ errors stats,
    prediction_encode flips = Ok (errors, stats) ∧
    Forall (λ t, t = 0 ∨ t = 1)%Z (get_transitions (to_bits flips)) ∧
    errors = (λ t, 1 - t)%Z <$> get_transitions (to_bits flips) ∧
    run_length_encode errors
      = prod_map (λ v, 1 - v)%Z id
          <$> run_length_encode (get_transitions (to_bits flips)).
Proof.
  intros Hn. unfold prediction_encode.
  pose proof (to_bits_length flips) as Hlen.
  destruct (getitem_lt (to_bits flips) 0) as (first_bit & -> & _); [lia|].
  pose proof (transition_stream_bits (to_bits flips)) as Hbits.
  pose proof (transition_stream_length (to_bits flips)) as Htl.
  fold (get_transitions (to_bits flips)) in Hbits, Htl.
  pose proof (prediction_errors_complement _ Hbits) as Herr.
  simpl.
  destruct (prediction_errors (get_transitions (to_bits flips))) as [|e errors] eqn:He.
  { apply (f_equal length) in Herr. rewrite length_fmap in Herr.
    simpl in Herr. lia. }
  unfold int_truediv. rewrite decide_False by (simpl; lia). simpl.
  eexists _, _. split_and!; [done..|].
  rewrite Herr. unfold run_length_encode.
  apply (get_runs_fmap _ (λ t, t = 0 ∨ t = 1)%Z); [|done].
  intros x y [-> | ->] [-> | ->]; done.
Qed.

Lemma prediction_errors_spec_witness :
  ∃ errors stats,
    prediction_encode "HTTH" = Ok (errors, stats) ∧
    Forall (λ t, t = 0 ∨ t = 1)%Z (get_transitions (to_bits "HTTH")) ∧
    errors = (λ t, 1 - t)%Z <$> get_transitions (to_bits "HTTH") ∧
    run_length_encode errors
      = prod_map (λ v, 1 - v)%Z id
          <$> run_length_encode (get_transitions (to_bits "HTTH")).
Proof. apply (prediction_errors_spec "HTTH"). simpl. lia. Defined.

(** On flips that are all ['H'] or ['T'], the transition stream of the
    bits is the transition stream of the flips, so the comparison is with
    the stream the other scripts work on. *)
Lemma get_transitions_to_bits (flips : string) :
  Forall (λ c, c = "H" ∨ c = "T")%char (String.list_ascii_of_string flips) →
  get_transitions (to_bits flips) = to_transitions flips.
Proof.
  intros Hht. unfold get_transitions, to_transitions, to_bits, transition_stream.
  rewrite length_fmap. apply list_fmap_ext. intros k i Hk.
  apply lookup_seq in Hk as [-> Hk]. simpl. rewrite Nat.sub_0_r.
  rewrite !list_lookup_fmap.
  destruct (lookup_lt_is_Some_2 (String.list_ascii_of_string flips) (S k))
    as [b Hb]; [lia|].
  destruct (lookup_lt_is_Some_2 (String.list_ascii_of_string flips) k)
    as [a Ha]; [lia|].
  rewrite Ha, Hb. simpl.
  assert (a = "H" ∨ a = "T")%char as Ha'
    by (eapply Forall_lookup_1 in Ha; [exact Ha|exact Hht]).
  assert (b = "H" ∨ b = "T")%char as Hb'
    by (eapply Forall_lookup_1 in Hb; [exact Hb|exact Hht]).
  destruct Ha' as [-> | ->], Hb' as [-> | ->]; done.
Qed.

(** ** Grouping *)

Section group_loop_facts.
Context (k : nat) (item : nat → result (list nat)) (vals : list nat).
Hypothesis k_pos : 1 ≤ k.
Hypothesis item_ok :
  ∀ i, i + k ≤ length vals → item i = Ok (take k (drop i vals)).

(** From position [i] on, the loop appends the [(len - i) / k] groups of
    [k] lengths that follow, and stops by its own test. *)
Lemma group_loop_spec fuel i groups :
  length vals - i ≤ fuel →
  ∃ gs, group_loop k item (length vals) fuel i groups = Ok (groups ++ gs) ∧
    length gs = (length vals - i) / k ∧
    Forall (λ g, length g = k) gs ∧
    concat gs = take (k * ((length vals - i) / k)) (drop i vals).
Proof.
  revert i groups. induction fuel as [|fuel IH]; intros i groups Hfuel.
  - exists []. simpl. rewrite decide_False by lia.
    rewrite Nat.div_small by lia. rewrite Nat.mul_0_r, app_nil_r. by simpl.
  - simpl. destruct (decide (Z.of_nat i < Z.of_nat (length vals) - (Z.of_nat k - 1))%Z)
      as [Hlt|Hge].
    + rewrite item_ok by lia. simpl.
      destruct (IH (i + k) (groups ++ [take k (drop i vals)])) as (gs & -> & Hn & Hk & Hcat);
        [lia|].
      exists (take k (drop i vals) :: gs).
      assert ((length vals - i) / k = S ((length vals - (i + k)) / k)) as ->.
      { replace (length vals - i) with (1 * k + (length vals - (i + k))) by lia.
        rewrite Nat.div_add_l by lia. lia. }
      split_and!.
      * by rewrite <-(assoc_L (++)).
      * simpl. by rewrite Hn.
      * apply Forall_cons. split; [|done].
        rewrite length_take, length_drop. lia.
      * simpl. rewrite Hcat. rewrite <-drop_drop, Nat.mul_succ_r.
        rewrite take_take_drop. f_equal. lia.
    + exists []. rewrite Nat.div_small by lia.
      rewrite Nat.mul_0_r, app_nil_r. by simpl.
Qed.
End group_loop_facts.

Section grouping_facts.
Context {A : Type}.
Implicit Types runs : list (Run A).

Lemma take_drop_cons {X} (l : list X) (i n : nat) (x : X) :
  l !! i = Some x → take (S n) (drop i l) = x :: take n (drop (S i) l).
Proof. intros Hx. by rewrite (drop_S l x i Hx). Qed.

Lemma lengths_lookup runs i :
  i < length runs → ∃ r, getitem runs i = Ok r ∧ runs.*2 !! i = Some r.2.
Proof.
  intros (r & -> & Hr)%getitem_lt. exists r. split; [done|].
  by rewrite list_lookup_fmap, Hr.
Qed.

Lemma pair_at_ok runs i :
  i + 2 ≤ length runs.*2 → pair_at runs i = Ok (take 2 (drop i runs.*2)).
Proof.
  rewrite length_fmap. intros Hi. unfold pair_at.
  destruct (lengths_lookup runs i) as (r0 & -> & H0); [lia|].
  destruct (lengths_lookup runs (i + 1)) as (r1 & -> & H1); [lia|].
  simpl. rewrite Nat.add_1_r in H1.
  by rewrite (take_drop_cons _ _ _ _ H0), (take_drop_cons _ _ _ _ H1).
Qed.

Lemma triple_at_ok runs i :
  i + 3 ≤ length runs.*2 → triple_at runs i = Ok (take 3 (drop i runs.*2)).
Proof.
  rewrite length_fmap. intros Hi. unfold triple_at.
  destruct (lengths_lookup runs i) as (r0 & -> & H0); [lia|].
  destruct (lengths_lookup runs (i + 1)) as (r1 & -> & H1); [lia|].
  destruct (lengths_lookup runs (i + 2)) as (r2 & -> & H2); [lia|].
  simpl. rewrite Nat.add_1_r in H1.
  replace (i + 2) with (S (S i)) in H2 by lia.
  by rewrite (take_drop_cons _ _ _ _ H0), (take_drop_cons _ _ _ _ H1),
    (take_drop_cons _ _ _ _ H2).
Qed.

Lemma quad_at_ok runs i :
  i + 4 ≤ length runs.*2 → quad_at runs i = Ok (take 4 (drop i runs.*2)).
Proof.
  rewrite length_fmap. intros Hi. unfold quad_at.
  destruct (lengths_lookup runs i) as (r0 & -> & H0); [lia|].
  destruct (lengths_lookup runs (i + 1)) as (r1 & -> & H1); [lia|].
  destruct (lengths_lookup runs (i + 2)) as (r2 & -> & H2); [lia|].
  destruct (lengths_lookup runs (i + 3)) as (r3 & -> & H3); [lia|].
  simpl. rewrite Nat.add_1_r in H1.
  replace (i + 2) with (S (S i)) in H2 by lia.
  replace (i + 3) with (S (S (S i))) in H3 by lia.
  by rewrite (take_drop_cons _ _ _ _ H0), (take_drop_cons _ _ _ _ H1),
    (take_drop_cons _ _ _ _ H2), (take_drop_cons _ _ _ _ H3).
Qed.

Lemma slice_at_ok k runs i :
  slice_at k runs i = Ok (take k (drop i runs.*2)).
Proof. unfold slice_at. by rewrite fmap_take, fmap_drop. Qed.

(** The groups of a whole list of runs. *)
Lemma group_loop_runs k item runs :
  1 ≤ k →
  (∀ i, i + k ≤ length runs.*2 → item i = Ok (take k (drop i runs.*2))) →
  ∃ gs, group_loop k item (length runs) (length runs) 0 [] = Ok gs ∧
    length gs = length runs / k ∧
    Forall (λ g, length g = k) gs ∧
    concat gs = take (length runs - length runs `mod` k) runs.*2.
Proof.
  intros Hk Hitem.
  destruct (group_loop_spec k item runs.*2 Hk Hitem (length runs) 0 [])
    as (gs & Hloop & Hn & Hlen & Hcat); [rewrite length_fmap; lia|].
  rewrite length_fmap, Nat.sub_0_r in *. exists gs. split_and!; [done..|].
  rewrite Hcat. simpl. f_equal.
  pose proof (Nat.div_mod (length runs) k). lia.
Qed.

Lemma leftover_runs_spec k runs :
  leftover_runs k runs = drop (length runs - length runs `mod` k) runs.
Proof.
  unfold leftover_runs. case_decide as Hmod; [done|].
  rewrite Hmod, Nat.sub_0_r. by rewrite drop_all.
Qed.

Lemma tupled_runs_spec k item runs :
  1 ≤ k →
  (∀ i, i + k ≤ length runs.*2 → item runs i = Ok (take k (drop i runs.*2))) →
  ∃ tuples, tupled_runs k item runs
      = Ok (tuples, drop (length runs - length runs `mod` k) runs) ∧
    length tuples = length runs / k ∧
    Forall (λ t, length t = k) tuples ∧
    concat tuples = take (length runs - length runs `mod` k) runs.*2.
Proof.
  intros Hk Hitem. unfold tupled_runs.
  destruct (group_loop_runs k (item runs) runs Hk Hitem) as (gs & -> & ?).
  exists gs. simpl. by rewrite leftover_runs_spec.
Qed.

Lemma paired_runs_spec runs :
  ∃ pairs leftover, paired_runs runs = Ok (pairs, leftover) ∧
    option_list leftover = drop (length runs - length runs `mod` 2) runs ∧
    length pairs = length runs / 2 ∧
    Forall (λ t, length t = 2) pairs ∧
    concat pairs = take (length runs - length runs `mod` 2) runs.*2.
Proof.
  unfold paired_runs.
  destruct (group_loop_runs 2 (pair_at runs) runs) as (gs & -> & Hn & Hlen & Hcat);
    [lia|apply pair_at_ok|].
  rewrite bind_Ok_l. pose proof (Nat.mod_upper_bound (length runs) 2).
  destruct (decide (length runs `mod` 2 = 1)) as [Hodd|Heven].
  - destruct (getitem_lt runs (length runs - 1)) as (r & -> & Hr).
    { pose proof (Nat.div_mod (length runs) 2). lia. }
    rewrite fmap_Ok_l, bind_Ok_l. eexists _, _. split_and!; [done| |done..].
    rewrite Hodd. cbn [option_list]. rewrite (drop_S _ _ _ Hr).
    rewrite drop_ge; [done|]. lia.
  - rewrite bind_Ok_l. eexists _, _. split_and!; [done| |done..].
    replace (length runs `mod` 2) with 0 by lia.
    rewrite Nat.sub_0_r. by rewrite drop_all.
Qed.
End grouping_facts.

(** C4. At every group size [k] from 2 to 6, [analyze_sequence] groups
    [count] runs into [count / k] tuples of [k] run lengths and leaves the
    last [count mod k] runs over; the lengths in the tuples, in order,
    followed by the lengths of the runs left over are the run lengths of
    the input, in order. *)
Theorem grouping_spec {A : Type} (runs : list (Run A)) (k : nat) :
  2 ≤ k ≤ 6 →
  ∃ tuples leftover,
    grouping k runs = Some (Ok (tuples, leftover)) ∧
    length tuples = length runs / k ∧
    Forall (λ t, length t = k) tuples ∧
    length leftover = length runs `mod` k ∧
    leftover = drop (length runs - length runs `mod` k) runs ∧
    concat tuples ++ leftover.*2 = runs.*2.
Proof.
  intros Hk.
  assert (∃ tuples,
    grouping k runs
      = Some (Ok (tuples, drop (length runs - length runs `mod` k) runs)) ∧
    length tuples = length runs / k ∧
    Forall (λ t, length t = k) tuples ∧
    concat tuples = take (length runs - length runs `mod` k) runs.*2)
    as (tuples & Hg & Hn & Hlen & Hcat).
  { destruct k as [|[|[|[|[|[|[|k]]]]]]]; try lia; simpl.
    - destruct (paired_runs_spec runs) as (pairs & leftover & -> & Hleft & ?).
      exists pairs. simpl. by rewrite Hleft.
    - destruct (tupled_runs_spec 3 triple_at runs) as (ts & Hts & ?);
        [lia|apply triple_at_ok|].
      exists ts. unfold triple_runs. by rewrite Hts.
    - destruct (tupled_runs_spec 4 quad_at runs) as (ts & Hts & ?);
        [lia|apply quad_at_ok|].
      exists ts. unfold quad_runs. by rewrite Hts.
    - destruct (tupled_runs_spec 5 (slice_at 5) runs) as (ts & Hts & ?);
        [lia|intros; apply slice_at_ok|].
      exists ts. unfold quintuple_runs. by rewrite Hts.
    - destruct (tupled_runs_spec 6 (slice_at 6) runs) as (ts & Hts & ?);
        [lia|intros; apply slice_at_ok|].
      exists ts. unfold sextuple_runs. by rewrite Hts. }
  eexists _, _. split_and!; [done..| |done|].
  - rewrite length_drop. pose proof (Nat.div_mod (length runs) k).
    pose proof (Nat.mod_upper_bound (length runs) k). 
    assert (length runs `mod` k ≤ length runs) by (apply Nat.Div0.mod_le).
    lia.
  - rewrite Hcat, fmap_drop. apply take_drop.
Qed.

Lemma grouping_spec_witness :
  ∃ tuples leftover,
    grouping 3 [(1%Z, 4); (0%Z, 1); (1%Z, 2); (0%Z, 2); (1%Z, 5)]
      = Some (Ok (tuples, leftover)) ∧
    tuples = [[4; 1; 2]] ∧ leftover = [(0%Z, 2); (1%Z, 5)].
Proof.
  destruct (grouping_spec [(1%Z, 4); (0%Z, 1); (1%Z, 2); (0%Z, 2); (1%Z, 5)] 3)
    as (tuples & leftover & Hg & _); [lia|].
  exists tuples, leftover. split; [exact Hg|].
  vm_compute in Hg. by injection Hg as <- <-.
Defined.

(** ** Strings as lists of characters *)

Lemma chars_inj (s1 s2 : string) : chars s1 = chars s2 → s1 = s2.
Proof.
  intros Heq. rewrite <-(String.string_of_list_ascii_of_string s1),
    <-(String.string_of_list_ascii_of_string s2). by rewrite Heq.
Qed.

Lemma chars_app (s1 s2 : string) : chars (s1 +:+ s2) = chars s1 ++ chars s2.
Proof. induction s1 as [|c s1 IH]; [done|]. simpl. by rewrite <-IH. Qed.

Lemma str_app_assoc (s1 s2 s3 : string) :
  (s1 +:+ s2) +:+ s3 = s1 +:+ s2 +:+ s3.
Proof. apply chars_inj. by rewrite !chars_app, (assoc_L (++)). Qed.

Lemma str_app_nil_r (s : string) : s +:+ "" = s.
Proof. apply chars_inj. by rewrite chars_app, app_nil_r. Qed.

Lemma chars_of_list (l : list ascii) : chars (String.string_of_list_ascii l) = l.
Proof. apply String.list_ascii_of_string_of_list_ascii. Qed.

Lemma chars_concat (l : list string) : chars (String.concat "" l) = l ≫= chars.
Proof.
  induction l as [|s l IH]; [done|].
  destruct l as [|s' l].
  - simpl. by rewrite app_nil_r.
  - change (String.concat "" (s :: s' :: l))
      with (s +:+ "" +:+ String.concat "" (s' :: l)).
    rewrite !chars_app, IH. done.
Qed.

Lemma chars_str_repeat (c : ascii) (n : Z) :
  chars (str_repeat (String c "") n) = replicate (Z.to_nat n) c.
Proof.
  unfold str_repeat. rewrite chars_concat.
  induction (Z.to_nat n) as [|k IH]; [done|].
  cbn [replicate]. rewrite bind_cons, IH. done.
Qed.

Lemma string_length_chars (s : string) : String.length s = length (chars s).
Proof. by rewrite string_length_list. Qed.

(** ** The Golomb code *)

Lemma chars_fixed_width (w : nat) (r : Z) : chars (fixed_width w r) = msb_bits w r.
Proof. apply chars_of_list. Qed.

Lemma msb_bits_length (w : nat) (r : Z) : length (msb_bits w r) = w.
Proof. unfold msb_bits. by rewrite length_fmap, length_reverse, length_seq. Qed.

Lemma msb_bits_S (w : nat) (r : Z) :
  msb_bits (S w) r
    = msb_bits w (r `div` 2) ++ [if Z.testbit r 0 then "1"%char else "0"%char].
Proof.
  unfold msb_bits. rewrite <-cons_seq, reverse_cons, fmap_app. f_equal.
  rewrite <-fmap_S_seq, <-fmap_reverse, <-list_fmap_compose.
  apply list_fmap_ext. intros _ i _. cbn [compose].
  rewrite Z.div2_bits by lia.
  by rewrite Nat2Z.inj_succ.
Qed.

Lemma msb_bits_0 (w : nat) : msb_bits w 0 = replicate w "0"%char.
Proof.
  unfold msb_bits. rewrite (const_fmap _ _ "0"%char).
  - by rewrite length_reverse, length_seq.
  - intros i x _. by rewrite Z.bits_0.
Qed.

(** The binary digits of [p], padded to [w] characters, are its [w] low
    bits when it has no more than [w] bits. *)
Lemma bin_pos_padded (p : positive) (w : nat) :
  (Zpos p < 2 ^ Z.of_nat w)%Z →
  length (chars (bin_pos p)) ≤ w ∧
  replicate (w - length (chars (bin_pos p))) "0"%char ++ chars (bin_pos p)
    = msb_bits w (Zpos p).
Proof.
  revert w. induction p as [p IH|p IH|]; intros w Hp.
  - destruct w as [|w]; [simpl in Hp; lia|].
    rewrite Nat2Z.inj_succ, Z.pow_succ_r in Hp by lia.
    destruct (IH w) as [Hlen Heq]; [lia|].
    cbn [bin_pos]. rewrite chars_app, length_app, msb_bits_S. simpl length.
    split; [lia|].
    replace (Z.pos p~1 `div` 2)%Z with (Z.pos p) by (apply (Z.div_unique _ 2 _ 1); lia).
    rewrite <-Heq, <-(assoc_L (++)). simpl.
    by replace (S w - (length (chars (bin_pos p)) + 1))
      with (w - length (chars (bin_pos p))) by lia.
  - destruct w as [|w]; [simpl in Hp; lia|].
    rewrite Nat2Z.inj_succ, Z.pow_succ_r in Hp by lia.
    destruct (IH w) as [Hlen Heq]; [lia|].
    cbn [bin_pos]. rewrite chars_app, length_app, msb_bits_S. simpl length.
    split; [lia|].
    replace (Z.pos p~0 `div` 2)%Z with (Z.pos p) by (apply (Z.div_unique _ 2 _ 0); lia).
    rewrite <-Heq, <-(assoc_L (++)). simpl.
    by replace (S w - (length (chars (bin_pos p)) + 1))
      with (w - length (chars (bin_pos p))) by lia.
  - destruct w as [|w]; [simpl in Hp; lia|].
    simpl. split; [lia|].
    rewrite msb_bits_S, Nat.sub_0_r. simpl. by rewrite msb_bits_0.
Qed.

(** [format(r, '0{w}b')] writes [r] in exactly [w] bits when [r] fits. *)
Lemma format_0b_fixed_width (r : Z) (w : nat) :
  (0 ≤ r < 2 ^ Z.of_nat w)%Z → 1 ≤ w →
  format_0b r (Z.of_nat w) = fixed_width w r.
Proof.
  intros [Hr0 Hrw] Hw. apply chars_inj.
  unfold format_0b. rewrite decide_False by lia.
  rewrite !chars_app, chars_str_repeat, chars_fixed_width. simpl.
  rewrite Z.sub_0_r.
  destruct r as [|p|p]; [|..|lia].
  - simpl. rewrite msb_bits_0.
    destruct w as [|w]; [lia|].
    replace (Z.to_nat (Z.of_nat (S w) - Z.of_nat 1)) with w by lia.
    by rewrite <-replicate_S_end.
  - destruct (bin_pos_padded p w Hrw) as [Hlen Heq]. rewrite <-Heq. f_equal.
    rewrite string_length_chars. f_equal. lia.
Qed.

(** The width of the remainder field holds every remainder when it is
    the exact [ceil(log2 m)]; for [m = 1] the guard [if m > 1 else 1]
    makes it 1. *)
Lemma golomb_width_exact (log2 : float → float) (m : Z) :
  (1 ≤ m)%Z → ((2 ≤ m)%Z → ceil_log2 log2 m = Z.log2_up m) →
  (m ≤ 2 ^ golomb_width log2 m)%Z.
Proof.
  intros Hm Hexact. unfold golomb_width. case_decide as Hm1.
  - rewrite Hexact by lia. by apply Z.log2_up_spec.
  - assert (m = 1)%Z as -> by lia. done.
Qed.

(** A field that holds every remainder has at least one bit. *)
Lemma golomb_width_pos (log2 : float → float) (m : Z) :
  (1 ≤ m)%Z → (m ≤ 2 ^ golomb_width log2 m)%Z → (1 ≤ golomb_width log2 m)%Z.
Proof.
  intros Hm Hfits. destruct (decide (1 ≤ golomb_width log2 m)%Z) as [|Hsmall]; [done|].
  unfold golomb_width in *. case_decide as Hm1; [|lia].
  destruct (decide (ceil_log2 log2 m = 0)%Z) as [H0|H0].
  - rewrite H0 in Hfits. simpl in Hfits. lia.
  - rewrite Z.pow_neg_r in Hfits by lia. lia.
Qed.

(** The codeword when the field of the computed width holds every
    remainder. *)
Lemma golomb_spec (log2 : float → float) (length m : Z) :
  (1 ≤ length)%Z → (1 ≤ m)%Z → (m ≤ 2 ^ golomb_width log2 m)%Z →
  ∃ code, encode_run_length_golomb log2 length m = Ok code ∧
    golomb_codeword length m (golomb_width log2 m) code.
Proof.
  intros Hl Hm Hb2. unfold encode_run_length_golomb.
  rewrite decide_False by lia. eexists. split; [done|].
  pose proof (golomb_width_pos log2 m Hm Hb2) as Hb1.
  change (if decide (1 < m)%Z then ceil_log2 log2 m else 1%Z)
    with (golomb_width log2 m).
  set (b := golomb_width log2 m) in *.
  set (q := ((length - 1) `div` m)%Z).
  set (r := ((length - 1) `mod` m)%Z).
  assert (0 ≤ q)%Z by (apply Z.div_pos; lia).
  assert (0 ≤ r < m)%Z as Hr by (apply Z.mod_pos_bound; lia).
  assert (format_0b r b = fixed_width (Z.to_nat b) r) as Hfmt.
  { rewrite <-(Z2Nat.id b) at 1 by lia.
    apply format_0b_fixed_width; [|lia]. rewrite Z2Nat.id by lia. lia. }
  unfold golomb_codeword. fold q r. rewrite Hfmt.
  split; [by rewrite str_app_assoc|].
  rewrite string_length_chars, !chars_app, chars_fixed_width, chars_str_repeat.
  rewrite !length_app, length_replicate, msb_bits_length. simpl. lia.
Qed.

(** [math.log2(2)] is 1, and so the field is 1 bit wide for [m = 2]. *)
Lemma golomb_width_2 (log2 : float → float) :
  log2 2%float = 1%float → golomb_width log2 2 = 1%Z.
Proof.
  intros Hlog2. unfold golomb_width, ceil_log2, log2_of_int.
  change (float_of_int 2) with 2%float.
  change (is_infinity 2) with false. cbv iota. rewrite Hlog2. reflexivity.
Qed.

(** C5, amended.  For every run length [l >= 1] and divisor [m >= 2] at
    which [int(math.ceil(math.log2(m)))] is the exact [ceil(log2 m)], the
    codeword is [q = (l-1) div m] ones, a zero, and [r = (l-1) mod m] in
    a field of [ceil(log2 m)] bits, [q + 1 + ceil(log2 m)] characters in
    all; for [m = 1] the field is 1 bit wide and the codeword has [q + 2]
    characters. *)
Theorem encode_run_length_golomb_spec (log2 : float → float) (length m : Z) :
  (1 ≤ length)%Z → (1 ≤ m)%Z →
  ((2 ≤ m)%Z → ceil_log2 log2 m = Z.log2_up m) →
  ∃ code, encode_run_length_golomb log2 length m = Ok code ∧
    ((2 ≤ m)%Z → golomb_codeword length m (Z.log2_up m) code) ∧
    (m = 1%Z → golomb_codeword length m 1 code).
Proof.
  intros Hl Hm Hexact.
  destruct (golomb_spec log2 length m Hl Hm (golomb_width_exact log2 m Hm Hexact))
    as (code & Hcode & Hspec).
  exists code. split; [done|]. unfold golomb_width in Hspec. split.
  - intros Hm2. rewrite decide_True in Hspec by lia. by rewrite <-Hexact.
  - intros ->. by rewrite decide_False in Hspec by lia.
Qed.

Lemma encode_run_length_golomb_spec_witness :
  ∃ code, encode_run_length_golomb (λ _, 0x1.95c01a39fbd68p+0%float) 7 3 = Ok code ∧
    ((2 ≤ 3)%Z → golomb_codeword 7 3 (Z.log2_up 3) code) ∧
    (3%Z = 1%Z → golomb_codeword 7 3 1 code).
Proof.
  apply (encode_run_length_golomb_spec (λ _, 0x1.95c01a39fbd68p+0%float) 7 3);
    [lia|lia|intros _; reflexivity].
Defined.

(** C5 as stated fails in two ways.  At [m = 1] the run length 1 is
    encoded as "00", two characters, where [q + 1 + ceil(log2 1)] is 1.
    At [m = 2^49 + 1] the binary64 logarithm of [m] is 49.0 (the float
    nearest to [49 + 2.6e-15]), the field has 49 bits and the codeword of
    the run length 1 has 50 characters, where [ceil(log2 m)] is 50 and
    [q + 1 + ceil(log2 m)] is 51. *)
Lemma encode_run_length_golomb_counterexample :
  (∀ log2 : float → float,
     encode_run_length_golomb log2 1 1 = Ok "00" ∧
     ¬ golomb_codeword 1 1 (Z.log2_up 1) "00") ∧
  (∀ log2 : float → float,
     log2 (float_of_int (2 ^ 49 + 1)) = 49%float →
     ∃ code, encode_run_length_golomb log2 1 (2 ^ 49 + 1) = Ok code ∧
       String.length code = 50 ∧
       ¬ golomb_codeword 1 (2 ^ 49 + 1) (Z.log2_up (2 ^ 49 + 1)) code).
Proof.
  split.
  - intros log2. split; [reflexivity|]. intros [_ Hlen]. by vm_compute in Hlen.
  - intros log2 Hlog2.
    assert (ceil_log2 log2 (2 ^ 49 + 1) = 49%Z) as Hwidth.
    { unfold ceil_log2, log2_of_int.
      change (is_infinity (float_of_int (2 ^ 49 + 1))) with false. cbv iota.
      rewrite Hlog2. reflexivity. }
    unfold encode_run_length_golomb.
    rewrite decide_False, decide_True, Hwidth by done.
    eexists. split; [reflexivity|]. split; [by vm_compute|].
    intros [_ Hlen]. by vm_compute in Hlen.
Qed.

(** The examples of the docstring for [m = 2]. *)
Lemma encode_run_length_golomb_examples (log2 : float → float) :
  log2 2%float = 1%float →
  encode_run_length_golomb log2 1 2 = Ok "00" ∧
  encode_run_length_golomb log2 2 2 = Ok "01" ∧
  encode_run_length_golomb log2 3 2 = Ok "100" ∧
  encode_run_length_golomb log2 4 2 = Ok "101" ∧
  encode_run_length_golomb log2 5 2 = Ok "1100".
Proof.
  intros Hlog2. unfold encode_run_length_golomb.
  change (if decide (1 < 2)%Z then ceil_log2 log2 2 else 1%Z)
    with (golomb_width log2 2).
  rewrite (golomb_width_2 log2 Hlog2). by vm_compute.
Qed.

(** ** The concrete scenarios *)

(** C6. On "HTHT" the transition stream is [1,1,1], there is the one run
    (1, 3), the only run length gets the code "0", and
    [analyze_compression] counts 1 + 1 + 1 = 3 bits, a ratio of 0.75 and
    25% of savings; on "HHHH" the stream is [0,0,0], the run is (0, 3),
    and the bit counts, the ratio and the savings are the same. *)
Theorem scenario_HTHT_HHHH (log2 : float → float) :
  to_transitions "HTHT" = [1; 1; 1]%Z ∧
  get_runs (to_transitions "HTHT") = [(1%Z, 3)] ∧
  to_transitions "HHHH" = [0; 0; 0]%Z ∧
  get_runs (to_transitions "HHHH") = [(0%Z, 3)] ∧
  ∃ a b,
    analyze_compression log2 "HTHT" = Ok a ∧
    analyze_compression log2 "HHHH" = Ok b ∧
    cr_run_codes a = [(3, "0")] ∧
    cr_encoded a = 1 + 1 + String.length "0" ∧
    cr_encoded a = 3 ∧
    cr_original a = 4 ∧
    cr_ratio a = 0.75%float ∧
    cr_savings a = 25%float ∧
    cr_run_codes b = cr_run_codes a ∧
    cr_encoded b = cr_encoded a ∧
    cr_original b = cr_original a ∧
    cr_ratio b = cr_ratio a ∧
    cr_savings b = cr_savings a.
Proof.
  split_and!; [reflexivity..|].
  eexists _, _. split; [vm_compute; reflexivity|].
  split; [vm_compute; reflexivity|].
  split_and!; reflexivity.
Qed.

(** The same input in [analyze_sequence]: every method counts 3 bits. *)
Lemma scenario_HTHT_analyze_sequence :
  ∃ a b,
    analyze_sequence "HTHT" = Ok a ∧ analyze_sequence "HHHH" = Ok b ∧
    mr_bits (sr_separate a) = 3 ∧ mr_ratio (sr_separate a) = 0.75%float ∧
    mr_bits (sr_separate b) = 3 ∧ mr_ratio (sr_separate b) = 0.75%float.
Proof.
  eexists _, _. split; [vm_compute; reflexivity|].
  split; [vm_compute; reflexivity|]. split_and!; reflexivity.
Qed.

(** ** Flips too short to have a transition *)

Lemma to_transitions_short (flips : string) :
  String.length flips ≤ 1 → to_transitions flips = [].
Proof.
  intros Hn. apply transition_stream_short. by rewrite string_length_list.
Qed.

(** With at most one flip, [analyze_compression] and [analyze_sequence]
    stop at the division by the length of the transition stream. *)
Lemma analyses_short_raise (log2 : float → float) (flips : string) :
  String.length flips ≤ 1 →
  analyze_compression log2 flips = Raise ZeroDivisionError ∧
  analyze_sequence flips = Raise ZeroDivisionError.
Proof.
  intros Hn. unfold analyze_compression, analyze_sequence.
  by rewrite (to_transitions_short flips Hn).
Qed.

(** C7, at the input "H".  The transition stream is empty, and both
    [analyze_compression] and [analyze_sequence] raise a
    [ZeroDivisionError] on it, while [compress_sequence], which guards its
    divisions by [if errors else ...], returns a result. *)
Theorem analyses_single_flip (log2 : float → float) :
  to_transitions "H" = [] ∧
  analyze_compression log2 "H" = Raise ZeroDivisionError ∧
  analyze_sequence "H" = Raise ZeroDivisionError ∧
  ∃ r, compress_sequence log2 "H" true 2 = Ok r ∧
    cs_error_stream r = [] ∧ cs_runs r = [] ∧ cs_compressed_bits r = 2.
Proof.
  split_and!; [reflexivity..|].
  eexists. split; [vm_compute; reflexivity|]. split_and!; reflexivity.
Qed.

(** With no flip at all, [compress_sequence] fails as well, at [bits[0]]. *)
Lemma compress_sequence_empty (log2 : float → float) (use_golomb : bool) (m : Z) :
  compress_sequence log2 "" use_golomb m = Raise IndexError.
Proof. reflexivity. Qed.

(** ** The empty frequency table *)

(** C8, amended.  On a frequency table without symbols nothing fails:
    [build_huffman_codes] returns the empty code table, and
    [build_huffman_tree] returns [None]. *)
Theorem build_huffman_empty {Sym : Type} `{EqDecision Sym} :
  build_huffman_codes (Sym:=Sym) [] = Ok [] ∧
  build_huffman_tree (Sym:=Sym) [] = Ok None.
Proof. split; reflexivity. Qed.

(** C8 as stated fails: on the empty table of run lengths neither
    function ends in a failure of any kind. *)
Lemma build_huffman_empty_counterexample :
  ¬ (∃ e, build_huffman_codes (Sym:=nat) [] = Raise e) ∧
  ¬ (∃ e, build_huffman_tree (Sym:=nat) [] = Raise e).
Proof. split; by intros [e ?]. Qed.

(** ** The heap operations keep the elements *)

Section list_update_facts.
Context {A : Type}.
Implicit Types l : list A.

Lemma insert_cons_perm l j x b :
  l !! j = Some b → b :: <[j:=x]> l ≡ₚ x :: l.
Proof.
  revert j. induction l as [|y l IH]; intros [|j] Hj; simplify_eq/=.
  - apply perm_swap.
  - rewrite perm_swap. rewrite (IH j Hj). apply perm_swap.
Qed.

(** Exchanging two elements of a list permutes it. *)
Lemma swap_perm l i j a b :
  l !! i = Some a → l !! j = Some b → <[i:=b]> (<[j:=a]> l) ≡ₚ l.
Proof.
  revert i j. induction l as [|y l IH]; intros [|i] [|j] Hi Hj; simplify_eq/=.
  - done.
  - by apply insert_cons_perm.
  - by apply insert_cons_perm.
  - f_equiv. by apply IH.
Qed.

(** A list with a hole at [i], to be filled with [x]: moving the element
    at [j] into the hole leaves the hole at [j]. *)
Lemma move_hole l i j x c :
  i ≠ j → i < length l → l !! j = Some c →
  <[j:=x]> (<[i:=c]> l) ≡ₚ <[i:=x]> l.
Proof.
  intros Hij Hi Hj.
  assert (<[i:=c]> (<[j:=x]> (<[i:=x]> l)) = <[j:=x]> (<[i:=c]> l)) as <-.
  { rewrite (list_insert_insert_ne _ j i x x) by done.
    rewrite list_insert_insert_eq. by rewrite list_insert_insert_ne. }
  apply swap_perm.
  - by apply list_lookup_insert_eq.
  - by rewrite list_lookup_insert_ne.
Qed.
End list_update_facts.

Section heapq_facts.
Context {A : Type} (lt : A → A → bool).
Implicit Types heap : list A.

Lemma shiftr_parent (pos : nat) : 0 < pos → Nat.shiftr (pos - 1) 1 < pos.
Proof.
  intros Hpos. rewrite Nat.shiftr_div_pow2. change (2 ^ 1) with 2.
  pose proof (Nat.Div0.div_le_upper_bound (pos - 1) 2 (pos - 1)). lia.
Qed.

(** The loop of [_siftdown] ends by its own test, and moves the hole that
    [newitem] is to fill. *)
Lemma siftdown_loop_perm fuel heap startpos pos newitem :
  pos ≤ fuel → pos < length heap →
  ∃ heap' pos',
    heapq.siftdown_loop lt fuel heap startpos pos newitem = Ok (heap', pos') ∧
    pos' < length heap' ∧
    <[pos':=newitem]> heap' ≡ₚ <[pos:=newitem]> heap.
Proof.
  revert heap pos. induction fuel as [|fuel IH]; intros heap pos Hfuel Hpos.
  - cbn [heapq.siftdown_loop]. rewrite decide_False by lia. eauto.
  - cbn [heapq.siftdown_loop].
    destruct (decide (startpos < pos)) as [Hlt|Hge]; [|eauto].
    pose proof (shiftr_parent pos ltac:(lia)) as Hparent.
    destruct (getitem_lt heap (Nat.shiftr (pos - 1) 1)) as (parent & -> & Hp);
      [lia|].
    rewrite bind_Ok_l. destruct (lt newitem parent); [|eauto].
    unfold setitem. rewrite decide_True by done. rewrite bind_Ok_l.
    destruct (IH (<[pos:=parent]> heap) (Nat.shiftr (pos - 1) 1))
      as (heap' & pos' & -> & Hpos' & Hperm);
      [lia|rewrite length_insert; lia|].
    exists heap', pos'. split_and!; [done..|].
    rewrite Hperm. apply move_hole; [lia|done..].
Qed.

Lemma siftdown_perm heap startpos pos :
  pos < length heap →
  ∃ heap', heapq.siftdown lt heap startpos pos = Ok heap' ∧ heap' ≡ₚ heap.
Proof.
  intros Hpos. unfold heapq.siftdown.
  destruct (getitem_lt heap pos Hpos) as (newitem & -> & Hnew).
  rewrite bind_Ok_l.
  destruct (siftdown_loop_perm pos heap startpos pos newitem)
    as (heap' & pos' & -> & Hpos' & Hperm); [done..|].
  rewrite bind_Ok_l. unfold setitem. rewrite decide_True by done.
  eexists. split; [done|].
  by rewrite Hperm, list_insert_id.
Qed.

(** The loop of [_siftup] ends by its own test, and moves the hole down. *)
Lemma siftup_loop_perm fuel heap pos childpos newitem :
  length heap - childpos ≤ fuel → pos < childpos → pos < length heap →
  ∃ heap' pos',
    heapq.siftup_loop lt fuel heap (length heap) pos childpos = Ok (heap', pos') ∧
    length heap' = length heap ∧ pos' < length heap' ∧
    <[pos':=newitem]> heap' ≡ₚ <[pos:=newitem]> heap.
Proof.
  revert heap pos childpos.
  induction fuel as [|fuel IH]; intros heap pos childpos Hfuel Hchild Hpos.
  - cbn [heapq.siftup_loop]. rewrite decide_False by lia.
    exists heap, pos. by split_and!.
  - cbn [heapq.siftup_loop].
    destruct (decide (childpos < length heap)) as [Hlt|Hge];
      [|exists heap, pos; by split_and!].
    assert (∃ c, pos < c ∧ childpos ≤ c < length heap ∧
      (if decide (childpos + 1 < length heap)
       then l ← getitem heap childpos; r ← getitem heap (childpos + 1);
            Ok (if negb (lt l r) then childpos + 1 else childpos)
       else Ok childpos) = Ok c) as (c & Hc1 & Hc2 & ->).
    { case_decide as Hright.
      - destruct (getitem_lt heap childpos) as (l & -> & _); [done|].
        destruct (getitem_lt heap (childpos + 1)) as (r & -> & _); [done|].
        rewrite !bind_Ok_l. destruct (negb (lt l r)); eexists; (split_and!; [..|done]; lia).
      - exists childpos. split_and!; [lia..|done]. }
    rewrite bind_Ok_l.
    destruct (getitem_lt heap c) as (child & -> & Hchild'); [lia|].
    rewrite bind_Ok_l. unfold setitem. rewrite decide_True by done.
    rewrite bind_Ok_l.
    destruct (IH (<[pos:=child]> heap) c (2 * c + 1))
      as (heap' & pos' & Hloop & Hlen & Hpos' & Hperm);
      [rewrite length_insert; lia|lia|rewrite length_insert; lia|].
    rewrite length_insert in Hloop, Hlen. rewrite Hloop.
    exists heap', pos'. split_and!; [done..|].
    rewrite Hperm. apply move_hole; [lia|done..].
Qed.

Lemma siftup_perm heap pos :
  pos < length heap →
  ∃ heap', heapq.siftup lt heap pos = Ok heap' ∧ heap' ≡ₚ heap.
Proof.
  intros Hpos. unfold heapq.siftup.
  destruct (getitem_lt heap pos Hpos) as (newitem & -> & Hnew).
  rewrite bind_Ok_l.
  destruct (siftup_loop_perm (length heap) heap pos (2 * pos + 1) newitem)
    as (heap1 & pos1 & -> & Hlen & Hpos1 & Hperm); [lia..|].
  rewrite bind_Ok_l. unfold setitem. rewrite decide_True by done.
  rewrite bind_Ok_l.
  destruct (siftdown_perm (<[pos1:=newitem]> heap1) pos pos1)
    as (heap2 & -> & Hperm2); [by rewrite length_insert|].
  exists heap2. split; [done|].
  by rewrite Hperm2, Hperm, list_insert_id.
Qed.

Lemma heappush_perm heap item :
  ∃ heap', heapq.heappush lt heap item = Ok heap' ∧ heap' ≡ₚ item :: heap.
Proof.
  unfold heapq.heappush.
  destruct (siftdown_perm (heap ++ [item]) 0 (length (heap ++ [item]) - 1))
    as (heap' & -> & Hperm); [rewrite length_app; simpl; lia|].
  exists heap'. split; [done|].
  by rewrite Hperm, Permutation_app_comm.
Qed.

Lemma list_pop_snoc (init : list A) (x : A) :
  list_pop (init ++ [x]) = Ok (x, init).
Proof.
  unfold list_pop. rewrite last_snoc, length_app. simpl.
  replace (length init + 1 - 1) with (length init) by lia.
  by rewrite take_app_length.
Qed.

Lemma heappop_perm heap :
  heap ≠ [] →
  ∃ item heap', heapq.heappop lt heap = Ok (item, heap') ∧ item :: heap' ≡ₚ heap.
Proof.
  intros Hne. destruct heap as [|lastelt init _] using rev_ind; [done|].
  unfold heapq.heappop. rewrite list_pop_snoc, bind_Ok_l.
  destruct init as [|returnitem init]; [by eexists _, _|].
  cbn [getitem lookup list_lookup]. rewrite bind_Ok_l.
  unfold setitem. rewrite decide_True by (simpl; lia).
  rewrite bind_Ok_l. cbn [insert list_insert].
  destruct (siftup_perm (lastelt :: init) 0) as (heap' & -> & Hperm);
    [simpl; lia|].
  rewrite bind_Ok_l. exists returnitem, heap'. split; [done|].
  rewrite Hperm. rewrite (Permutation_app_comm _ [lastelt]). simpl.
  apply perm_swap.
Qed.

(** A [for] loop whose body keeps an invariant and never fails. *)
Lemma for_each_inv {S X} (I : S → Prop) (xs : list X) (body : S → X → result S) s :
  (∀ s x, x ∈ xs → I s → ∃ s', body s x = Ok s' ∧ I s') →
  I s → ∃ s', for_each xs body s = Ok s' ∧ I s'.
Proof.
  revert s. induction xs as [|x xs IH]; intros s Hbody Hs; [by exists s|].
  simpl. destruct (Hbody s x) as (s1 & -> & Hs1); [by left|done|].
  rewrite bind_Ok_l. apply IH; [|done].
  intros s2 y Hy. apply Hbody. by right.
Qed.

Lemma heapify_perm (x : list A) :
  ∃ heap, heapq.heapify lt x = Ok heap ∧ heap ≡ₚ x.
Proof.
  unfold heapq.heapify.
  apply (for_each_inv (λ heap, heap ≡ₚ x)); [|done].
  intros heap i Hi Hperm.
  apply elem_of_reverse, elem_of_seq in Hi.
  destruct (siftup_perm heap i) as (heap' & -> & Hperm').
  - rewrite Hperm.
    pose proof (Nat.Div0.div_le_upper_bound (length x) 2 (length x)). lia.
  - exists heap'. split; [done|]. by rewrite Hperm'.
Qed.
End heapq_facts.

(** ** Dictionaries *)

Section dict_facts.
Context {K V : Type} `{EqDecision K}.
Implicit Types (d ps : dict K V).

Lemma dict_set_fresh d k v :
  k ∉ dict_keys d → dict_set d k v = d ++ [(k, v)].
Proof.
  unfold dict_keys. induction d as [|[k' v'] d IH]; intros Hk; [done|].
  rewrite fmap_cons, not_elem_of_cons in Hk. destruct Hk as [Hne Hk].
  simpl. rewrite decide_False by done. by rewrite IH.
Qed.

Lemma dict_update_fresh d ps :
  NoDup (dict_keys (d ++ ps)) → dict_update d ps = d ++ ps.
Proof.
  unfold dict_update, dict_keys.
  revert d. induction ps as [|[k v] ps IH]; intros d Hnd; simpl.
  - by rewrite app_nil_r.
  - rewrite (cons_middle (k, v)), (assoc_L (++)) in Hnd |- *.
    rewrite dict_set_fresh; [by apply IH|].
    rewrite !fmap_app in Hnd. apply NoDup_app in Hnd as [Hnd _].
    apply NoDup_app in Hnd as (_ & Hnd & _).
    intros Hk. apply (Hnd k Hk). simpl. by left.
Qed.

Lemma dict_lookup_elem d k v : dict_lookup d k = Some v → (k, v) ∈ d.
Proof.
  induction d as [|[k' v'] d IH]; [done|]. simpl.
  case_decide as Hk.
  - intros [= ->]. subst. by left.
  - intros Hd. right. by apply IH.
Qed.

Lemma dict_lookup_key d k :
  k ∈ dict_keys d → ∃ v, dict_lookup d k = Some v.
Proof.
  unfold dict_keys. induction d as [|[k' v'] d IH]; simpl.
  - by intros ?%elem_of_nil.
  - intros Hk. case_decide; [by eexists|].
    apply elem_of_cons in Hk as [?|Hk]; [done|]. by apply IH.
Qed.

Lemma dict_lookup_is_Some d k : is_Some (dict_lookup d k) ↔ k ∈ dict_keys d.
Proof.
  split.
  - intros [v Hv%dict_lookup_elem]. unfold dict_keys.
    apply list_elem_of_fmap. by exists (k, v).
  - apply dict_lookup_key.
Qed.
End dict_facts.

(** ** The Huffman tree *)

Section huffman_tree_facts.
Context {Sym : Type} `{EqDecision Sym}.
Implicit Types (node root : HuffmanNode Sym) (heap : list (HuffmanNode Sym)).
Implicit Types freq_dict : dict Sym Z.

Lemma forest_leaves_perm heap heap' :
  heap ≡ₚ heap' → forest_leaves heap ≡ₚ forest_leaves heap'.
Proof. unfold forest_leaves. by intros ->. Qed.

Lemma forest_leaves_cons node heap :
  forest_leaves (node :: heap) = leaves node ++ forest_leaves heap.
Proof. done. Qed.

Lemma singleton_heap heap : heap ≠ [] → ¬ 1 < length heap → ∃ root, heap = [root].
Proof.
  destruct heap as [|root [|? ?]]; [done|by exists root|]. simpl. lia.
Qed.

(** The merge loop ends by its own test with one tree, which has the
    leaves of the heap it started from. *)
Lemma merge_loop_spec fuel heap :
  length heap ≤ S fuel → heap ≠ [] →
  ∃ root, merge_loop fuel heap = Ok [root] ∧
    leaves root ≡ₚ forest_leaves heap.
Proof.
  revert heap. induction fuel as [|fuel IH]; intros heap Hfuel Hne.
  - destruct (singleton_heap heap) as [root ->]; [done|lia|].
    exists root. split; [done|]. by rewrite forest_leaves_cons, app_nil_r.
  - cbn [merge_loop]. destruct (decide (1 < length heap)) as [Hlen|Hlen].
    + destruct (heappop_perm node_lt heap Hne) as (l & heap1 & -> & Hperm1).
      rewrite bind_Ok_l.
      assert (length heap = S (length heap1)) as Hl1 by (by rewrite <-Hperm1).
      destruct (heappop_perm node_lt heap1) as (r & heap2 & -> & Hperm2).
      { intros ->. simpl in Hl1. lia. }
      rewrite bind_Ok_l.
      assert (length heap1 = S (length heap2)) as Hl2 by (by rewrite <-Hperm2).
      destruct (heappush_perm node_lt heap2 (Merged (freq l + freq r) l r))
        as (heap3 & -> & Hperm3).
      rewrite bind_Ok_l.
      assert (length heap3 = S (length heap2)) as Hl3 by (by rewrite Hperm3).
      destruct (IH heap3) as (root & -> & Hleaves); [lia| |].
      { intros ->. simpl in Hl3. lia. }
      exists root. split; [done|].
      rewrite Hleaves, (forest_leaves_perm _ _ Hperm3), forest_leaves_cons.
      rewrite <-(forest_leaves_perm _ _ Hperm1), forest_leaves_cons.
      rewrite <-(forest_leaves_perm _ _ Hperm2), forest_leaves_cons.
      simpl. by rewrite (assoc_L (++)).
    + destruct (singleton_heap heap) as [root ->]; [done..|].
      exists root. split; [done|]. by rewrite forest_leaves_cons, app_nil_r.
Qed.

Lemma initial_heap_spec freq_dict :
  ∃ heap, initial_heap freq_dict = Ok heap ∧
    length heap = length freq_dict ∧
    forest_leaves heap ≡ₚ dict_keys freq_dict.
Proof.
  unfold initial_heap.
  destruct (heapify_perm node_lt ((λ '(sym, f), Leaf sym f) <$> freq_dict))
    as (heap & -> & Hperm).
  exists heap. split_and!; [done| |].
  - by rewrite Hperm, length_fmap.
  - rewrite (forest_leaves_perm _ _ Hperm). clear Hperm.
    unfold forest_leaves, dict_keys.
    induction freq_dict as [|[sym f] freq_dict IH]; [done|].
    rewrite !fmap_cons, bind_cons. simpl. by rewrite IH.
Qed.

(** The tree built from a table that is not empty: its leaves are the
    symbols of the table. *)
Lemma huffman_tree_spec freq_dict :
  freq_dict ≠ [] →
  ∃ heap root, initial_heap freq_dict = Ok heap ∧
    merge_loop (length heap) heap = Ok [root] ∧
    leaves root ≡ₚ dict_keys freq_dict.
Proof.
  intros Hne. destruct (initial_heap_spec freq_dict) as (heap & Hheap & Hlen & Hkeys).
  destruct (merge_loop_spec (length heap) heap) as (root & Hroot & Hleaves); [lia| |].
  { intros ->. destruct freq_dict; simplify_eq/=. }
  exists heap, root. split_and!; [done..|]. by rewrite Hleaves.
Qed.

Lemma build_huffman_tree_spec freq_dict :
  freq_dict ≠ [] →
  ∃ root, build_huffman_tree freq_dict = Ok (Some root) ∧
    leaves root ≡ₚ dict_keys freq_dict.
Proof.
  intros Hne. unfold build_huffman_tree.
  destruct (huffman_tree_spec freq_dict Hne) as (heap & root & -> & Hroot & Hleaves).
  rewrite bind_Ok_l, Hroot, bind_Ok_l. by exists root.
Qed.
End huffman_tree_facts.

(** ** The code table of a tree *)

Lemma string_prefix_chars (s1 s2 : string) :
  String.prefix s1 s2 = true ↔ chars s1 `prefix_of` chars s2.
Proof.
  revert s2. induction s1 as [|a s1 IH]; intros s2.
  - destruct s2; simpl; split; auto using prefix_nil.
  - destruct s2 as [|b s2]; simpl.
    + split; [done|]. by intros ?%prefix_nil_not.
    + destruct (ascii_dec a b) as [->|Hne].
      * rewrite IH. split; [apply prefix_cons|apply prefix_cons_inv_2].
      * split; [done|]. by intros ?%prefix_cons_inv_1.
Qed.

Section code_table_facts.
Context {Sym : Type} `{EqDecision Sym}.
Implicit Types (node root : HuffmanNode Sym) (codes : dict Sym string).

Lemma rel_paths_keys node : dict_keys (rel_paths node) = leaves node.
Proof.
  unfold dict_keys. induction node as [s f|f l IHl r IHr]; [done|].
  simpl. rewrite fmap_app, <-!list_fmap_compose.
  by rewrite <-IHl, <-IHr.
Qed.

Lemma code_table_keys root : dict_keys (code_table root) = leaves root.
Proof. destruct root; [done|]. apply rel_paths_keys. Qed.

Lemma rel_paths_merged node s c :
  is_merged node → (s, c) ∈ rel_paths node → c ≠ "".
Proof.
  destruct node as [|f l r]; [done|]. intros _. simpl.
  rewrite elem_of_app, !list_elem_of_fmap.
  intros [([s' c'] & [= -> ->] & _)|([s' c'] & [= -> ->] & _)]; done.
Qed.

(** [get_huffman_codes] assigns to every leaf, in order, the code of its
    path after [prefix]. *)
Lemma get_huffman_codes_paths node prefix codes :
  get_huffman_codes node prefix codes
    = dict_update codes
        (prod_map id (λ c, leaf_code (prefix +:+ c)) <$> rel_paths node).
Proof.
  revert prefix codes.
  induction node as [s f|f l IHl r IHr]; intros prefix codes.
  - simpl. by rewrite str_app_nil_r.
  - simpl. rewrite IHl, IHr, fmap_app. unfold dict_update.
    rewrite foldl_app, <-!list_fmap_compose.
    f_equal; [f_equal|]; apply list_fmap_ext; intros _ [s c] _; simpl;
      by rewrite str_app_assoc.
Qed.

Lemma get_huffman_codes_table root :
  NoDup (leaves root) →
  get_huffman_codes root "" [] = code_table root.
Proof.
  intros Hnd. rewrite get_huffman_codes_paths.
  assert (prod_map id (λ c, leaf_code ("" +:+ c)) <$> rel_paths root
          = code_table root) as ->.
  { destruct root as [s f|f l r]; [done|].
    rewrite <-(list_fmap_id (code_table _)).
    apply list_fmap_ext. intros _ [s c] Hsc%list_elem_of_lookup_2.
    apply rel_paths_merged in Hsc; [|done].
    unfold leaf_code. simpl. by rewrite decide_False. }
  rewrite dict_update_fresh; [done|].
  by rewrite app_nil_l, code_table_keys.
Qed.

(** The paths to two leaves with different symbols: neither is a prefix
    of the other. *)
Lemma rel_paths_prefix_free node s1 c1 s2 c2 :
  (s1, c1) ∈ rel_paths node → (s2, c2) ∈ rel_paths node → s1 ≠ s2 →
  ¬ chars c1 `prefix_of` chars c2.
Proof.
  revert c1 c2. induction node as [s f|f l IHl r IHr]; intros c1 c2; simpl.
  - intros [= -> ->]%list_elem_of_singleton [= -> ->]%list_elem_of_singleton. done.
  - rewrite !elem_of_app, !list_elem_of_fmap.
    intros [([? c1'] & [= -> ->] & H1)|([? c1'] & [= -> ->] & H1)]
           [([? c2'] & [= -> ->] & H2)|([? c2'] & [= -> ->] & H2)] Hne; simpl.
    + intros Hp%prefix_cons_inv_2. by apply (IHl c1' c2').
    + by intros Hp%prefix_cons_inv_1.
    + by intros Hp%prefix_cons_inv_1.
    + intros Hp%prefix_cons_inv_2. by apply (IHr c1' c2').
Qed.

Lemma code_table_prefix_free root s1 c1 s2 c2 :
  (s1, c1) ∈ code_table root → (s2, c2) ∈ code_table root → s1 ≠ s2 →
  String.prefix c1 c2 = false.
Proof.
  intros H1 H2 Hne. apply not_true_is_false. rewrite string_prefix_chars.
  destruct root as [s f|f l r].
  - apply list_elem_of_singleton in H1, H2. congruence.
  - by apply (rel_paths_prefix_free (Merged f l r) s1 c1 s2 c2).
Qed.
End code_table_facts.

Section build_huffman_codes_facts.
Context {Sym : Type} `{EqDecision Sym}.
Implicit Types freq_dict : dict Sym Z.

(** The code table returned for a table of frequencies that is not
    empty is the code table of some tree over its symbols. *)
Lemma build_huffman_codes_table freq_dict :
  NoDup (dict_keys freq_dict) → freq_dict ≠ [] →
  ∃ root, build_huffman_codes freq_dict = Ok (code_table root) ∧
    leaves root ≡ₚ dict_keys freq_dict.
Proof.
  intros Hnd Hne. unfold build_huffman_codes.
  destruct freq_dict as [|[sym f] freq_dict]; [done|].
  rewrite decide_False by done.
  destruct freq_dict as [|entry freq_dict].
  - exists (Leaf sym f). by split.
  - rewrite decide_False by (simpl; lia).
    destruct (huffman_tree_spec ((sym, f) :: entry :: freq_dict) Hne)
      as (heap & root & -> & Hroot & Hleaves).
    rewrite bind_Ok_l, Hroot, bind_Ok_l. cbn [getitem lookup list_lookup].
    rewrite bind_Ok_l. exists root. split; [|done].
    rewrite get_huffman_codes_table; [done|]. by rewrite Hleaves.
Qed.
End build_huffman_codes_facts.

(** C2. For every frequency table that is not empty (a dictionary, so
    without a repeated key), [build_huffman_codes] returns a code table
    that has exactly one entry for each symbol of the frequency table and
    none for any other symbol, and in which the code of a symbol is never
    a prefix of the code of another symbol. *)
Theorem build_huffman_codes_spec {Sym : Type} `{EqDecision Sym}
    (freq_dict : dict Sym Z) :
  NoDup (dict_keys freq_dict) → freq_dict ≠ [] →
  ∃ codes, build_huffman_codes freq_dict = Ok codes ∧
    NoDup (dict_keys codes) ∧
    (∀ s, s ∈ dict_keys codes ↔ s ∈ dict_keys freq_dict) ∧
    (∀ s, is_Some (dict_lookup codes s) ↔ s ∈ dict_keys freq_dict) ∧
    (∀ s1 s2 c1 c2, s1 ≠ s2 →
       dict_lookup codes s1 = Some c1 → dict_lookup codes s2 = Some c2 →
       String.prefix c1 c2 = false).
Proof.
  intros Hnd Hne.
  destruct (build_huffman_codes_table freq_dict Hnd Hne) as (root & -> & Hleaves).
  exists (code_table root).
  assert (dict_keys (code_table root) ≡ₚ dict_keys freq_dict) as Hkeys
    by (by rewrite code_table_keys).
  split_and!.
  - done.
  - by rewrite Hkeys.
  - intros s. by rewrite Hkeys.
  - intros s. by rewrite dict_lookup_is_Some, Hkeys.
  - intros s1 s2 c1 c2 Hs H1%dict_lookup_elem H2%dict_lookup_elem.
    by apply (code_table_prefix_free root s1 c1 s2 c2).
Qed.

Lemma build_huffman_codes_spec_witness :
  ∃ codes, build_huffman_codes [(1, 3%Z); (2, 2%Z); (4, 1%Z)] = Ok codes ∧
    NoDup (dict_keys codes) ∧
    (∀ s, s ∈ dict_keys codes ↔ s ∈ [1; 2; 4]) ∧
    (∀ s, is_Some (dict_lookup codes s) ↔ s ∈ [1; 2; 4]) ∧
    (∀ s1 s2 c1 c2, s1 ≠ s2 →
       dict_lookup codes s1 = Some c1 → dict_lookup codes s2 = Some c2 →
       String.prefix c1 c2 = false).
Proof.
  apply (build_huffman_codes_spec [(1, 3%Z); (2, 2%Z); (4, 1%Z)]).
  - apply (bool_decide_unpack _). vm_compute. exact I.
  - discriminate.
Defined.

(** ** Encoding and decoding *)

Lemma str_concat_cons (s : string) (l : list string) :
  String.concat "" (s :: l) = s +:+ String.concat "" l.
Proof. apply chars_inj. by rewrite chars_app, !chars_concat. Qed.

Section round_trip_facts.
Context {Sym : Type} `{EqDecision Sym}.
Implicit Types (node root : HuffmanNode Sym) (codes : dict Sym string).
Implicit Types symbols : list Sym.

Lemma huffman_encode_cons codes s symbols c bits :
  dict_lookup codes s = Some c → huffman_encode symbols codes = Ok bits →
  huffman_encode (s :: symbols) codes = Ok (c +:+ bits).
Proof.
  unfold huffman_encode, dict_get. intros Hc Henc. cbn [mapM]. rewrite Hc.
  rewrite bind_Ok_l.
  destruct (mapM _ symbols) as [parts| |]; [|done..].
  rewrite bind_Ok_l in Henc. injection Henc as <-.
  rewrite bind_Ok_l. change (mret (c :: parts)) with (Ok (c :: parts)).
  by rewrite bind_Ok_l, str_concat_cons.
Qed.

(** From a merged node, walking down the path of a leaf emits its symbol
    and goes back to the root. *)
Lemma huffman_decode_path root node pending s c rest :
  is_merged node → (s, c) ∈ rel_paths node →
  huffman_decode_from root node pending (c +:+ rest)
    = (s ::.) <$> huffman_decode_from root root false rest.
Proof.
  revert pending c. induction node as [s' f|f l IHl r IHr]; intros pending c; [done|].
  intros _. simpl. rewrite elem_of_app, !list_elem_of_fmap.
  intros [([? c'] & [= -> ->] & Hc)|([? c'] & [= -> ->] & Hc)].
  - change (String "0" c' +:+ rest) with (String "0" (c' +:+ rest)).
    cbn [huffman_decode_from]. rewrite decide_True by done.
    destruct l as [s' f'|f' l1 l2].
    + apply list_elem_of_singleton in Hc as [= -> ->]. done.
    + by apply IHl.
  - change (String "1" c' +:+ rest) with (String "1" (c' +:+ rest)).
    cbn [huffman_decode_from]. rewrite decide_False by done.
    rewrite decide_True by done.
    destruct r as [s' f'|f' r1 r2].
    + apply list_elem_of_singleton in Hc as [= -> ->]. done.
    + by apply IHr.
Qed.

(** Decoding the code of a symbol followed by more bits emits the symbol
    and goes on with the bits. *)
Lemma huffman_decode_code root s c rest :
  (s, c) ∈ code_table root →
  huffman_decode root (c +:+ rest) = (s ::.) <$> huffman_decode root rest.
Proof.
  unfold huffman_decode. destruct root as [s' f|f l r].
  - intros [= -> ->]%list_elem_of_singleton. done.
  - intros Hc. by apply huffman_decode_path.
Qed.

Lemma huffman_round_trip_table root symbols :
  (∀ s, s ∈ symbols → s ∈ leaves root) →
  ∃ bits, huffman_encode symbols (code_table root) = Ok bits ∧
    huffman_decode root bits = Ok symbols.
Proof.
  induction symbols as [|s symbols IH]; intros Hin.
  - by exists "".
  - destruct IH as (bits & Henc & Hdec).
    { intros s' Hs'. apply Hin. by right. }
    destruct (dict_lookup_key (code_table root) s) as [c Hc].
    { rewrite code_table_keys. apply Hin. by left. }
    exists (c +:+ bits). split.
    + by apply huffman_encode_cons.
    + rewrite (huffman_decode_code root s) by (by apply dict_lookup_elem).
      by rewrite Hdec.
Qed.
End round_trip_facts.

(** C1. For every frequency table with at least one symbol (a dictionary,
    so without a repeated key) and every sequence [S] of symbols of the
    table: [build_huffman_tree] returns a tree, [huffman_encode] encodes
    [S] with the codes that [get_huffman_codes] reads off the tree, and
    decoding the bits with the tree gives [S] back. *)
Theorem huffman_round_trip {Sym : Type} `{EqDecision Sym}
    (freq_dict : dict Sym Z) (S : list Sym) :
  NoDup (dict_keys freq_dict) → freq_dict ≠ [] →
  (∀ s, s ∈ S → s ∈ dict_keys freq_dict) →
  ∃ tree bits,
    build_huffman_tree freq_dict = Ok (Some tree) ∧
    huffman_encode S (get_huffman_codes tree "" []) = Ok bits ∧
    huffman_decode tree bits = Ok S.
Proof.
  intros Hnd Hne Hin.
  destruct (build_huffman_tree_spec freq_dict Hne) as (tree & Htree & Hleaves).
  destruct (huffman_round_trip_table tree S) as (bits & Henc & Hdec).
  { intros s Hs. rewrite Hleaves. by apply Hin. }
  exists tree, bits. split_and!; [done| |done].
  rewrite get_huffman_codes_table; [done|]. by rewrite Hleaves.
Qed.

Lemma huffman_round_trip_witness :
  ∃ tree bits,
    build_huffman_tree [("0", 5%Z); ("1", 2%Z); ("x", 2%Z)] = Ok (Some tree) ∧
    huffman_encode ["1"; "0"; "x"; "0"] (get_huffman_codes tree "" []) = Ok bits ∧
    huffman_decode tree bits = Ok ["1"; "0"; "x"; "0"].
Proof.
  apply (huffman_round_trip [("0", 5%Z); ("1", 2%Z); ("x", 2%Z)]
           ["1"; "0"; "x"; "0"]).
  - apply (bool_decide_unpack _). vm_compute. exact I.
  - discriminate.
  - intros s Hs. apply (bool_decide_unpack _).
    repeat (apply elem_of_cons in Hs as [->|Hs]; [by vm_compute|]).
    by apply elem_of_nil in Hs.
Defined.

(** ** Counters

    The frequency tables of the scripts are made by [Counter]; they have
    no repeated key, and their keys are the symbols counted. *)

Section counter_facts.
Context {K : Type} `{EqDecision K}.

Lemma dict_set_keys {V} (d : dict K V) (k : K) (v : V) :
  dict_keys (dict_set d k v)
    = if decide (k ∈ dict_keys d) then dict_keys d else dict_keys d ++ [k].
Proof.
  unfold dict_keys. induction d as [|[k' v'] d IH]; [done|].
  cbn [dict_set]. destruct (decide (k = k')) as [->|Hne].
  - rewrite !fmap_cons. rewrite decide_True by (by left). done.
  - rewrite !fmap_cons, IH. cbn [fst].
    destruct (decide (k ∈ d.*1)) as [Hin|Hnin].
    + rewrite decide_True by (by right). done.
    + rewrite decide_False; [done|]. by intros [?|?]%elem_of_cons.
Qed.

Lemma dict_set_keys_NoDup {V} (d : dict K V) (k : K) (v : V) :
  NoDup (dict_keys d) → NoDup (dict_keys (dict_set d k v)).
Proof.
  intros Hnd. rewrite dict_set_keys. case_decide as Hk; [done|].
  apply NoDup_app. split_and!; [done| |apply NoDup_singleton].
  intros k' Hk' ->%list_elem_of_singleton. done.
Qed.

Lemma dict_set_keys_elem {V} (d : dict K V) (k k' : K) (v : V) :
  k' ∈ dict_keys (dict_set d k v) ↔ k' = k ∨ k' ∈ dict_keys d.
Proof.
  rewrite dict_set_keys. case_decide as Hk.
  - split; [auto|]. by intros [->|?].
  - rewrite elem_of_app, list_elem_of_singleton. tauto.
Qed.

Lemma Counter_keys (xs : list K) :
  NoDup (dict_keys (Counter xs)) ∧
  ∀ x, x ∈ dict_keys (Counter xs) ↔ x ∈ xs.
Proof.
  unfold Counter.
  assert (∀ c : dict K Z, NoDup (dict_keys c) →
    let c' := foldl (λ c x, dict_set c x (default 0 (dict_lookup c x) + 1)%Z) c xs in
    NoDup (dict_keys c') ∧ ∀ x, x ∈ dict_keys c' ↔ x ∈ dict_keys c ∨ x ∈ xs)
    as Hloop.
  { induction xs as [|x xs IH]; intros c Hc; simpl.
    - split; [done|]. intros x. rewrite elem_of_nil. tauto.
    - destruct (IH (dict_set c x (default 0 (dict_lookup c x) + 1)%Z))
        as [Hnd Hkeys]; [by apply dict_set_keys_NoDup|].
      split; [done|]. intros y. rewrite Hkeys, dict_set_keys_elem, elem_of_cons.
      tauto. }
  destruct (Hloop [] (NoDup_nil_2)) as [Hnd Hkeys]. split; [done|].
  intros x. rewrite Hkeys. unfold dict_keys. simpl. rewrite elem_of_nil. tauto.
Qed.
End counter_facts.

(** * More properties of the scripts *)

(** ** The shape of the codes *)

Section code_shape_facts.
Context {Sym : Type} `{EqDecision Sym}.
Implicit Types (node root : HuffmanNode Sym).

Lemma leaves_nonempty node : 1 ≤ length (leaves node).
Proof.
  induction node as [s f|f l IHl r IHr]; simpl; [done|].
  rewrite length_app. lia.
Qed.

(** A path is made of the characters '0' and '1', and is shorter than
    the number of leaves of the tree. *)
Lemma rel_paths_shape node s c :
  (s, c) ∈ rel_paths node →
  Forall (λ b, b = "0" ∨ b = "1")%char (chars c) ∧
  String.length c + 1 ≤ length (leaves node).
Proof.
  revert c. induction node as [s' f|f l IHl r IHr]; intros c; simpl.
  - intros [= -> ->]%list_elem_of_singleton. by split.
  - rewrite elem_of_app, !list_elem_of_fmap, length_app.
    pose proof (leaves_nonempty l). pose proof (leaves_nonempty r).
    intros [([? c'] & [= -> ->] & Hc)|([? c'] & [= -> ->] & Hc)].
    + destruct (IHl c' Hc) as [Hbits Hlen]. simpl. split; [|lia].
      apply Forall_cons. auto.
    + destruct (IHr c' Hc) as [Hbits Hlen]. simpl. split; [|lia].
      apply Forall_cons. auto.
Qed.

Lemma code_table_shape root s c :
  (s, c) ∈ code_table root →
  c ≠ "" ∧ Forall (λ b, b = "0" ∨ b = "1")%char (chars c) ∧
  String.length c ≤ Nat.max 1 (length (leaves root) - 1).
Proof.
  destruct root as [s' f|f l r].
  - intros [= -> ->]%list_elem_of_singleton. simpl. split_and!; [done| |lia].
    apply Forall_singleton. by left.
  - intros Hc. destruct (rel_paths_shape _ _ _ Hc) as [Hbits Hlen].
    split_and!; [|done|lia]. by apply (rel_paths_merged (Merged f l r) s).
Qed.
End code_shape_facts.

(** X1. Every code that [build_huffman_codes] assigns is a string of the
    characters '0' and '1' that is not empty. *)
Theorem build_huffman_codes_bits {Sym : Type} `{EqDecision Sym}
    (freq_dict : dict Sym Z) :
  NoDup (dict_keys freq_dict) →
  ∃ codes, build_huffman_codes freq_dict = Ok codes ∧
    ∀ s c, dict_lookup codes s = Some c →
      c ≠ "" ∧ Forall (λ b, b = "0" ∨ b = "1")%char (chars c).
Proof.
  intros Hnd. destruct (decide (freq_dict = [])) as [->|Hne].
  { exists []. by split. }
  destruct (build_huffman_codes_table freq_dict Hnd Hne) as (root & -> & _).
  exists (code_table root). split; [done|].
  intros s c Hc%dict_lookup_elem.
  destruct (code_table_shape root s c Hc) as (? & ? & _). by split.
Qed.

Lemma build_huffman_codes_bits_witness :
  ∃ codes, build_huffman_codes [(1, 3%Z); (2, 2%Z); (4, 1%Z)] = Ok codes ∧
    ∀ s c, dict_lookup codes s = Some c →
      c ≠ "" ∧ Forall (λ b, b = "0" ∨ b = "1")%char (chars c).
Proof.
  apply (build_huffman_codes_bits [(1, 3%Z); (2, 2%Z); (4, 1%Z)]).
  apply (bool_decide_unpack _). vm_compute. exact I.
Defined.

(** X2. With [m >= 2] symbols in the frequency table, no code of
    [build_huffman_codes] is longer than [m - 1] characters; with one
    symbol the code has one character. *)
Theorem build_huffman_codes_length {Sym : Type} `{EqDecision Sym}
    (freq_dict : dict Sym Z) :
  NoDup (dict_keys freq_dict) → freq_dict ≠ [] →
  ∃ codes, build_huffman_codes freq_dict = Ok codes ∧
    ∀ s c, dict_lookup codes s = Some c →
      1 ≤ String.length c ≤ Nat.max 1 (length freq_dict - 1).
Proof.
  intros Hnd Hne.
  destruct (build_huffman_codes_table freq_dict Hnd Hne) as (root & -> & Hleaves).
  exists (code_table root). split; [done|].
  intros s c Hc%dict_lookup_elem.
  destruct (code_table_shape root s c Hc) as (Hne' & _ & Hlen).
  apply Permutation_length in Hleaves. unfold dict_keys in Hleaves.
  rewrite length_fmap in Hleaves. rewrite <-Hleaves. split; [|done].
  destruct c; [done|simpl; lia].
Qed.

Lemma build_huffman_codes_length_witness :
  ∃ codes, build_huffman_codes [(1, 3%Z); (2, 2%Z); (4, 1%Z)] = Ok codes ∧
    ∀ s c, dict_lookup codes s = Some c →
      1 ≤ String.length c ≤ Nat.max 1 (length [(1, 3%Z); (2, 2%Z); (4, 1%Z)] - 1).
Proof.
  apply (build_huffman_codes_length [(1, 3%Z); (2, 2%Z); (4, 1%Z)]).
  - apply (bool_decide_unpack _). vm_compute. exact I.
  - discriminate.
Defined.

Section code_sum_facts.
Context {Sym : Type} `{EqDecision Sym}.
Implicit Types (node root : HuffmanNode Sym).

(** Kraft's sum over the paths of a tree, scaled by [2^L]. *)
Lemma rel_paths_kraft node (L : nat) :
  length (leaves node) - 1 ≤ L →
  sum_nat ((λ p, 2 ^ (L - String.length p.2)) <$> rel_paths node) = 2 ^ L.
Proof.
  revert L. induction node as [s f|f l IHl r IHr]; intros L HL;
    cbn [leaves rel_paths] in *.
  - simpl. rewrite Nat.sub_0_r. lia.
  - rewrite length_app in HL.
    pose proof (leaves_nonempty l). pose proof (leaves_nonempty r).
    destruct L as [|L]; [lia|].
    rewrite fmap_app, <-!list_fmap_compose.
    assert (∀ l1 l2 : list nat, sum_nat (l1 ++ l2) = sum_nat l1 + sum_nat l2)
      as Happ.
    { intros l1 l2. induction l1 as [|x l1 IH]; simpl; [done|]. rewrite IH. lia. }
    rewrite Happ.
    pose proof (IHl L ltac:(lia)) as Hl. pose proof (IHr L ltac:(lia)) as Hr.
    assert (∀ b (ps : dict Sym string),
      (λ p : Sym * string, 2 ^ (S L - String.length p.2)) ∘ prod_map id (String b)
        <$> ps = (λ p, 2 ^ (L - String.length p.2)) <$> ps) as Hshift.
    { intros b ps. by apply list_fmap_ext. }
    rewrite !Hshift, Hl, Hr, Nat.pow_succ_r'. lia.
Qed.
End code_sum_facts.

(** X3. With at least two symbols in the frequency table the code of
    [build_huffman_codes] is complete: the codes satisfy Kraft's equality,
    the sum of [2^-len(code)] being 1 (here multiplied by [2^L] for an
    [L] that no code is longer than). *)
Theorem build_huffman_codes_kraft {Sym : Type} `{EqDecision Sym}
    (freq_dict : dict Sym Z) (L : nat) :
  NoDup (dict_keys freq_dict) → 2 ≤ length freq_dict →
  length freq_dict - 1 ≤ L →
  ∃ codes, build_huffman_codes freq_dict = Ok codes ∧
    sum_nat ((λ p, 2 ^ (L - String.length p.2)) <$> codes) = 2 ^ L.
Proof.
  intros Hnd Hlen HL.
  destruct (build_huffman_codes_table freq_dict Hnd) as (root & -> & Hleaves).
  { intros ->. simpl in Hlen. lia. }
  exists (code_table root). split; [done|].
  apply Permutation_length in Hleaves. unfold dict_keys in Hleaves.
  rewrite length_fmap in Hleaves.
  destruct root as [s f|f l r]; [simpl in Hleaves; lia|].
  apply rel_paths_kraft. lia.
Qed.

Lemma build_huffman_codes_kraft_witness :
  ∃ codes, build_huffman_codes [(1, 3%Z); (2, 2%Z); (4, 1%Z)] = Ok codes ∧
    sum_nat ((λ p, 2 ^ (2 - String.length p.2)) <$> codes) = 2 ^ 2.
Proof.
  apply (build_huffman_codes_kraft [(1, 3%Z); (2, 2%Z); (4, 1%Z)] 2).
  - apply (bool_decide_unpack _). vm_compute. exact I.
  - simpl. lia.
  - simpl. lia.
Defined.

(** ** The encoder *)

Section encode_facts.
Context {Sym : Type} `{EqDecision Sym}.
Implicit Types (codes : dict Sym string) (symbols : list Sym).

Lemma str_length_app (s1 s2 : string) :
  String.length (s1 +:+ s2) = String.length s1 + String.length s2.
Proof. by rewrite !string_length_chars, chars_app, length_app. Qed.

Lemma huffman_encode_missing codes s symbols :
  dict_lookup codes s = None → huffman_encode (s :: symbols) codes = Raise KeyError.
Proof. unfold huffman_encode, dict_get. intros Hs. cbn [mapM]. by rewrite Hs. Qed.

Lemma huffman_encode_step codes s symbols c :
  dict_lookup codes s = Some c →
  huffman_encode (s :: symbols) codes
    = (λ bits, c +:+ bits) <$> huffman_encode symbols codes.
Proof.
  unfold huffman_encode, dict_get. intros Hc. cbn [mapM]. rewrite Hc.
  rewrite bind_Ok_l.
  destruct (mapM _ symbols) as [parts| |]; [|done..].
  rewrite !bind_Ok_l. by rewrite fmap_Ok_l, str_concat_cons.
Qed.
End encode_facts.

(** X4. [huffman_encode] returns the codes of the symbols one after the
    other, as many characters as the codes have together, when every
    symbol has a code; it raises a [KeyError] as soon as one symbol has
    none. *)
Theorem huffman_encode_spec {Sym : Type} `{EqDecision Sym}
    (codes : dict Sym string) (symbols : list Sym) :
  (Forall (λ s, is_Some (dict_lookup codes s)) symbols →
   ∃ bits, huffman_encode symbols codes = Ok bits ∧
     bits = String.concat "" ((λ s, default "" (dict_lookup codes s)) <$> symbols) ∧
     String.length bits
       = sum_nat ((λ s, String.length (default "" (dict_lookup codes s))) <$> symbols)) ∧
  (Exists (λ s, dict_lookup codes s = None) symbols →
   huffman_encode symbols codes = Raise KeyError).
Proof.
  split.
  - induction symbols as [|s symbols IH]; intros Hall.
    + by exists "".
    + apply Forall_cons in Hall as [[c Hc] Hall].
      destruct (IH Hall) as (bits & Henc & Hbits & Hlen).
      exists (c +:+ bits). rewrite (huffman_encode_step codes s symbols c Hc), Henc.
      rewrite !fmap_cons, str_concat_cons, <-Hbits, Hc.
      split_and!; [done..|]. rewrite str_length_app, Hlen. by simpl.
  - induction symbols as [|s symbols IH]; intros Hex.
    + by apply Exists_nil in Hex.
    + destruct (dict_lookup codes s) as [c|] eqn:Hc.
      * apply Exists_cons in Hex as [Hs|Hex]; [congruence|].
        rewrite (huffman_encode_step codes s symbols c Hc), (IH Hex). done.
      * by apply huffman_encode_missing.
Qed.

Lemma huffman_encode_spec_witness :
  (∃ bits, huffman_encode ["a"; "b"; "a"] [("a", "0"); ("b", "10")] = Ok bits ∧
     bits = "0100" ∧ String.length bits = 4) ∧
  huffman_encode ["a"; "c"] [("a", "0"); ("b", "10")] = Raise KeyError.
Proof.
  destruct (huffman_encode_spec [("a", "0"); ("b", "10")] ["a"; "b"; "a"])
    as [Hok _].
  destruct (huffman_encode_spec [("a", "0"); ("b", "10")] ["a"; "c"])
    as [_ Herr].
  split.
  - destruct Hok as (bits & Henc & Hbits & Hlen).
    + repeat constructor; by eexists.
    + exists bits. split_and!; [done|exact Hbits|exact Hlen].
  - apply Herr. right. left. reflexivity.
Defined.

(** ** The heap order *)

Lemma parent_spec (i : nat) :
  0 < i → i = 2 * parent i + 1 ∨ i = 2 * parent i + 2.
Proof.
  intros Hi. unfold parent. rewrite Nat.shiftr_div_pow2. change (2 ^ 1) with 2.
  pose proof (Nat.div_mod_eq (i - 1) 2).
  pose proof (Nat.mod_upper_bound (i - 1) 2). lia.
Qed.

Lemma parent_lt (i : nat) : 0 < i → parent i < i.
Proof. intros Hi. pose proof (parent_spec i Hi). lia. Qed.

Lemma parent_left (p : nat) : parent (2 * p + 1) = p.
Proof. pose proof (parent_spec (2 * p + 1)). lia. Qed.

Lemma parent_right (p : nat) : parent (2 * p + 1 + 1) = p.
Proof. pose proof (parent_spec (2 * p + 1 + 1)). lia. Qed.

Lemma descends_le (k i : nat) : descends k i → k ≤ i.
Proof.
  induction 1 as [|i Hi _ IH]; [done|]. pose proof (parent_lt i Hi). lia.
Qed.

Lemma descends_parent (k i : nat) : descends k i → k < i → descends k (parent i).
Proof. intros [|i' Hi Hd] Hk; [lia|done]. Qed.

Lemma descends_0 (i : nat) : descends 0 i.
Proof.
  induction i as [i IH] using lt_wf_ind.
  destruct (decide (i = 0)) as [->|Hi]; [constructor|].
  apply descends_step; [lia|]. apply IH, parent_lt. lia.
Qed.

Section heap_order_facts.
Context {A : Type} (lt : A → A → bool) (key : A → Z).
Hypothesis lt_key : ∀ x y, lt x y = bool_decide (key x < key y)%Z.
Implicit Types (h heap : list A).

(** What is in the hole does not matter. *)
Lemma hole_edges_insert k h pos x :
  hole_edges key k (<[pos:=x]> h) pos ↔ hole_edges key k h pos.
Proof.
  unfold hole_edges. split; intros Hh i a b Hi Hne Hpne Hk Ha Hb.
  - apply (Hh i a b); try done; by rewrite list_lookup_insert_ne.
  - rewrite list_lookup_insert_ne in Ha, Hb by done. by apply (Hh i a b).
Qed.

Lemma hole_above_insert k h pos x :
  hole_above key k (<[pos:=x]> h) pos ↔ hole_above key k h pos.
Proof.
  unfold hole_above. split; intros Hh Hk c a b Hc Hp Ha Hb.
  - pose proof (parent_lt c Hc). pose proof (parent_lt pos ltac:(lia)).
    apply (Hh Hk c a b); try done; rewrite list_lookup_insert_ne; (done || lia).
  - pose proof (parent_lt c Hc). pose proof (parent_lt pos ltac:(lia)).
    rewrite list_lookup_insert_ne in Ha, Hb by lia. by apply (Hh Hk c a b).
Qed.

(** Filling the hole with an item that is above the parent of the hole
    and below its children gives the heap order. *)
Lemma fill_hole k h pos newitem :
  pos < length h →
  hole_edges key k h pos → hole_below key h pos newitem →
  (k < pos → ∀ y, h !! parent pos = Some y → (key y ≤ key newitem)%Z) →
  heap_from key k (<[pos:=newitem]> h).
Proof.
  intros Hpos Hedges Hbelow Habove i x y Hi Hk Hx Hy.
  pose proof (parent_lt i Hi) as Hpi.
  destruct (decide (i = pos)) as [->|Hne].
  - rewrite list_lookup_insert_eq in Hx by done. injection Hx as <-.
    rewrite list_lookup_insert_ne in Hy by lia. apply Habove; [lia|done].
  - rewrite list_lookup_insert_ne in Hx by done.
    destruct (decide (parent i = pos)) as [Hp|Hp].
    + rewrite Hp, list_lookup_insert_eq in Hy by done. injection Hy as <-.
      by apply (Hbelow i).
    + rewrite list_lookup_insert_ne in Hy by done. by apply (Hedges i x y).
Qed.

(** [_siftdown] moves the hole up until the item fits. *)
Lemma siftdown_loop_order fuel h k pos newitem h' pos' :
  heapq.siftdown_loop lt fuel h k pos newitem = Ok (h', pos') →
  descends k pos → pos < length h →
  hole_edges key k h pos → hole_above key k h pos →
  hole_below key h pos newitem →
  heap_from key k (<[pos':=newitem]> h').
Proof.
  revert h pos. induction fuel as [|fuel IH];
    intros h pos Hloop Hdesc Hpos Hedges Habove Hbelow;
    cbn [heapq.siftdown_loop] in Hloop;
    destruct (decide (k < pos)) as [Hk|Hk]; try done.
  - injection Hloop as <- <-. apply fill_hole; [done..|lia].
  - fold (parent pos) in Hloop. pose proof (parent_lt pos ltac:(lia)) as Hpp.
    unfold getitem in Hloop.
    destruct (h !! parent pos) as [y|] eqn:Hy; [|done].
    rewrite bind_Ok_l, lt_key in Hloop.
    destruct (decide (key newitem < key y)%Z) as [Hlt|Hge].
    + rewrite bool_decide_eq_true_2 in Hloop by done.
      unfold setitem in Hloop. rewrite decide_True, bind_Ok_l in Hloop by done.
      pose proof (descends_parent k pos Hdesc Hk) as Hdp.
      pose proof (descends_le _ _ Hdp) as Hkp.
      apply (IH (<[pos:=y]> h) (parent pos) Hloop Hdp).
      * rewrite length_insert. lia.
      * intros i a b Hi Hne Hpne Hki Ha Hb.
        assert (i ≠ pos) by congruence.
        rewrite list_lookup_insert_ne in Ha by done.
        destruct (decide (parent i = pos)) as [Hpi|Hpi].
        -- rewrite Hpi, list_lookup_insert_eq in Hb by done. injection Hb as <-.
           by apply (Habove Hk i a y).
        -- rewrite list_lookup_insert_ne in Hb by done. by apply (Hedges i a b).
      * intros Hkpp c a b Hc Hpc Ha Hb.
        pose proof (parent_lt (parent pos) ltac:(lia)).
        rewrite list_lookup_insert_ne in Hb by lia.
        assert (key b ≤ key y)%Z as Hby.
        { apply (Hedges (parent pos) y b); try done; try lia.
          pose proof (descends_le _ _ (descends_parent k _ Hdp Hkpp)). lia. }
        destruct (decide (c = pos)) as [->|Hcp].
        -- rewrite list_lookup_insert_eq in Ha by done. by injection Ha as <-.
        -- rewrite list_lookup_insert_ne in Ha by done.
           assert (key y ≤ key a)%Z; [|lia].
           apply (Hedges c a y); try done; [lia|lia|by rewrite Hpc].
      * intros c a Hc Hpc Ha.
        destruct (decide (c = pos)) as [->|Hcp].
        -- rewrite list_lookup_insert_eq in Ha by done. injection Ha as <-. lia.
        -- rewrite list_lookup_insert_ne in Ha by done.
           assert (key y ≤ key a)%Z; [|lia].
           apply (Hedges c a y); try done; [lia|lia|by rewrite Hpc].
    + rewrite bool_decide_eq_false_2 in Hloop by done.
      injection Hloop as <- <-. apply fill_hole; [done..|].
      intros _ y' Hy'. rewrite Hy in Hy'. injection Hy' as <-. lia.
  - injection Hloop as <- <-. apply fill_hole; [done..|lia].
Qed.

Lemma siftdown_order h k pos h' :
  heapq.siftdown lt h k pos = Ok h' →
  descends k pos →
  hole_edges key k h pos → hole_above key k h pos →
  (∀ newitem, h !! pos = Some newitem → hole_below key h pos newitem) →
  heap_from key k h'.
Proof.
  unfold heapq.siftdown, getitem. intros Hsift Hdesc Hedges Habove Hbelow.
  destruct (h !! pos) as [newitem|] eqn:Hnew; [|done].
  rewrite bind_Ok_l in Hsift.
  destruct (heapq.siftdown_loop lt pos h k pos newitem) as [[h1 pos1]| |] eqn:Hloop;
    [|done..].
  rewrite bind_Ok_l in Hsift. unfold setitem in Hsift.
  case_decide; [|done]. injection Hsift as <-.
  apply (siftdown_loop_order pos h k pos newitem h1 pos1 Hloop); try done.
  - by eapply lookup_lt_Some.
  - by apply Hbelow.
Qed.
End heap_order_facts.

Section heap_order_siftup.
Context {A : Type} (lt : A → A → bool) (key : A → Z).
Hypothesis lt_key : ∀ x y, lt x y = bool_decide (key x < key y)%Z.
Implicit Types (h heap : list A).

(** The child that [_siftup] moves up is the smaller one. *)
Lemma smaller_child h pos :
  2 * pos + 1 < length h →
  ∃ c v,
    (if decide (2 * pos + 1 + 1 < length h)
     then l ← getitem h (2 * pos + 1); r ← getitem h (2 * pos + 1 + 1);
          Ok (if negb (lt l r) then 2 * pos + 1 + 1 else 2 * pos + 1)
     else Ok (2 * pos + 1)) = Ok c ∧
    0 < c ∧ parent c = pos ∧ h !! c = Some v ∧
    ∀ c' x, 0 < c' → parent c' = pos → h !! c' = Some x → (key v ≤ key x)%Z.
Proof.
  intros Hleft.
  destruct (lookup_lt_is_Some_2 h (2 * pos + 1) Hleft) as [l Hl].
  assert (∀ c' x, 0 < c' → parent c' = pos → h !! c' = Some x →
    (c' = 2 * pos + 1 ∧ x = l) ∨ (c' = 2 * pos + 1 + 1 ∧ h !! (2 * pos + 1 + 1) = Some x))
    as Hchildren.
  { intros c' x Hc' Hp Hx. destruct (parent_spec c' Hc') as [Hc|Hc];
      rewrite Hp in Hc; subst c'; [left|right]; split; try done; try lia.
    - congruence.
    - by replace (2 * pos + 1 + 1) with (2 * pos + 2) by lia. }
  case_decide as Hright.
  - destruct (lookup_lt_is_Some_2 h (2 * pos + 1 + 1) Hright) as [r Hr].
    unfold getitem. rewrite Hl, Hr, !bind_Ok_l, lt_key.
    destruct (decide (key l < key r)%Z) as [Hlt|Hge].
    + rewrite bool_decide_eq_true_2 by done. simpl negb. cbv iota.
      exists (2 * pos + 1), l. split_and!; [done|lia|apply parent_left|done|].
      intros c' x Hc' Hp Hx.
      destruct (Hchildren c' x Hc' Hp Hx) as [[_ ->]|[_ Hx']]; [lia|].
      rewrite Hr in Hx'. injection Hx' as <-. lia.
    + rewrite bool_decide_eq_false_2 by done. simpl negb. cbv iota.
      exists (2 * pos + 1 + 1), r. split_and!; [done|lia|apply parent_right|done|].
      intros c' x Hc' Hp Hx.
      destruct (Hchildren c' x Hc' Hp Hx) as [[_ ->]|[_ Hx']]; [lia|].
      rewrite Hr in Hx'. injection Hx' as <-. lia.
  - exists (2 * pos + 1), l. split_and!; [done|lia|apply parent_left|done|].
    intros c' x Hc' Hp Hx.
    destruct (Hchildren c' x Hc' Hp Hx) as [[_ ->]|[_ Hx']]; [lia|].
    apply lookup_lt_Some in Hx'. lia.
Qed.

(** [_siftup] moves the hole down to a leaf, the smaller child going up. *)
Lemma siftup_loop_order fuel h k pos h' pos' :
  heapq.siftup_loop lt fuel h (length h) pos (2 * pos + 1) = Ok (h', pos') →
  descends k pos → pos < length h →
  hole_edges key k h pos → hole_above key k h pos →
  length h' = length h ∧ pos' < length h' ∧ descends k pos' ∧
  hole_edges key k h' pos' ∧ hole_above key k h' pos' ∧
  length h' ≤ 2 * pos' + 1.
Proof.
  revert h pos. induction fuel as [|fuel IH];
    intros h pos Hloop Hdesc Hpos Hedges Habove;
    cbn [heapq.siftup_loop] in Hloop;
    destruct (decide (2 * pos + 1 < length h)) as [Hleft|Hleaf]; try done.
  - injection Hloop as <- <-. split_and!; [done..|lia].
  - destruct (smaller_child h pos Hleft) as (c & v & Hsel & Hc & Hpc & Hv & Hmin).
    rewrite Hsel, bind_Ok_l in Hloop. unfold getitem in Hloop.
    rewrite Hv, bind_Ok_l in Hloop. unfold setitem in Hloop.
    rewrite decide_True, bind_Ok_l in Hloop by done.
    pose proof (parent_lt c Hc) as Hcp. rewrite Hpc in Hcp.
    pose proof (lookup_lt_Some _ _ _ Hv) as Hclen.
    pose proof (descends_le _ _ Hdesc) as Hkpos.
    rewrite <-(length_insert h pos v) in Hloop.
    destruct (IH (<[pos:=v]> h) c Hloop) as (Hlen & Hpos' & Hdesc' & Hedges' & Habove' & Hleaf').
    + apply descends_step; [done|]. by rewrite Hpc.
    + by rewrite length_insert.
    + intros i a b Hi Hne Hpne Hki Ha Hb.
      destruct (decide (i = pos)) as [->|Hip].
      * rewrite list_lookup_insert_eq in Ha by done. injection Ha as <-.
        pose proof (parent_lt pos Hi).
        rewrite list_lookup_insert_ne in Hb by lia.
        apply (Habove ltac:(lia) c v b); done.
      * rewrite list_lookup_insert_ne in Ha by done.
        destruct (decide (parent i = pos)) as [Hpi|Hpi].
        -- rewrite Hpi, list_lookup_insert_eq in Hb by done. injection Hb as <-.
           by apply (Hmin i).
        -- rewrite list_lookup_insert_ne in Hb by done. by apply (Hedges i a b).
    + intros _ c' a b Hc' Hpc' Ha Hb.
      pose proof (parent_lt c' Hc').
      rewrite list_lookup_insert_ne in Ha by lia.
      rewrite Hpc, list_lookup_insert_eq in Hb by done. injection Hb as <-.
      apply (Hedges c' a v); try done; try lia. by rewrite Hpc'.
    + rewrite length_insert in Hlen. done.
  - injection Hloop as <- <-. split_and!; [done..|lia].
Qed.

(** [_siftup(heap, k)] extends the heap order from the subtrees below
    [k] to the subtree at [k]. *)
Lemma siftup_order h k h' :
  heapq.siftup lt h k = Ok h' → heap_from key (S k) h → heap_from key k h'.
Proof.
  unfold heapq.siftup, getitem. intros Hsift Hheap.
  destruct (h !! k) as [newitem|] eqn:Hnew; [|done].
  pose proof (lookup_lt_Some _ _ _ Hnew) as Hk.
  rewrite bind_Ok_l in Hsift.
  destruct (heapq.siftup_loop lt (length h) h (length h) k (2 * k + 1))
    as [[h1 pos1]| |] eqn:Hloop; [|done..].
  rewrite bind_Ok_l in Hsift.
  destruct (siftup_loop_order (length h) h k k h1 pos1 Hloop)
    as (Hlen & Hpos1 & Hdesc & Hedges & Habove & Hleaf).
  - constructor.
  - done.
  - intros i a b Hi Hne Hpne Hki Ha Hb. apply (Hheap i a b); try done. lia.
  - intros Hkk. lia.
  - unfold setitem in Hsift. rewrite decide_True, bind_Ok_l in Hsift by done.
    apply (siftdown_order lt key lt_key _ k pos1 h' Hsift Hdesc).
    + by apply hole_edges_insert.
    + by apply hole_above_insert.
    + intros x _ c a Hc Hpc Ha. apply lookup_lt_Some in Ha.
      rewrite length_insert in Ha. pose proof (parent_spec c Hc). lia.
Qed.

Lemma heapify_loop_order (m : nat) h h' :
  for_each (reverse (seq 0 m)) (heapq.siftup lt) h = Ok h' →
  heap_from key m h → heap_from key 0 h'.
Proof.
  revert h. induction m as [|m IH]; intros h Hloop Hheap.
  - simpl in Hloop. by injection Hloop as <-.
  - rewrite seq_S, reverse_app in Hloop. cbn [reverse rev_append app for_each] in Hloop.
    change (rev_append (seq 0 m) []) with (reverse (seq 0 m)) in Hloop.
    simpl in Hloop.
    destruct (heapq.siftup lt h m) as [h1| |] eqn:Hsift; [|done..].
    rewrite bind_Ok_l in Hloop.
    apply (IH h1 Hloop). by apply (siftup_order h m h1).
Qed.

(** [heapify] establishes the heap order. *)
Lemma heapify_order (x h : list A) :
  heapq.heapify lt x = Ok h → is_heap key h.
Proof.
  unfold heapq.heapify. intros Hloop.
  apply (heapify_loop_order (length x / 2) x h Hloop).
  intros i a b Hi Hk Ha Hb. apply lookup_lt_Some in Ha.
  pose proof (parent_spec i Hi).
  pose proof (Nat.div_mod_eq (length x) 2).
  pose proof (Nat.mod_upper_bound (length x) 2). lia.
Qed.

(** [heappush] keeps the heap order. *)
Lemma heappush_order h item h' :
  heapq.heappush lt h item = Ok h' → is_heap key h → is_heap key h'.
Proof.
  unfold heapq.heappush. intros Hpush Hheap.
  replace (length (h ++ [item]) - 1) with (length h) in Hpush
    by (rewrite length_app; simpl; lia).
  apply (siftdown_order lt key lt_key _ 0 (length h) h' Hpush).
  - apply descends_0.
  - intros i a b Hi Hne Hpne _ Ha Hb.
    pose proof (lookup_lt_Some _ _ _ Ha) as Hlen.
    rewrite length_app in Hlen. simpl in Hlen.
    pose proof (parent_lt i Hi).
    rewrite lookup_app_l in Ha, Hb by lia. by apply (Hheap i a b); [|lia|..].
  - intros _ c a b Hc Hpc Ha _. apply lookup_lt_Some in Ha.
    rewrite length_app in Ha. simpl in Ha. pose proof (parent_spec c Hc). lia.
  - intros x _ c a Hc Hpc Ha. apply lookup_lt_Some in Ha.
    rewrite length_app in Ha. simpl in Ha. pose proof (parent_spec c Hc). lia.
Qed.

(** The first item of a heap is a least one. *)
Lemma heap_root_min h r :
  is_heap key h → h !! 0 = Some r → ∀ i x, h !! i = Some x → (key r ≤ key x)%Z.
Proof.
  intros Hheap Hr i. induction i as [i IH] using lt_wf_ind. intros x Hx.
  destruct (decide (i = 0)) as [->|Hi].
  - rewrite Hr in Hx. injection Hx as <-. lia.
  - pose proof (parent_lt i ltac:(lia)) as Hp.
    destruct (lookup_lt_is_Some_2 h (parent i)) as [y Hy].
    { apply lookup_lt_Some in Hx. lia. }
    pose proof (IH (parent i) Hp y Hy).
    pose proof (Hheap i x y ltac:(lia) ltac:(lia) Hx Hy). lia.
Qed.

(** [heappop] returns a least item and keeps the heap order. *)
Lemma heappop_order h item h' :
  heapq.heappop lt h = Ok (item, h') → is_heap key h →
  is_heap key h' ∧ Forall (λ x, key item ≤ key x)%Z h'.
Proof.
  intros Hpop Hheap.
  destruct h as [|lastelt init _] using rev_ind; [done|].
  destruct (heappop_perm lt (init ++ [lastelt])) as (item' & h'' & Hpop' & Hperm).
  { by destruct init. }
  rewrite Hpop in Hpop'. injection Hpop' as <- <-.
  assert (Forall (λ x, key item ≤ key x)%Z h') as Hmin.
  { assert ((init ++ [lastelt]) !! 0 = Some item) as Hroot.
    { unfold heapq.heappop in Hpop. rewrite list_pop_snoc, bind_Ok_l in Hpop.
      destruct init as [|r init]; [by injection Hpop as <- <-|].
      cbn [getitem lookup list_lookup] in Hpop. rewrite bind_Ok_l in Hpop.
      unfold setitem in Hpop. rewrite decide_True, bind_Ok_l in Hpop by (simpl; lia).
      destruct (heapq.siftup lt _ 0) as [h1| |]; [|done..].
      rewrite bind_Ok_l in Hpop. by injection Hpop as <- <-. }
    apply Forall_forall. intros x Hx.
    assert (x ∈ init ++ [lastelt]) as Hin by (rewrite <-Hperm; by right).
    apply list_elem_of_lookup in Hin as [i Hi].
    by apply (heap_root_min _ item Hheap Hroot i x). }
  split; [|done].
  unfold heapq.heappop in Hpop. rewrite list_pop_snoc, bind_Ok_l in Hpop.
  destruct init as [|r init].
  { injection Hpop as <- <-. by intros i x y _ _ ?. }
  cbn [getitem lookup list_lookup] in Hpop. rewrite bind_Ok_l in Hpop.
  unfold setitem in Hpop. rewrite decide_True, bind_Ok_l in Hpop by (simpl; lia).
  cbn [insert list_insert] in Hpop.
  destruct (heapq.siftup lt (lastelt :: init) 0) as [h1| |] eqn:Hsift; [|done..].
  rewrite bind_Ok_l in Hpop. injection Hpop as <- <-.
  apply (siftup_order _ 0 _ Hsift).
  intros i a b Hi Hk Ha Hb.
  pose proof (parent_lt i Hi). pose proof (lookup_lt_Some _ _ _ Ha) as Hlen.
  simpl in Hlen.
  destruct i as [|i]; [lia|]. destruct (parent (S i)) as [|p] eqn:Hp; [lia|].
  simpl in Ha, Hb.
  apply (Hheap (S i) a b); [lia|lia| |].
  - simpl. rewrite lookup_app_l by lia. done.
  - rewrite Hp. simpl. rewrite lookup_app_l by lia. done.
Qed.
End heap_order_siftup.

(** ** The merges of the Huffman tree *)

Section merge_facts.
Context {Sym : Type} `{EqDecision Sym}.
Implicit Types (node root : HuffmanNode Sym) (heap : list (HuffmanNode Sym)).
Implicit Types freq_dict : dict Sym Z.

Lemma node_lt_freq (x y : HuffmanNode Sym) :
  node_lt x y = bool_decide (freq x < freq y)%Z.
Proof. done. Qed.

Lemma huffman_merges_perm heap heap' root :
  heap ≡ₚ heap' → huffman_merges heap root → huffman_merges heap' root.
Proof.
  intros Hperm Hmerges. destruct Hmerges as [root|forest l r rest root Hforest Hlr Hrest Hm].
  - apply Permutation_singleton_l in Hperm as <-. constructor.
  - apply (huffman_merges_step _ l r rest); [|done..]. by rewrite <-Hperm.
Qed.

Lemma sum_perm (l1 l2 : list Z) : l1 ≡ₚ l2 → sum l1 = sum l2.
Proof. induction 1; simpl in *; lia. Qed.

(** What the merge loop keeps: the leaves with their frequencies, the
    total frequency, and the sums at the merged nodes. *)
Lemma merge_loop_merges fuel heap :
  length heap ≤ S fuel → heap ≠ [] → is_heap freq heap →
  ∃ root, merge_loop fuel heap = Ok [root] ∧
    huffman_merges heap root ∧
    leaf_entries root ≡ₚ heap ≫= leaf_entries ∧
    freq root = sum (freq <$> heap) ∧
    (Forall sums_frequencies heap → sums_frequencies root).
Proof.
  revert heap. induction fuel as [|fuel IH]; intros heap Hfuel Hne Hheap.
  - destruct (singleton_heap heap) as [root ->]; [done|lia|].
    exists root. split_and!; [done|constructor|simpl; by rewrite app_nil_r|simpl; lia|].
    by intros [? _]%Forall_cons.
  - cbn [merge_loop]. destruct (decide (1 < length heap)) as [Hlen|Hlen].
    + destruct (heappop_perm node_lt heap Hne) as (l & heap1 & Hpop1 & Hperm1).
      destruct (heappop_order node_lt freq node_lt_freq heap l heap1 Hpop1 Hheap)
        as [Hheap1 Hmin1].
      rewrite Hpop1, bind_Ok_l.
      assert (length heap = S (length heap1)) as Hl1 by (by rewrite <-Hperm1).
      destruct (heappop_perm node_lt heap1) as (r & heap2 & Hpop2 & Hperm2).
      { intros ->. simpl in Hl1. lia. }
      destruct (heappop_order node_lt freq node_lt_freq heap1 r heap2 Hpop2 Hheap1)
        as [Hheap2 Hmin2].
      rewrite Hpop2, bind_Ok_l.
      assert (length heap1 = S (length heap2)) as Hl2 by (by rewrite <-Hperm2).
      destruct (heappush_perm node_lt heap2 (Merged (freq l + freq r) l r))
        as (heap3 & Hpush & Hperm3).
      pose proof (heappush_order node_lt freq node_lt_freq heap2 _ heap3 Hpush Hheap2)
        as Hheap3.
      rewrite Hpush, bind_Ok_l.
      assert (length heap3 = S (length heap2)) as Hl3 by (by rewrite Hperm3).
      destruct (IH heap3) as (root & -> & Hmerges & Hentries & Hfreq & Hsums);
        [lia| |done|].
      { intros ->. simpl in Hl3. lia. }
      assert (heap ≡ₚ l :: r :: heap2) as Hperm by (by rewrite Hperm2).
      exists root. split_and!; [done| | | |].
      * apply (huffman_merges_step _ l r heap2); [done| |done|].
        -- rewrite Forall_forall in Hmin1. apply Hmin1. rewrite <-Hperm2. left.
        -- by apply (huffman_merges_perm heap3).
      * rewrite Hentries, Hperm3, Hperm. simpl. by rewrite (assoc_L (++)).
      * rewrite Hfreq, (sum_perm _ _ (fmap_Permutation freq _ _ Hperm3)).
        rewrite (sum_perm _ _ (fmap_Permutation freq _ _ Hperm)). simpl. lia.
      * intros Hall. apply Hsums. rewrite Hperm3. rewrite Hperm in Hall.
        apply Forall_cons in Hall as [Hl [Hr Hall]%Forall_cons].
        apply Forall_cons. by split.
    + destruct (singleton_heap heap) as [root ->]; [done..|].
      exists root. split_and!; [done|constructor|simpl; by rewrite app_nil_r|simpl; lia|].
      by intros [? _]%Forall_cons.
Qed.

(** The tree that the two builders make from a table with a symbol. *)
Lemma huffman_tree_merges freq_dict :
  freq_dict ≠ [] →
  ∃ heap root, initial_heap freq_dict = Ok heap ∧
    merge_loop (length heap) heap = Ok [root] ∧
    huffman_merges ((λ '(sym, f), Leaf sym f) <$> freq_dict) root ∧
    leaf_entries root ≡ₚ freq_dict ∧
    freq root = sum (freq_dict.*2) ∧
    sums_frequencies root.
Proof.
  intros Hne. unfold initial_heap.
  destruct (heapify_perm node_lt ((λ '(sym, f), Leaf sym f) <$> freq_dict))
    as (heap & Hheapify & Hperm).
  pose proof (heapify_order node_lt freq node_lt_freq _ heap Hheapify) as Hheap.
  destruct (merge_loop_merges (length heap) heap)
    as (root & Hloop & Hmerges & Hentries & Hfreq & Hsums); [lia| |done|].
  { intros ->. apply Permutation_nil_l in Hperm. by destruct freq_dict. }
  exists heap, root. split_and!; [done..| | | |].
  - by apply (huffman_merges_perm heap).
  - rewrite Hentries, Hperm. clear.
    induction freq_dict as [|[sym f] freq_dict IH]; [done|].
    rewrite fmap_cons, bind_cons. simpl. by rewrite IH.
  - rewrite Hfreq, (sum_perm _ _ (fmap_Permutation freq _ _ Hperm)). clear.
    induction freq_dict as [|[sym f] freq_dict IH]; [done|].
    rewrite !fmap_cons. simpl. by rewrite IH.
  - apply Hsums. rewrite Hperm. clear.
    induction freq_dict as [|[sym f] freq_dict IH]; [done|].
    rewrite fmap_cons. by apply Forall_cons.
Qed.
End merge_facts.

Lemma leaves_leaf_entries {Sym : Type} (node : HuffmanNode Sym) :
  leaves node = (leaf_entries node).*1.
Proof.
  induction node as [s f|f l IHl r IHr]; [done|].
  simpl. by rewrite fmap_app, IHl, IHr.
Qed.

(** X5. [build_huffman_tree] is Huffman's construction: from the leaves
    of a table with a symbol it returns a tree reached by merging, step by
    step, two trees of least frequency among those left, the first popped
    becoming the left child. *)
Theorem build_huffman_tree_greedy {Sym : Type} `{EqDecision Sym}
    (freq_dict : dict Sym Z) :
  freq_dict ≠ [] →
  ∃ root, build_huffman_tree freq_dict = Ok (Some root) ∧
    huffman_merges ((λ '(sym, f), Leaf sym f) <$> freq_dict) root.
Proof.
  intros Hne. unfold build_huffman_tree.
  destruct (huffman_tree_merges freq_dict Hne)
    as (heap & root & -> & Hroot & Hmerges & _).
  rewrite bind_Ok_l, Hroot, bind_Ok_l. by exists root.
Qed.

Lemma build_huffman_tree_greedy_witness :
  ∃ root, build_huffman_tree [(1, 3%Z); (2, 2%Z); (4, 1%Z)] = Ok (Some root) ∧
    huffman_merges ((λ '(sym, f), Leaf sym f) <$> [(1, 3%Z); (2, 2%Z); (4, 1%Z)]) root.
Proof. by apply (build_huffman_tree_greedy [(1, 3%Z); (2, 2%Z); (4, 1%Z)]). Defined.

(** X6. The tree of [build_huffman_tree] keeps the table: its leaves are
    the entries of the table with their frequencies, every merged node
    carries the sum of its children, and the root carries the sum of all
    the frequencies of the table. *)
Theorem build_huffman_tree_frequencies {Sym : Type} `{EqDecision Sym}
    (freq_dict : dict Sym Z) :
  freq_dict ≠ [] →
  ∃ root, build_huffman_tree freq_dict = Ok (Some root) ∧
    leaf_entries root ≡ₚ freq_dict ∧
    sums_frequencies root ∧
    freq root = sum (freq_dict.*2).
Proof.
  intros Hne. unfold build_huffman_tree.
  destruct (huffman_tree_merges freq_dict Hne)
    as (heap & root & -> & Hroot & _ & Hentries & Hfreq & Hsums).
  rewrite bind_Ok_l, Hroot, bind_Ok_l. by exists root.
Qed.

Lemma build_huffman_tree_frequencies_witness :
  ∃ root, build_huffman_tree [(1, 3%Z); (2, 2%Z); (4, 1%Z)] = Ok (Some root) ∧
    leaf_entries root ≡ₚ [(1, 3%Z); (2, 2%Z); (4, 1%Z)] ∧
    sums_frequencies root ∧
    freq root = sum ([(1, 3%Z); (2, 2%Z); (4, 1%Z)].*2).
Proof. by apply (build_huffman_tree_frequencies [(1, 3%Z); (2, 2%Z); (4, 1%Z)]). Defined.

(** X7. With at least two symbols, the codes of [build_huffman_codes] are
    the paths to the leaves of a tree made by Huffman's construction from
    the table: two trees of least frequency are merged at every step, and
    the leaves of the tree are the entries of the table. *)
Theorem build_huffman_codes_greedy {Sym : Type} `{EqDecision Sym}
    (freq_dict : dict Sym Z) :
  NoDup (dict_keys freq_dict) → 2 ≤ length freq_dict →
  ∃ root, build_huffman_codes freq_dict = Ok (code_table root) ∧
    huffman_merges ((λ '(sym, f), Leaf sym f) <$> freq_dict) root ∧
    leaf_entries root ≡ₚ freq_dict.
Proof.
  intros Hnd Hlen. unfold build_huffman_codes.
  rewrite !decide_False by lia.
  destruct (huffman_tree_merges freq_dict)
    as (heap & root & -> & Hroot & Hmerges & Hentries & _).
  { intros ->. simpl in Hlen. lia. }
  rewrite bind_Ok_l, Hroot, bind_Ok_l. cbn [getitem lookup list_lookup].
  rewrite bind_Ok_l. exists root. split_and!; [|done..].
  rewrite get_huffman_codes_table; [done|].
  rewrite leaves_leaf_entries, Hentries. done.
Qed.

Lemma build_huffman_codes_greedy_witness :
  ∃ root, build_huffman_codes [(1, 3%Z); (2, 2%Z); (4, 1%Z)] = Ok (code_table root) ∧
    huffman_merges ((λ '(sym, f), Leaf sym f) <$> [(1, 3%Z); (2, 2%Z); (4, 1%Z)]) root ∧
    leaf_entries root ≡ₚ [(1, 3%Z); (2, 2%Z); (4, 1%Z)].
Proof.
  apply (build_huffman_codes_greedy [(1, 3%Z); (2, 2%Z); (4, 1%Z)]).
  - apply (bool_decide_unpack _). vm_compute. exact I.
  - simpl. lia.
Defined.

(** ** Runs are found again *)

Section runs_again.
Context {A : Type} `{EqDecision A}.
Implicit Types (runs : list (Run A)).

Lemma alternating_cons_inv (r : Run A) runs :
  alternating (r :: runs) →
  alternating runs ∧ ∀ r', head runs = Some r' → r.1 ≠ r'.1.
Proof.
  intros Halt. split.
  - intros i r1 r2 H1 H2. by apply (Halt (S i)).
  - intros r' Hr'. apply (Halt 0); [done|]. by destruct runs; simplify_eq/=.
Qed.

(** The loop of [get_runs] on a stretch of the current value. *)
Lemma get_runs_loop_same (runs0 : list (Run A)) (cv : A) (cl n : nat) :
  foldl get_runs_step (runs0, cv, cl) (replicate n cv) = (runs0, cv, cl + n).
Proof.
  revert cl. induction n as [|n IH]; intros cl; simpl.
  - by rewrite Nat.add_0_r.
  - rewrite decide_True by done. rewrite IH. f_equal. lia.
Qed.

(** The loop of [get_runs] on the stream of a list of runs that starts
    with another value than the current one. *)
Lemma get_runs_loop_runs runs (runs0 : list (Run A)) (cv : A) (cl : nat) :
  alternating runs → Forall (λ r, 1 ≤ r.2) runs →
  (∀ r, head runs = Some r → cv ≠ r.1) →
  (let '(found, v, n) := foldl get_runs_step (runs0, cv, cl) (expand_runs runs) in
   found ++ [(v, n)]) = runs0 ++ (cv, cl) :: runs.
Proof.
  revert runs0 cv cl. induction runs as [|[v n] runs IH];
    intros runs0 cv cl Halt Hlen Hhead.
  - done.
  - apply alternating_cons_inv in Halt as [Halt Hnext].
    apply Forall_cons in Hlen as [Hn Hlen]. simpl in Hn, Hnext.
    specialize (Hhead (v, n) eq_refl). simpl in Hhead.
    change ((v, n) :: runs) with ([(v, n)] ++ runs) at 1.
    rewrite expand_runs_app, expand_runs_singleton, foldl_app.
    destruct n as [|n]; [lia|]. cbn [replicate foldl get_runs_step].
    rewrite decide_False by done.
    rewrite get_runs_loop_same.
    rewrite (IH _ v (1 + n) Halt Hlen Hnext).
    by rewrite <-(assoc_L (++)).
Qed.
End runs_again.

(** X8. [get_runs] finds the runs a stream was made from: for runs of
    lengths at least 1 whose neighbours differ in value, the stream that
    repeats every value its length has exactly these runs. *)
Theorem get_runs_expand_runs {A : Type} `{EqDecision A} (runs : list (Run A)) :
  alternating runs → Forall (λ r, 1 ≤ r.2) runs →
  get_runs (expand_runs runs) = runs.
Proof.
  intros Halt Hlen. destruct runs as [|[v n] runs]; [done|].
  apply alternating_cons_inv in Halt as [Halt Hnext].
  apply Forall_cons in Hlen as [Hn Hlen]. simpl in Hn, Hnext.
  change ((v, n) :: runs) with ([(v, n)] ++ runs) at 1.
  rewrite expand_runs_app, expand_runs_singleton.
  destruct n as [|n]; [lia|]. cbn [replicate app get_runs].
  rewrite foldl_app, get_runs_loop_same.
  by rewrite (get_runs_loop_runs runs [] v (1 + n) Halt Hlen Hnext).
Qed.

Lemma get_runs_expand_runs_witness :
  get_runs (expand_runs [(1%Z, 2); (0%Z, 1); (1%Z, 3)])
  = [(1%Z, 2); (0%Z, 1); (1%Z, 3)].
Proof.
  apply (get_runs_expand_runs [(1%Z, 2); (0%Z, 1); (1%Z, 3)]).
  - intros [|[|[|i]]] r1 r2 H1 H2; by simplify_eq/=.
  - repeat constructor.
Defined.

(** ** The run-length codes can be told apart *)

Lemma unary_prefix (q1 q2 : nat) (x1 x2 : list ascii) :
  replicate q1 "1"%char ++ "0"%char :: x1
    `prefix_of` replicate q2 "1"%char ++ "0"%char :: x2 →
  q1 = q2 ∧ x1 `prefix_of` x2.
Proof.
  revert q2. induction q1 as [|q1 IH]; intros [|q2] Hpre; simpl in Hpre.
  - split; [done|]. by apply prefix_cons_inv_2 in Hpre.
  - by apply prefix_cons_inv_1 in Hpre.
  - by apply prefix_cons_inv_1 in Hpre.
  - apply prefix_cons_inv_2, IH in Hpre as [-> ?]. done.
Qed.

Lemma msb_bits_inj (w : nat) (r1 r2 : Z) :
  (0 ≤ r1 < 2 ^ Z.of_nat w)%Z → (0 ≤ r2 < 2 ^ Z.of_nat w)%Z →
  msb_bits w r1 = msb_bits w r2 → r1 = r2.
Proof.
  revert r1 r2. induction w as [|w IH]; intros r1 r2 Hr1 Hr2 Heq.
  - simpl in Hr1, Hr2. lia.
  - rewrite Nat2Z.inj_succ, Z.pow_succ_r in Hr1, Hr2 by lia.
    rewrite !msb_bits_S in Heq. apply app_inj_2 in Heq as [Hhigh Hlow]; [|done].
    assert (r1 `div` 2 = r2 `div` 2)%Z as Hdiv.
    { apply IH; [| |done].
      - split; [apply Z.div_pos; lia|apply Z.div_lt_upper_bound; lia].
      - split; [apply Z.div_pos; lia|apply Z.div_lt_upper_bound; lia]. }
    assert (r1 `mod` 2 = r2 `mod` 2)%Z as Hmod.
    { rewrite !Zmod_odd, <-!Z.bit0_odd.
      by destruct (Z.testbit r1 0), (Z.testbit r2 0). }
    rewrite (Z.div_mod r1 2), (Z.div_mod r2 2) by lia. by rewrite Hdiv, Hmod.
Qed.

(** X9. The Golomb code of [encode_run_length_golomb] is a prefix code
    for every divisor [m >= 1] at which the field of the computed width
    [b] holds every remainder ([m <= 2^b]): the codeword of a run length
    is never the beginning of the codeword of another run length. *)
Theorem encode_run_length_golomb_prefix_free (log2 : float → float)
    (l1 l2 m : Z) (c1 c2 : string) :
  (1 ≤ l1)%Z → (1 ≤ l2)%Z → (1 ≤ m)%Z →
  (m ≤ 2 ^ golomb_width log2 m)%Z →
  encode_run_length_golomb log2 l1 m = Ok c1 →
  encode_run_length_golomb log2 l2 m = Ok c2 →
  l1 ≠ l2 → String.prefix c1 c2 = false.
Proof.
  intros Hl1 Hl2 Hm Hb2 Hc1 Hc2 Hne.
  destruct (String.prefix c1 c2) eqn:Hpre; [|done]. exfalso. apply Hne.
  destruct (golomb_spec log2 l1 m Hl1 Hm Hb2) as (c1' & Hc1' & -> & _).
  destruct (golomb_spec log2 l2 m Hl2 Hm Hb2) as (c2' & Hc2' & -> & _).
  rewrite Hc1 in Hc1'. injection Hc1' as ->.
  rewrite Hc2 in Hc2'. injection Hc2' as ->.
  pose proof (golomb_width_pos log2 m Hm Hb2) as Hb1.
  set (b := golomb_width log2 m) in *.
  apply string_prefix_chars in Hpre.
  rewrite !chars_app, !chars_str_repeat, !chars_fixed_width in Hpre.
  apply unary_prefix in Hpre as [Hq Hr].
  pose proof (Z.div_pos (l1 - 1) m ltac:(lia) ltac:(lia)) as Hq1.
  pose proof (Z.div_pos (l2 - 1) m ltac:(lia) ltac:(lia)) as Hq2.
  pose proof (Z.mod_pos_bound (l1 - 1) m ltac:(lia)) as Hr1.
  pose proof (Z.mod_pos_bound (l2 - 1) m ltac:(lia)) as Hr2.
  apply prefix_length_eq in Hr; [|by rewrite !msb_bits_length].
  apply msb_bits_inj in Hr; [|rewrite Z2Nat.id by lia; lia..].
  pose proof (Z.div_mod (l1 - 1) m ltac:(lia)) as Hdm1.
  pose proof (Z.div_mod (l2 - 1) m ltac:(lia)) as Hdm2.
  assert ((l1 - 1) `div` m = (l2 - 1) `div` m)%Z as Hq' by lia.
  rewrite Hq', Hr in Hdm1. lia.
Qed.

Lemma encode_run_length_golomb_prefix_free_witness :
  ∃ c1 c2,
    encode_run_length_golomb (λ _, 0x1.95c01a39fbd68p+0%float) 5 3 = Ok c1 ∧
    encode_run_length_golomb (λ _, 0x1.95c01a39fbd68p+0%float) 8 3 = Ok c2 ∧
    String.prefix c1 c2 = false.
Proof.
  exists "1001", "11001". split; [reflexivity|]. split; [reflexivity|].
  apply (encode_run_length_golomb_prefix_free
           (λ _, 0x1.95c01a39fbd68p+0%float) 5 8 3 "1001" "11001");
    [lia|lia|lia|by vm_compute|reflexivity|reflexivity|lia].
Defined.

(** The condition of X9 is needed: at [m = 2^49 + 1], where the binary64
    logarithm is 49.0 and the field has 49 bits, the remainder [2^49] does
    not fit the field, and the codeword of the run length [2^48 + 1] is
    the beginning of the codeword of [2^49 + 1]. *)
Lemma encode_run_length_golomb_narrow_field (log2 : float → float) :
  log2 (float_of_int (2 ^ 49 + 1)) = 49%float →
  ∃ c1 c2,
    encode_run_length_golomb log2 (2 ^ 48 + 1) (2 ^ 49 + 1) = Ok c1 ∧
    encode_run_length_golomb log2 (2 ^ 49 + 1) (2 ^ 49 + 1) = Ok c2 ∧
    String.length c1 = 50 ∧ String.length c2 = 51 ∧
    String.prefix c1 c2 = true.
Proof.
  intros Hlog2.
  assert (ceil_log2 log2 (2 ^ 49 + 1) = 49%Z) as Hwidth.
  { unfold ceil_log2, log2_of_int.
    change (is_infinity (float_of_int (2 ^ 49 + 1))) with false. cbv iota.
    rewrite Hlog2. reflexivity. }
  unfold encode_run_length_golomb.
  rewrite decide_False, decide_True, Hwidth by done.
  eexists _, _. split; [reflexivity|]. split; [reflexivity|]. by vm_compute.
Qed.

(** X10. The unary code of [encode_run_length_unary] has one character
    more than the run length, and it is a prefix code: the codeword of a
    run length is never the beginning of the codeword of another. *)
Theorem encode_run_length_unary_prefix_free (l1 l2 : Z) :
  (0 ≤ l1)%Z → (0 ≤ l2)%Z →
  Z.of_nat (String.length (encode_run_length_unary l1)) = (l1 + 1)%Z ∧
  (String.prefix (encode_run_length_unary l1) (encode_run_length_unary l2) = true →
   l1 = l2).
Proof.
  intros Hl1 Hl2. unfold encode_run_length_unary. split.
  - rewrite string_length_chars, chars_app, chars_str_repeat.
    rewrite length_app, length_replicate. simpl. lia.
  - intros Hpre. apply string_prefix_chars in Hpre.
    rewrite !chars_app, !chars_str_repeat in Hpre. simpl in Hpre.
    apply unary_prefix in Hpre as [Hq _]. lia.
Qed.

Lemma encode_run_length_unary_prefix_free_witness :
  Z.of_nat (String.length (encode_run_length_unary 3)) = (3 + 1)%Z ∧
  (String.prefix (encode_run_length_unary 3) (encode_run_length_unary 5) = true →
   3 = 5)%Z.
Proof. apply (encode_run_length_unary_prefix_free 3 5); lia. Defined.

(** ** The prediction scheme of [compression_analysis.py] *)

Lemma for_each_fold {S X} (xs : list X) (body : S → X → result S)
    (f : S → X → S) (s : S) :
  (∀ s x, x ∈ xs → body s x = Ok (f s x)) →
  for_each xs body s = Ok (foldl f s xs).
Proof.
  revert s. induction xs as [|x xs IH]; intros s Hbody; [done|].
  simpl. rewrite Hbody, bind_Ok_l by left. apply IH.
  intros s' y Hy. apply Hbody. by right.
Qed.

Lemma get_runs_sum {A : Type} `{EqDecision A} (T : list A) :
  sum_nat ((get_runs T).*2) = length T ∧ Forall (λ r, 1 ≤ r.2) (get_runs T).
Proof.
  rewrite <-expand_runs_length. destruct T as [|first rest]; [done|].
  pose proof (get_runs_inv first rest) as Hinv. simpl.
  destruct (foldl get_runs_step ([], first, 1) rest) as [[runs cv] cl].
  destruct Hinv as (-> & ? & ?). done.
Qed.

Lemma get_runs_nil {A : Type} `{EqDecision A} (T : list A) :
  get_runs T = [] ↔ T = [].
Proof.
  split; [|by intros ->]. intros Hruns.
  destruct (get_runs_sum T) as [Hsum _]. rewrite Hruns in Hsum.
  by destruct T.
Qed.

Lemma count_bits (l : list Z) :
  Forall (λ t, t = 0 ∨ t = 1)%Z l →
  count 0 l + count 1 l = length l ∧ Z.of_nat (count 1 l) = sum l.
Proof.
  unfold count. induction 1 as [|t l [-> | ->] _ [IH1 IH2]]; [done|..].
  - rewrite filter_cons_True, filter_cons_False by done. simpl in *. lia.
  - rewrite filter_cons_False, filter_cons_True by done. simpl in *. lia.
Qed.

Lemma count_prediction_errors (transitions : list Z) :
  count 0 (prediction_errors transitions) = count 1 transitions.
Proof.
  unfold count, prediction_errors.
  induction transitions as [|t transitions IH]; [done|].
  rewrite fmap_cons. destruct (decide (t = 1%Z)) as [->|Hne].
  - rewrite !filter_cons_True by done. simpl. by rewrite IH.
  - cbv iota. rewrite !filter_cons_False by done. done.
Qed.

Lemma prediction_errors_bits (transitions : list Z) :
  Forall (λ e, e = 0 ∨ e = 1)%Z (prediction_errors transitions).
Proof.
  unfold prediction_errors. apply Forall_fmap, Forall_true.
  intros t. simpl. case_decide; auto.
Qed.

Lemma prediction_errors_length (flips : string) :
  length (prediction_errors (get_transitions (to_bits flips)))
  = String.length flips - 1.
Proof.
  unfold prediction_errors, get_transitions.
  by rewrite length_fmap, transition_stream_length, to_bits_length.
Qed.

(** [prediction_encode] on flips that are not empty. *)
Lemma prediction_encode_ok (flips : string) :
  1 ≤ String.length flips →
  let errors := prediction_errors (get_transitions (to_bits flips)) in
  ∃ first_bit rate,
    to_bits flips !! 0 = Some first_bit ∧
    prediction_encode flips
    = Ok (errors,
          {| ps_first_bit := first_bit;
             ps_num_transitions := length (get_transitions (to_bits flips));
             ps_num_alternations := count 0 errors;
             ps_num_same := count 1 errors;
             ps_alternation_rate := rate |}).
Proof.
  intros Hn errors. unfold prediction_encode.
  pose proof (to_bits_length flips) as Hlen.
  destruct (lookup_lt_is_Some_2 (to_bits flips) 0) as [first_bit Hfirst]; [lia|].
  unfold getitem. rewrite Hfirst, bind_Ok_l. fold errors.
  destruct errors as [|e errors'] eqn:He.
  - rewrite bind_Ok_l. by eexists _, _.
  - unfold int_truediv. rewrite decide_False by (simpl; lia).
    rewrite bind_Ok_l. by eexists _, _.
Qed.

(** X11. [prediction_encode] raises an [IndexError] on the empty string
    and fails on no other: for [n >= 1] flips the error stream has
    [n - 1] elements, all 0 or 1, the predictions that held and those
    that did not add up to the [n - 1] transitions, the alternations are
    the transitions that are 1, and the first bit is 1 exactly for a first
    flip ['H']. *)
Theorem prediction_encode_spec (flips : string) :
  (flips = "" → prediction_encode flips = Raise IndexError) ∧
  (1 ≤ String.length flips →
   ∃ errors stats, prediction_encode flips = Ok (errors, stats) ∧
     length errors = String.length flips - 1 ∧
     Forall (λ e, e = 0 ∨ e = 1)%Z errors ∧
     ps_num_transitions stats = String.length flips - 1 ∧
     ps_num_alternations stats + ps_num_same stats = ps_num_transitions stats ∧
     Z.of_nat (ps_num_alternations stats) = sum (get_transitions (to_bits flips)) ∧
     (ps_first_bit stats = 1%Z ↔ String.get 0 flips = Some "H"%char) ∧
     (ps_first_bit stats = 0%Z ∨ ps_first_bit stats = 1%Z)).
Proof.
  split; [by intros ->|]. intros Hn.
  destruct (prediction_encode_ok flips Hn) as (first_bit & rate & Hfirst & ->).
  pose proof (prediction_errors_length flips) as Hlen.
  pose proof (prediction_errors_bits (get_transitions (to_bits flips))) as Hbits.
  pose proof (transition_stream_bits (to_bits flips)) as Htbits.
  fold (get_transitions (to_bits flips)) in Htbits.
  destruct (count_bits _ Hbits) as [Hcount _].
  destruct (count_bits _ Htbits) as [_ Hones].
  eexists _, _. split; [done|]. cbn [ps_num_transitions ps_num_alternations
    ps_num_same ps_first_bit].
  assert (length (get_transitions (to_bits flips)) = String.length flips - 1) as Htl.
  { unfold get_transitions. by rewrite transition_stream_length, to_bits_length. }
  split_and!; [done|done|done|lia| | |].
  - by rewrite count_prediction_errors.
  - unfold to_bits in Hfirst. rewrite list_lookup_fmap in Hfirst.
    rewrite string_get_lookup.
    destruct (chars flips !! 0) as [c|]; [|done]. simpl in Hfirst.
    injection Hfirst as <-. case_decide as Hc; [by subst|].
    split; [done|]. by intros [= ->].
  - unfold to_bits in Hfirst. rewrite list_lookup_fmap in Hfirst.
    destruct (chars flips !! 0) as [c|]; [|done]. simpl in Hfirst.
    injection Hfirst as <-. case_decide; auto.
Qed.

Lemma prediction_encode_spec_witness :
  ∃ errors stats, prediction_encode "HTTH" = Ok (errors, stats) ∧
    length errors = String.length "HTTH" - 1 ∧
    Forall (λ e, e = 0 ∨ e = 1)%Z errors ∧
    ps_num_transitions stats = String.length "HTTH" - 1 ∧
    ps_num_alternations stats + ps_num_same stats = ps_num_transitions stats ∧
    Z.of_nat (ps_num_alternations stats) = sum (get_transitions (to_bits "HTTH")) ∧
    (ps_first_bit stats = 1%Z ↔ String.get 0 "HTTH" = Some "H"%char) ∧
    (ps_first_bit stats = 0%Z ∨ ps_first_bit stats = 1%Z).
Proof. apply (prediction_encode_spec "HTTH"). simpl. lia. Defined.

(** ** The sizes that [compress_sequence] reports *)

Section compress_facts.
Variable log2 : float → float.

(** The loop over the runs, when every run has a codeword. *)
Lemma encode_runs_loop (use_golomb : bool) (golomb_m : Z) (code : nat → string)
    (runs : list (Run Z)) (bits : nat) (encoded : list (Z * nat * string)) :
  (∀ run, run ∈ runs → run_codeword log2 use_golomb golomb_m run.2 = Ok (code run.2)) →
  for_each runs
    (λ '(compressed_bits, encoded_runs) '(bit_val, length),
       code ← (if use_golomb
               then encode_run_length_golomb log2 (Z.of_nat length) golomb_m
               else Ok (encode_run_length_unary (Z.of_nat length)));
       Ok (compressed_bits + String.length code,
           encoded_runs ++ [(bit_val, length, code)])) (bits, encoded)
  = Ok (bits + sum_nat ((λ run, String.length (code run.2)) <$> runs),
        encoded ++ ((λ run, (run.1, run.2, code run.2)) <$> runs)).
Proof.
  revert bits encoded. induction runs as [|[v l] runs IH]; intros bits encoded Hcode.
  - simpl. by rewrite Nat.add_0_r, app_nil_r.
  - cbn [for_each]. pose proof (Hcode (v, l) ltac:(left)) as Hl.
    unfold run_codeword in Hl. simpl in Hl. rewrite Hl, !bind_Ok_l.
    rewrite IH by (intros run Hrun; apply Hcode; by right).
    rewrite !fmap_cons. simpl. f_equal. f_equal; [lia|].
    by rewrite <-(assoc_L (++)).
Qed.

(** [compress_sequence] on flips that are not empty, when every run has
    a codeword. *)
Lemma compress_sequence_ok (flips : string) (use_golomb : bool) (golomb_m : Z)
    (code : nat → string) :
  1 ≤ String.length flips →
  let errors := prediction_errors (get_transitions (to_bits flips)) in
  (∀ run, run ∈ run_length_encode errors →
     run_codeword log2 use_golomb golomb_m run.2 = Ok (code run.2)) →
  ∃ r, compress_sequence log2 flips use_golomb golomb_m = Ok r ∧
    cs_original_bits r = String.length flips ∧
    cs_error_stream r = errors ∧
    cs_runs r = run_length_encode errors ∧
    cs_num_runs r = length (run_length_encode errors) ∧
    cs_encoded_runs r
      = (λ run, (run.1, run.2, code run.2)) <$> run_length_encode errors ∧
    cs_compressed_bits r
      = 2 + sum_nat ((λ run, String.length (code run.2)) <$> run_length_encode errors).
Proof.
  intros Hn errors Hcode. unfold compress_sequence.
  destruct (prediction_encode_ok flips Hn) as (first_bit & rate & _ & ->).
  fold errors. rewrite bind_Ok_l. cbv beta iota.
  rewrite (encode_runs_loop use_golomb golomb_m code _ 1 [] Hcode), bind_Ok_l.
  cbv beta iota.
  assert (∃ p0, match errors with
                | [] => Ok 0.5%float
                | _ :: _ => int_truediv (Z.of_nat (count 0 errors))
                              (Z.of_nat (length errors))
                end = Ok p0) as [p0 ->].
  { destruct errors; [by eexists|]. unfold int_truediv.
    rewrite decide_False by (simpl; lia). by eexists. }
  rewrite bind_Ok_l. unfold int_truediv, float_int_truediv.
  rewrite !decide_False by lia. rewrite !bind_Ok_l.
  eexists. split; [done|]. cbn [cs_original_bits cs_error_stream cs_runs
    cs_num_runs cs_encoded_runs cs_compressed_bits].
  split_and!; [done..|]. lia.
Qed.
End compress_facts.

Lemma run_codeword_ok (log2 : float → float) (use_golomb : bool) (golomb_m : Z)
    (length : nat) :
  use_golomb = false ∨ golomb_m ≠ 0%Z →
  ∃ code, run_codeword log2 use_golomb golomb_m length = Ok code.
Proof.
  unfold run_codeword, encode_run_length_golomb.
  intros [-> | Hm]; [by eexists|].
  destruct use_golomb; [|by eexists]. rewrite decide_False by done. by eexists.
Qed.

(** X12. The failures of [compress_sequence]: an [IndexError] on the empty
    string, a [ZeroDivisionError] for the Golomb code with [golomb_m = 0]
    on at least two flips, and a result in every other case, with the
    error stream of [n - 1] elements, its runs, and one encoded run
    [(value, length, code)] for every run, in order. *)
Theorem compress_sequence_outcome (log2 : float → float) (flips : string)
    (use_golomb : bool) (golomb_m : Z) :
  (flips = "" → compress_sequence log2 flips use_golomb golomb_m = Raise IndexError) ∧
  (2 ≤ String.length flips → use_golomb = true → golomb_m = 0%Z →
   compress_sequence log2 flips use_golomb golomb_m = Raise ZeroDivisionError) ∧
  (1 ≤ String.length flips →
   use_golomb = false ∨ golomb_m ≠ 0%Z ∨ String.length flips = 1 →
   ∃ r, compress_sequence log2 flips use_golomb golomb_m = Ok r ∧
     cs_original_bits r = String.length flips ∧
     length (cs_error_stream r) = String.length flips - 1 ∧
     cs_runs r = run_length_encode (cs_error_stream r) ∧
     cs_num_runs r = length (cs_runs r) ∧
     (cs_encoded_runs r).*1 = cs_runs r ∧
     Forall (λ e, run_codeword log2 use_golomb golomb_m e.1.2 = Ok e.2)
       (cs_encoded_runs r)).
Proof.
  split_and!.
  - by intros ->.
  - intros Hn -> ->. unfold compress_sequence.
    destruct (prediction_encode_ok flips) as (first_bit & rate & _ & ->); [lia|].
    rewrite bind_Ok_l. cbv beta iota.
    pose proof (prediction_errors_length flips) as Hlen.
    destruct (run_length_encode _) as [|[v l] runs] eqn:Hruns.
    { apply (proj1 (get_runs_nil _)) in Hruns. rewrite Hruns in Hlen.
      simpl in Hlen. lia. }
    done.
  - intros Hn Hcase.
    set (errors := prediction_errors (get_transitions (to_bits flips))).
    set (code := λ l, match run_codeword log2 use_golomb golomb_m l with
                      | Ok c => c
                      | _ => ""
                      end).
    assert (∀ run, run ∈ run_length_encode errors →
      run_codeword log2 use_golomb golomb_m run.2 = Ok (code run.2)) as Hcode.
    { intros run Hrun. unfold code.
      destruct (decide (String.length flips = 1)) as [H1|H1].
      - pose proof (prediction_errors_length flips) as Hlen. fold errors in Hlen.
        destruct errors; [|simpl in Hlen; lia]. by apply elem_of_nil in Hrun.
      - destruct (run_codeword_ok log2 use_golomb golomb_m run.2) as [c ->]; [|done].
        destruct Hcase as [?|[?|?]]; [by left|by right|done]. }
    destruct (compress_sequence_ok log2 flips use_golomb golomb_m code Hn Hcode)
      as (r & -> & Horig & Herr & Hruns & Hnum & Henc & _).
    exists r. rewrite Herr, Hruns, Henc. fold errors.
    split_and!; [done|done|apply prediction_errors_length|done|done| |].
    + rewrite <-list_fmap_compose. rewrite <-(list_fmap_id (run_length_encode _)) at 2.
      apply list_fmap_ext. by intros _ [v l] _.
    + apply Forall_fmap, Forall_forall. intros run Hrun. simpl. by apply Hcode.
Qed.

Lemma compress_sequence_outcome_witness :
  compress_sequence (λ x, x) "HTTH" true 0 = Raise ZeroDivisionError ∧
  ∃ r, compress_sequence (λ x, x) "HTTH" true 2 = Ok r ∧
    cs_original_bits r = 4 ∧ length (cs_error_stream r) = 3.
Proof.
  destruct (compress_sequence_outcome (λ x, x) "HTTH" true 0) as (_ & Hzero & _).
  destruct (compress_sequence_outcome (λ x, x) "HTTH" true 2) as (_ & _ & Hok).
  split; [apply Hzero; [simpl; lia|done|done]|].
  destruct Hok as (r & Hr & Horig & Hlen & _); [simpl; lia|right; left; lia|].
  by exists r.
Defined.

Lemma sum_nat_succ {X} (f : X → nat) (l : list X) :
  sum_nat ((λ x, f x + 1) <$> l) = sum_nat (f <$> l) + length l.
Proof. induction l as [|x l IH]; [done|]. rewrite !fmap_cons. simpl. lia. Qed.

Lemma unary_length (l : nat) :
  String.length (encode_run_length_unary (Z.of_nat l)) = l + 1.
Proof.
  unfold encode_run_length_unary.
  rewrite string_length_chars, chars_app, chars_str_repeat.
  rewrite length_app, length_replicate. simpl. lia.
Qed.

(** X13. With the unary code [compress_sequence] never compresses: for
    [n >= 1] flips it reports [n + 1 + num_runs] bits, which is more than
    the [n] bits of the flips. *)
Theorem compress_sequence_unary_bits (log2 : float → float) (flips : string)
    (golomb_m : Z) :
  1 ≤ String.length flips →
  ∃ r, compress_sequence log2 flips false golomb_m = Ok r ∧
    cs_compressed_bits r = String.length flips + 1 + cs_num_runs r ∧
    cs_original_bits r < cs_compressed_bits r.
Proof.
  intros Hn.
  destruct (compress_sequence_ok log2 flips false golomb_m
              (λ l, encode_run_length_unary (Z.of_nat l)) Hn)
    as (r & -> & Horig & _ & _ & Hnum & _ & Hbits); [done|].
  exists r. split; [done|].
  assert (cs_compressed_bits r = String.length flips + 1 + cs_num_runs r) as Heq.
  { rewrite Hbits, Hnum.
    erewrite list_fmap_ext; [|intros _ run _; apply unary_length].
    rewrite (sum_nat_succ snd).
    destruct (get_runs_sum (prediction_errors (get_transitions (to_bits flips))))
      as [Hsum _].
    unfold run_length_encode. rewrite Hsum, prediction_errors_length. lia. }
  split; [done|]. lia.
Qed.

Lemma compress_sequence_unary_bits_witness :
  ∃ r, compress_sequence (λ x, x) "HTTH" false 2 = Ok r ∧
    cs_compressed_bits r = String.length "HTTH" + 1 + cs_num_runs r ∧
    cs_original_bits r < cs_compressed_bits r.
Proof. apply (compress_sequence_unary_bits (λ x, x) "HTTH" 2). simpl. lia. Defined.

(** X14. With the Golomb code and a divisor [m >= 1] at which the field
    of the computed width [b] holds every remainder ([m <= 2^b]),
    [compress_sequence] reports 2 bits and, for every run of the error
    stream of length [l], [(l - 1) div m + 1 + b] bits; every encoded run
    carries the Golomb codeword of its length. *)
Theorem compress_sequence_golomb_bits (log2 : float → float) (flips : string)
    (golomb_m : Z) :
  1 ≤ String.length flips → (1 ≤ golomb_m)%Z →
  (golomb_m ≤ 2 ^ golomb_width log2 golomb_m)%Z →
  ∃ r, compress_sequence log2 flips true golomb_m = Ok r ∧
    Z.of_nat (cs_compressed_bits r)
    = (2 + sum ((λ run, (Z.of_nat run.2 - 1) `div` golomb_m + 1
                          + golomb_width log2 golomb_m)
                  <$> cs_runs r))%Z ∧
    Forall (λ e, golomb_codeword (Z.of_nat e.1.2) golomb_m
                   (golomb_width log2 golomb_m) e.2)
      (cs_encoded_runs r).
Proof.
  intros Hn Hm Hfits.
  set (errors := prediction_errors (get_transitions (to_bits flips))).
  set (code := λ l, match run_codeword log2 true golomb_m l with
                    | Ok c => c
                    | _ => ""
                    end).
  destruct (get_runs_sum errors) as [_ Hpos].
  assert (∀ run, run ∈ run_length_encode errors →
    run_codeword log2 true golomb_m run.2 = Ok (code run.2) ∧
    golomb_codeword (Z.of_nat run.2) golomb_m (golomb_width log2 golomb_m)
      (code run.2))
    as Hcode.
  { intros run Hrun. unfold code, run_codeword.
    rewrite Forall_forall in Hpos. specialize (Hpos run Hrun). simpl in Hpos.
    destruct (golomb_spec log2 (Z.of_nat run.2) golomb_m) as (c & -> & Hc);
      [lia|done|done|].
    done. }
  destruct (compress_sequence_ok log2 flips true golomb_m code Hn)
    as (r & -> & _ & _ & Hruns & _ & Henc & Hbits).
  { intros run Hrun. by apply Hcode. }
  exists r. rewrite Hbits, Hruns, Henc. fold errors. split_and!; [done| |].
  - rewrite Nat2Z.inj_add. f_equal.
    induction (run_length_encode errors) as [|run runs IH]; [done|].
    rewrite !fmap_cons. cbn [sum_nat sum foldr]. rewrite Nat2Z.inj_add.
    fold (sum_nat ((λ run, String.length (code run.2)) <$> runs)).
    fold (sum ((λ run, (Z.of_nat run.2 - 1) `div` golomb_m + 1
                         + golomb_width log2 golomb_m)%Z <$> runs)).
    rewrite IH by (intros run' Hrun'; apply Hcode; by right).
    destruct (Hcode run ltac:(left)) as (_ & _ & Hlen). lia.
  - apply Forall_fmap, Forall_forall. intros run Hrun. simpl. by apply Hcode.
Qed.

Lemma compress_sequence_golomb_bits_witness :
  ∃ r, compress_sequence (λ _, 0x1.95c01a39fbd68p+0%float) "HTTHH" true 3 = Ok r ∧
    Z.of_nat (cs_compressed_bits r)
    = (2 + sum ((λ run, (Z.of_nat run.2 - 1) `div` 3 + 1
                          + golomb_width (λ _, 0x1.95c01a39fbd68p+0%float) 3)
                  <$> cs_runs r))%Z ∧
    Forall (λ e, golomb_codeword (Z.of_nat e.1.2) 3
                   (golomb_width (λ _, 0x1.95c01a39fbd68p+0%float) 3) e.2)
      (cs_encoded_runs r).
Proof.
  apply (compress_sequence_golomb_bits (λ _, 0x1.95c01a39fbd68p+0%float) "HTTHH" 3);
    [simpl; lia|lia|by vm_compute].
Defined.

(** ** No lookup of [analyze_sequence] and [analyze_compression] fails *)

Lemma int_truediv_ok (a b : Z) :
  b ≠ 0%Z → int_truediv a b = Ok (float_of_int a / float_of_int b)%float.
Proof. intros Hb. unfold int_truediv. by rewrite decide_False. Qed.

(** The codes built from the counts of a list have a code for every
    element of the list. *)
Lemma counter_codes {K : Type} `{EqDecision K} (xs : list K) :
  ∃ codes, build_huffman_codes (Counter xs) = Ok codes ∧
    length codes = length (Counter xs) ∧
    ∀ x, x ∈ xs → ∃ c, dict_lookup codes x = Some c ∧ c ≠ "".
Proof.
  destruct (Counter_keys xs) as [Hnd Hkeys].
  destruct (Counter xs) as [|entry counts] eqn:Hcounts.
  - exists []. split_and!; [done..|]. intros x Hx%Hkeys. by apply elem_of_nil in Hx.
  - destruct (build_huffman_codes_table (entry :: counts) Hnd) as (root & -> & Hleaves);
      [done|].
    exists (code_table root). split_and!; [done| |].
    + apply Permutation_length in Hleaves.
      rewrite <-code_table_keys in Hleaves. unfold dict_keys in Hleaves.
      by rewrite !length_fmap in Hleaves.
    + intros x Hx%Hkeys. rewrite <-Hleaves, <-code_table_keys in Hx.
      apply dict_lookup_is_Some in Hx as [c Hc]. exists c. split; [done|].
      apply dict_lookup_elem in Hc. by apply code_table_shape in Hc as [? _].
Qed.

Section lookup_facts.
Context (codes_1 codes_0 : dict nat string).
Implicit Types runs : list (Run Z).

Lemma add_run_bits_ok (bits : nat) (run : Run Z) (c : string) :
  (if decide (run.1 = 1%Z) then dict_lookup codes_1 run.2
   else dict_lookup codes_0 run.2) = Some c →
  add_run_bits codes_1 codes_0 bits run = Ok (bits + String.length c).
Proof.
  destruct run as [val l]. unfold add_run_bits, dict_get. simpl.
  case_decide; by intros ->.
Qed.

Lemma add_run_bits_loop runs (bits : nat) :
  (∀ run, run ∈ runs →
     ∃ c, (if decide (run.1 = 1%Z) then dict_lookup codes_1 run.2
           else dict_lookup codes_0 run.2) = Some c ∧ c ≠ "") →
  ∃ bits', for_each runs (add_run_bits codes_1 codes_0) bits = Ok bits' ∧
    bits + length runs ≤ bits'.
Proof.
  revert bits. induction runs as [|run runs IH]; intros bits Hcodes.
  - exists bits. split; [done|]. simpl. lia.
  - destruct (Hcodes run) as (c & Hc & Hne); [by left|].
    cbn [for_each]. rewrite (add_run_bits_ok _ _ _ Hc), bind_Ok_l.
    destruct (IH (bits + String.length c)) as (bits' & -> & Hle).
    { intros run' Hrun'. apply Hcodes. by right. }
    exists bits'. split; [done|]. destruct c; [done|]. simpl in *. lia.
Qed.

Lemma add_tuple_bits_loop (codes : dict (list nat) string)
    (tuples : list (list nat)) (bits : nat) :
  (∀ t, t ∈ tuples → ∃ c, dict_lookup codes t = Some c ∧ c ≠ "") →
  ∃ bits', for_each tuples (add_tuple_bits codes) bits = Ok bits' ∧
    bits + length tuples ≤ bits'.
Proof.
  revert bits. induction tuples as [|t tuples IH]; intros bits Hcodes.
  - exists bits. split; [done|]. simpl. lia.
  - destruct (Hcodes t) as (c & Hc & Hne); [by left|].
    cbn [for_each].
    assert (add_tuple_bits codes bits t = Ok (bits + String.length c)) as ->.
    { unfold add_tuple_bits, dict_get. by rewrite Hc. }
    rewrite bind_Ok_l.
    destruct (IH (bits + String.length c)) as (bits' & -> & Hle).
    { intros t' Ht'. apply Hcodes. by right. }
    exists bits'. split; [done|]. destruct c; [done|]. simpl in *. lia.
Qed.

(** A method on tuples, when the separate codes have a code for every
    run that is left over. *)
Lemma tuple_method_ok (n : nat) (tuples : list (list nat))
    (leftover : list (Run Z)) :
  n ≠ 0 →
  (∀ run, run ∈ leftover →
     ∃ c, (if decide (run.1 = 1%Z) then dict_lookup codes_1 run.2
           else dict_lookup codes_0 run.2) = Some c ∧ c ≠ "") →
  ∃ m, tuple_method n codes_1 codes_0 (Ok (tuples, leftover)) = Ok m ∧
    2 + length tuples + length leftover ≤ mr_bits m.
Proof.
  intros Hn Hleft. unfold tuple_method. rewrite bind_Ok_l. cbv beta iota.
  assert (∃ codes, match tuples with
                   | [] => Ok []
                   | _ :: _ => build_huffman_codes (Counter tuples)
                   end = Ok codes ∧
            ∀ t, t ∈ tuples → ∃ c, dict_lookup codes t = Some c ∧ c ≠ "")
    as (codes & -> & Hcodes).
  { destruct tuples as [|t tuples'].
    - exists []. split; [done|]. by intros t Ht'%elem_of_nil.
    - destruct (counter_codes (t :: tuples')) as (codes & -> & _ & Hcodes).
      by exists codes. }
  rewrite bind_Ok_l.
  destruct (add_tuple_bits_loop codes tuples 2 Hcodes) as (bits1 & -> & Hle1).
  rewrite bind_Ok_l.
  destruct (add_run_bits_loop leftover bits1 Hleft) as (bits2 & -> & Hle2).
  rewrite bind_Ok_l, int_truediv_ok, bind_Ok_l by lia.
  eexists. split; [done|]. simpl. lia.
Qed.

Lemma get_runs_values {A : Type} `{EqDecision A} (T : list A) (run : Run A) :
  run ∈ get_runs T → run.1 ∈ T ∧ 1 ≤ run.2.
Proof.
  intros Hrun. destruct T as [|first rest]; [by apply elem_of_nil in Hrun|].
  pose proof (get_runs_inv first rest) as Hinv. simpl in Hrun.
  destruct (foldl get_runs_step ([], first, 1) rest) as [[runs cv] cl].
  destruct Hinv as (Hexp & Hlen & _).
  rewrite Forall_forall in Hlen. specialize (Hlen run Hrun).
  split; [|done]. rewrite <-Hexp. unfold expand_runs.
  apply list_elem_of_bind. exists run. split; [|done].
  destruct (run.2) as [|k]; [lia|]. left.
Qed.

Lemma runs_of_elem (v : Z) runs (run : Run Z) :
  run ∈ runs → run.1 = v → run.2 ∈ runs_of v runs.
Proof.
  intros Hrun Hv. unfold runs_of. apply list_elem_of_fmap. exists run.
  split; [done|]. by apply list_elem_of_filter.
Qed.
End lookup_facts.

Lemma runs_of_partition (runs : list (Run Z)) :
  Forall (λ run, run.1 = 0 ∨ run.1 = 1)%Z runs →
  length (runs_of 1 runs) + length (runs_of 0 runs) = length runs ∧
  sum_nat (runs_of 1 runs) + sum_nat (runs_of 0 runs) = sum_nat (runs.*2).
Proof.
  unfold runs_of. induction 1 as [|[v l] runs [Hv | Hv] _ [IH1 IH2]]; [done|..];
    simpl in Hv; subst v.
  - rewrite filter_cons_False, filter_cons_True by done.
    rewrite !fmap_cons. simpl in *. lia.
  - rewrite filter_cons_True, filter_cons_False by done.
    rewrite !fmap_cons. simpl in *. lia.
Qed.

Lemma transition_runs_values (flips : string) :
  Forall (λ run, run.1 = 0 ∨ run.1 = 1)%Z (get_runs (to_transitions flips)).
Proof.
  apply Forall_forall. intros run [Hv _]%get_runs_values.
  pose proof (transition_stream_bits (chars flips)) as Hbits.
  rewrite Forall_forall in Hbits. by apply Hbits.
Qed.

(** X15. [analyze_sequence] returns its results for every string of at
    least two flips: no lookup of a code and no subscript fails, and no
    division is by zero.  The runs of 1s and of 0s are all the runs, of
    [n - 1] transitions together; every method costs 2 bits and at least
    one bit for every tuple and for every run left over. *)
Theorem analyze_sequence_total (flips : string) :
  2 ≤ String.length flips →
  ∃ r, analyze_sequence flips = Ok r ∧
    sr_n r = String.length flips ∧
    sr_num_runs r = length (get_runs (to_transitions flips)) ∧
    length (sr_runs_1 r) + length (sr_runs_0 r) = sr_num_runs r ∧
    sum_nat (sr_runs_1 r) + sum_nat (sr_runs_0 r) = String.length flips - 1 ∧
    2 + sr_num_runs r ≤ mr_bits (sr_separate r) ∧
    Forall (λ '(k, m), 2 + sr_num_runs r / k + sr_num_runs r `mod` k ≤ mr_bits m)
      [(2, sr_paired r); (3, sr_triple r); (4, sr_quad r);
       (5, sr_5_tuple r); (6, sr_6_tuple r)].
Proof.
  intros Hn. unfold analyze_sequence.
  set (transitions := to_transitions flips).
  set (runs := get_runs transitions).
  assert (length transitions = String.length flips - 1) as Htl.
  { unfold transitions, to_transitions.
    by rewrite transition_stream_length, string_length_list. }
  pose proof (transition_runs_values flips) as Hvalues. fold transitions runs in Hvalues.
  rewrite int_truediv_ok, bind_Ok_l by lia.
  destruct (counter_codes (runs_of 1 runs)) as (codes_1 & -> & _ & Hcodes1).
  rewrite bind_Ok_l.
  destruct (counter_codes (runs_of 0 runs)) as (codes_0 & -> & _ & Hcodes0).
  rewrite bind_Ok_l.
  assert (∀ run, run ∈ runs →
    ∃ c, (if decide (run.1 = 1%Z) then dict_lookup codes_1 run.2
          else dict_lookup codes_0 run.2) = Some c ∧ c ≠ "") as Hcodes.
  { intros run Hrun. rewrite Forall_forall in Hvalues.
    destruct (Hvalues run Hrun) as [Hv|Hv]; rewrite Hv; simpl.
    - apply Hcodes0. by apply runs_of_elem.
    - apply Hcodes1. by apply runs_of_elem. }
  assert (∀ k run, run ∈ drop k runs →
    ∃ c, (if decide (run.1 = 1%Z) then dict_lookup codes_1 run.2
          else dict_lookup codes_0 run.2) = Some c ∧ c ≠ "") as Hdrop.
  { intros k run Hrun. apply Hcodes.
    rewrite <-(take_drop k runs). apply elem_of_app. by right. }
  destruct (add_run_bits_loop codes_1 codes_0 runs 2 Hcodes) as (bits1 & -> & Hbits1).
  rewrite bind_Ok_l, int_truediv_ok, bind_Ok_l by lia.
  destruct (paired_runs_spec runs)
    as (pairs & leftover & -> & Hleft & Hplen & _ & _).
  rewrite bind_Ok_l. cbv beta iota.
  destruct (counter_codes pairs) as (pair_codes & -> & _ & Hpairs).
  rewrite bind_Ok_l.
  destruct (add_tuple_bits_loop pair_codes pairs 2 Hpairs) as (bits2 & -> & Hbits2).
  rewrite bind_Ok_l.
  assert (∃ bits3, match leftover with
                   | Some run => add_run_bits codes_1 codes_0 bits2 run
                   | None => Ok bits2
                   end = Ok bits3 ∧
            bits2 + length (option_list leftover) ≤ bits3) as (bits3 & -> & Hbits3).
  { destruct leftover as [run|]; [|exists bits2; split; [done|simpl; lia]].
    destruct (Hdrop (length runs - length runs `mod` 2) run) as (c & Hc & Hne).
    { rewrite <-Hleft. by left. }
    rewrite (add_run_bits_ok _ _ _ _ _ Hc). eexists. split; [done|].
    destruct c; [done|]. simpl. lia. }
  rewrite bind_Ok_l, int_truediv_ok, bind_Ok_l by lia.
  assert (∀ k item, 1 ≤ k →
    (∀ i, i + k ≤ length runs.*2 → item runs i = Ok (take k (drop i runs.*2))) →
    ∃ m, tuple_method (String.length flips) codes_1 codes_0 (tupled_runs k item runs)
         = Ok m ∧
      2 + length runs / k + length runs `mod` k ≤ mr_bits m) as Hmethod.
  { intros k item Hk Hitem.
    destruct (tupled_runs_spec k item runs Hk Hitem) as (tuples & -> & Htlen & _ & _).
    destruct (tuple_method_ok codes_1 codes_0 (String.length flips) tuples
                (drop (length runs - length runs `mod` k) runs))
      as (m & -> & Hm); [lia|apply Hdrop|].
    exists m. split; [done|]. rewrite Htlen, length_drop in Hm.
    pose proof (Nat.Div0.mod_le (length runs) k). lia. }
  destruct (Hmethod 3 triple_at) as (triple & Htriple & Hb3); [lia|apply triple_at_ok|].
  destruct (Hmethod 4 quad_at) as (quad & Hquad & Hb4); [lia|apply quad_at_ok|].
  destruct (Hmethod 5 (slice_at 5)) as (quint & Hquint & Hb5);
    [lia|intros; apply slice_at_ok|].
  destruct (Hmethod 6 (slice_at 6)) as (sext & Hsext & Hb6);
    [lia|intros; apply slice_at_ok|].
  unfold triple_runs, quad_runs, quintuple_runs, sextuple_runs.
  rewrite Htriple, bind_Ok_l, Hquad, bind_Ok_l, Hquint, bind_Ok_l, Hsext, bind_Ok_l.
  eexists. split; [done|].
  cbn [sr_n sr_num_runs sr_runs_1 sr_runs_0 sr_separate sr_paired sr_triple
       sr_quad sr_5_tuple sr_6_tuple mr_bits].
  destruct (runs_of_partition runs Hvalues) as [Hplen' Hpsum].
  destruct (get_runs_sum transitions) as [Hsum _]. fold runs in Hsum.
  split_and!; [done|done|done|lia|lia|].
  apply (f_equal length) in Hleft. rewrite length_drop in Hleft.
  pose proof (Nat.Div0.mod_le (length runs) 2).
  apply Forall_cons; split; [cbn [mr_bits]; lia|].
  repeat (apply Forall_cons; split; [done|]). done.
Qed.

Lemma analyze_sequence_total_witness :
  ∃ r, analyze_sequence "HTTH" = Ok r ∧
    sr_n r = String.length "HTTH" ∧
    sr_num_runs r = length (get_runs (to_transitions "HTTH")) ∧
    length (sr_runs_1 r) + length (sr_runs_0 r) = sr_num_runs r ∧
    sum_nat (sr_runs_1 r) + sum_nat (sr_runs_0 r) = String.length "HTTH" - 1 ∧
    2 + sr_num_runs r ≤ mr_bits (sr_separate r) ∧
    Forall (λ '(k, m), 2 + sr_num_runs r / k + sr_num_runs r `mod` k ≤ mr_bits m)
      [(2, sr_paired r); (3, sr_triple r); (4, sr_quad r);
       (5, sr_5_tuple r); (6, sr_6_tuple r)].
Proof. apply (analyze_sequence_total "HTTH"). simpl. lia. Defined.

Lemma foldl_add {X} (f : X → nat) (l : list X) (b : nat) :
  foldl (λ b x, b + f x) b l = b + sum_nat (f <$> l).
Proof.
  unfold sum_nat. revert b. induction l as [|x l IH]; intros b; simpl; [lia|].
  rewrite IH. apply eq_sym, Nat.add_assoc.
Qed.

Lemma float_int_truediv_ok (x : float) (b : Z) :
  b ≠ 0%Z → float_int_truediv x b = Ok (x / float_of_int b)%float.
Proof. intros Hb. unfold float_int_truediv. by rewrite decide_False. Qed.

Lemma average_if_any_ok (lengths : list nat) : ∃ x, average_if_any lengths = Ok x.
Proof.
  destruct lengths as [|l lengths]; [by eexists|].
  unfold average_if_any. rewrite int_truediv_ok by (simpl; lia). by eexists.
Qed.

(** X16. On at least two flips the only failure of [analyze_compression]
    is a division by zero: no lookup of a code fails.  When it returns,
    the codes are those of the counts of the run lengths, and the encoded
    size is 2 bits and the code of every run, at least one bit each. *)
Theorem analyze_compression_outcome (log2 : float → float) (flips : string) :
  2 ≤ String.length flips →
  (∃ r, analyze_compression log2 flips = Ok r ∧
     cr_original r = String.length flips ∧
     cr_runs r = get_runs (to_transitions flips) ∧
     build_huffman_codes (Counter (cr_runs r).*2) = Ok (cr_run_codes r) ∧
     cr_encoded r
       = 2 + sum_nat ((λ run, String.length
                                (default "" (dict_lookup (cr_run_codes r) run.2)))
                        <$> cr_runs r) ∧
     2 + length (cr_runs r) ≤ cr_encoded r) ∨
  analyze_compression log2 flips = Raise ZeroDivisionError.
Proof.
  intros Hn. unfold analyze_compression.
  set (transitions := to_transitions flips).
  set (runs := get_runs transitions).
  assert (length transitions = String.length flips - 1) as Htl.
  { unfold transitions, to_transitions.
    by rewrite transition_stream_length, string_length_list. }
  assert (runs ≠ []) as Hruns.
  { intros Hnil. apply (proj1 (get_runs_nil _)) in Hnil.
    rewrite Hnil in Htl. simpl in Htl. lia. }
  rewrite int_truediv_ok, bind_Ok_l by lia.
  rewrite float_int_truediv_ok, bind_Ok_l by lia.
  destruct (average_if_any_ok (runs_of 1 runs)) as [avg1 ->]. rewrite bind_Ok_l.
  destruct (average_if_any_ok (runs_of 0 runs)) as [avg0 ->]. rewrite bind_Ok_l.
  destruct (counter_codes (runs.*2)) as (run_codes & Hbuild & _ & Hcodes).
  rewrite Hbuild, bind_Ok_l.
  match goal with
  | |- context [for_each run_codes ?body ()] =>
      destruct (for_each_inv (λ _, True) run_codes body ()) as ([] & -> & _);
        [|done|]
  end.
  { intros [] [l code] _ _. exists (). split; [|done].
    rewrite int_truediv_ok; [done|]. destruct runs; [done|simpl; lia]. }
  rewrite bind_Ok_l.
  rewrite (for_each_fold runs _
             (λ b run, b + String.length (default "" (dict_lookup run_codes run.2)))).
  2:{ intros b [v l] Hrun. destruct (Hcodes l) as (c & Hc & _).
      { apply list_elem_of_fmap. by exists (v, l). }
      unfold dict_get. simpl. by rewrite Hc. }
  rewrite bind_Ok_l, int_truediv_ok, bind_Ok_l by lia.
  rewrite ?float_int_truediv_ok, bind_Ok_l by lia.
  assert (2 + length runs ≤ foldl (λ b run, b + String.length
            (default "" (dict_lookup run_codes run.2))) (1 + 1) runs) as Hbits.
  { rewrite foldl_add. clear -Hcodes.
    assert (∀ run, run ∈ runs →
      1 ≤ String.length (default "" (dict_lookup run_codes run.2))) as Hone.
    { intros [v l] Hrun. cbn [snd]. destruct (Hcodes l) as (c & -> & Hne).
      { apply list_elem_of_fmap. by exists (v, l). }
      destruct c; [done|]. simpl. lia. }
    clear Hcodes. induction runs as [|run runs' IH]; [simpl; lia|].
    rewrite fmap_cons. simpl in *.
    pose proof (Hone run ltac:(left)).
    specialize (IH (λ run' H', Hone run' ltac:(by right))). lia. }
  match goal with
  | |- context [if ?b then truediv ?x ?y else Ok ?z] =>
      destruct b; [unfold truediv; destruct (y =? 0)%float; [by right|]|]
  end.
  - left. rewrite bind_Ok_l. eexists. split; [done|].
    cbn [cr_original cr_runs cr_run_codes cr_encoded].
    split_and!; [done..| |done]. by rewrite foldl_add.
  - left. rewrite bind_Ok_l. eexists. split; [done|].
    cbn [cr_original cr_runs cr_run_codes cr_encoded].
    split_and!; [done..| |done]. by rewrite foldl_add.
Qed.

Lemma analyze_compression_outcome_witness :
  (∃ r, analyze_compression (λ x, x) "HTTH" = Ok r ∧
     cr_original r = String.length "HTTH" ∧
     cr_runs r = get_runs (to_transitions "HTTH") ∧
     build_huffman_codes (Counter (cr_runs r).*2) = Ok (cr_run_codes r) ∧
     cr_encoded r
       = 2 + sum_nat ((λ run, String.length
                                (default "" (dict_lookup (cr_run_codes r) run.2)))
                        <$> cr_runs r) ∧
     2 + length (cr_runs r) ≤ cr_encoded r) ∨
  analyze_compression (λ x, x) "HTTH" = Raise ZeroDivisionError.
Proof. apply (analyze_compression_outcome (λ x, x) "HTTH"). simpl. lia. Defined.

(** X17. The division by zero of X16 is reached: for the flips "HHHTH"
    half of the transitions are alternations, the entropy is 1 bit, the
    theoretical minimum is the original size, and the efficiency
    [savings / ((1 - theoretical_min/original_bits)*100)] divides the
    savings of 20% by zero.  [math.log2] is exact at 0.5. *)
Theorem analyze_compression_efficiency_crash (log2 : float → float) :
  log2 0.5%float = (-1)%float →
  analyze_compression log2 "HHHTH" = Raise ZeroDivisionError.
Proof.
  intros Hlog2. vm_compute. rewrite Hlog2. vm_compute. reflexivity.
Qed.

Lemma analyze_compression_efficiency_crash_witness :
  analyze_compression (λ _, (-1)%float) "HHHTH" = Raise ZeroDivisionError.
Proof. by apply (analyze_compression_efficiency_crash (λ _, (-1)%float)). Defined.

(** ** N-grams and their Huffman code *)

Lemma get_ngrams_length (stream : list Z) (n : nat) :
  length (get_ngrams stream n) = length stream + 1 - n.
Proof. unfold get_ngrams. by rewrite length_fmap, length_seq. Qed.

Lemma get_ngrams_lookup (stream : list Z) (n i : nat) :
  i < length stream + 1 - n →
  get_ngrams stream n !! i
    = Some (String.concat "" (str_int <$> take n (drop i stream))).
Proof.
  intros Hi. unfold get_ngrams. rewrite list_lookup_fmap, lookup_seq_lt by done.
  done.
Qed.

Lemma chars_str_bits (bits : list Z) :
  Forall (λ t, t = 0 ∨ t = 1)%Z bits →
  chars (String.concat "" (str_int <$> bits))
    = (λ t, if decide (t = 1%Z) then "1" else "0")%char <$> bits.
Proof.
  rewrite chars_concat. induction 1 as [|t bits [-> | ->] _ IH]; [done|..];
    rewrite !fmap_cons, bind_cons, IH; done.
Qed.

(** X18. [get_ngrams(stream, n)] returns [len(stream) - n + 1] n-grams,
    none when the stream is shorter than [n]; on a stream of bits the
    n-gram at index [i] has [n] characters, the digits of the bits
    [stream[i]], ..., [stream[i + n - 1]], so two n-grams are equal exactly
    when their windows of the stream are. *)
Theorem get_ngrams_spec (stream : list Z) (n : nat) :
  Forall (λ t, t = 0 ∨ t = 1)%Z stream →
  length (get_ngrams stream n) = length stream + 1 - n ∧
  (length stream < n → get_ngrams stream n = []) ∧
  (∀ i g, get_ngrams stream n !! i = Some g →
     String.length g = n ∧
     chars g = (λ t, if decide (t = 1%Z) then "1" else "0")%char
                 <$> take n (drop i stream)) ∧
  (∀ i j g, get_ngrams stream n !! i = Some g → get_ngrams stream n !! j = Some g →
     take n (drop i stream) = take n (drop j stream)).
Proof.
  intros Hbits.
  assert (∀ i g, get_ngrams stream n !! i = Some g →
    i + n ≤ length stream ∧
    chars g = (λ t, if decide (t = 1%Z) then "1" else "0")%char
                <$> take n (drop i stream)) as Hgram.
  { intros i g Hg. pose proof (lookup_lt_Some _ _ _ Hg) as Hi.
    rewrite get_ngrams_length in Hi. rewrite get_ngrams_lookup in Hg by done.
    injection Hg as <-. split; [lia|]. apply chars_str_bits.
    by apply Forall_take, Forall_drop. }
  split_and!.
  - apply get_ngrams_length.
  - intros Hn. apply length_zero_iff_nil. rewrite get_ngrams_length. lia.
  - intros i g Hg. destruct (Hgram i g Hg) as [Hi Hchars]. split; [|done].
    rewrite string_length_chars, Hchars, length_fmap, length_take, length_drop. lia.
  - intros i j g Hi Hj.
    destruct (Hgram i g Hi) as [_ Hci]. destruct (Hgram j g Hj) as [_ Hcj].
    rewrite Hci in Hcj. clear -Hcj Hbits.
    assert (Forall (λ t, t = 0 ∨ t = 1)%Z (take n (drop i stream))) as Hbi
      by (by apply Forall_take, Forall_drop).
    assert (Forall (λ t, t = 0 ∨ t = 1)%Z (take n (drop j stream))) as Hbj
      by (by apply Forall_take, Forall_drop).
    revert Hbi Hbj Hcj. generalize (take n (drop i stream)) (take n (drop j stream)).
    intros l1. induction l1 as [|a l1 IH]; intros [|b l2] H1 H2 Heq; try done.
    apply Forall_cons in H1 as [Ha H1]. apply Forall_cons in H2 as [Hb H2].
    rewrite !fmap_cons in Heq. injection Heq as Hab Heq.
    f_equal; [|by apply IH].
    destruct Ha as [-> | ->], Hb as [-> | ->]; done.
Qed.

Lemma get_ngrams_spec_witness :
  length (get_ngrams [1; 0; 1; 1]%Z 2) = length [1; 0; 1; 1]%Z + 1 - 2 ∧
  (length [1; 0; 1; 1]%Z < 2 → get_ngrams [1; 0; 1; 1]%Z 2 = []) ∧
  (∀ i g, get_ngrams [1; 0; 1; 1]%Z 2 !! i = Some g →
     String.length g = 2 ∧
     chars g = (λ t, if decide (t = 1%Z) then "1" else "0")%char
                 <$> take 2 (drop i [1; 0; 1; 1]%Z)) ∧
  (∀ i j g, get_ngrams [1; 0; 1; 1]%Z 2 !! i = Some g →
     get_ngrams [1; 0; 1; 1]%Z 2 !! j = Some g →
     take 2 (drop i [1; 0; 1; 1]%Z) = take 2 (drop j [1; 0; 1; 1]%Z)).
Proof.
  apply (get_ngrams_spec [1; 0; 1; 1]%Z 2).
  repeat (constructor; [auto|]). constructor.
Defined.

Section counter_total.
Context {K : Type} `{EqDecision K}.

Lemma dict_set_sum (c : dict K Z) (k : K) (v : Z) :
  sum (dict_set c k v).*2 = (sum c.*2 - default 0 (dict_lookup c k) + v)%Z.
Proof.
  unfold sum in *. induction c as [|[k' v'] c IH]; [simpl; lia|].
  cbn [dict_set dict_lookup].
  case_decide; rewrite !fmap_cons; cbn [foldr snd default from_option id];
    [lia|].
  rewrite IH. lia.
Qed.

(** [sum(Counter(xs).values())] is [len(xs)]. *)
Lemma Counter_total (xs : list K) : sum (Counter xs).*2 = Z.of_nat (length xs).
Proof.
  unfold Counter.
  assert (∀ c : dict K Z,
    sum (foldl (λ c x, dict_set c x (default 0 (dict_lookup c x) + 1)%Z) c xs).*2
    = (sum c.*2 + Z.of_nat (length xs))%Z) as Hloop.
  { induction xs as [|x xs IH]; intros c; simpl length; [simpl; lia|].
    cbn [foldl]. rewrite IH, dict_set_sum. lia. }
  by rewrite Hloop.
Qed.
End counter_total.

Lemma huffman_encode_total {Sym : Type} `{EqDecision Sym}
    (codes : dict Sym string) (symbols : list Sym) :
  (∀ s, s ∈ symbols → ∃ c, dict_lookup codes s = Some c ∧ c ≠ "") →
  ∃ bits, huffman_encode symbols codes = Ok bits ∧
    length symbols ≤ String.length bits.
Proof.
  induction symbols as [|s symbols IH]; intros Hcodes.
  - exists "". by split.
  - destruct (Hcodes s) as (c & Hc & Hne); [by left|].
    destruct IH as (bits & Hbits & Hlen).
    { intros s' Hs'. apply Hcodes. by right. }
    exists (c +:+ bits). rewrite (huffman_encode_step _ _ _ _ Hc), Hbits, fmap_Ok_l.
    split; [done|]. rewrite str_length_app. destruct c; [done|]. simpl. lia.
Qed.

(** X19. The n-gram method of [analyze_and_compress] never fails on a
    stream that has an n-gram: the counts add up to the number of n-grams
    (so [total] is not zero), [build_huffman_tree] returns a tree (not
    [None]), every n-gram has a code in [get_huffman_codes(tree)] (no
    [KeyError] in [huffman_encode]), and the encoded stream has at least
    one bit for every n-gram.  The n-grams overlap, so the encoded
    stream is not shorter than [len(stream) - n + 1] bits. *)
Theorem ngram_huffman_encode (stream : list Z) (n : nat) :
  get_ngrams stream n ≠ [] →
  let ngrams := get_ngrams stream n in
  let freq := Counter ngrams in
  sum freq.*2 = Z.of_nat (length ngrams) ∧
  ∃ tree encoded,
    build_huffman_tree freq = Ok (Some tree) ∧
    huffman_encode ngrams (get_huffman_codes tree "" []) = Ok encoded ∧
    length stream + 1 - n ≤ String.length encoded.
Proof.
  intros Hne ngrams freq. split; [apply Counter_total|].
  destruct (Counter_keys ngrams) as [Hnd Hkeys]. fold freq in Hnd, Hkeys.
  destruct (build_huffman_tree_spec freq) as (tree & Htree & Hleaves).
  { intros Hfreq. destruct ngrams as [|g ngrams'] eqn:Hg; [done|].
    assert (g ∈ dict_keys freq) as Hin by (apply Hkeys; left).
    rewrite Hfreq in Hin. by apply elem_of_nil in Hin. }
  exists tree. rewrite get_huffman_codes_table by (by rewrite Hleaves).
  destruct (huffman_encode_total (code_table tree) ngrams) as (encoded & Henc & Hlen).
  { intros g Hg%Hkeys. rewrite <-Hleaves, <-code_table_keys in Hg.
    apply dict_lookup_is_Some in Hg as [c Hc]. exists c. split; [done|].
    apply dict_lookup_elem in Hc. by apply code_table_shape in Hc as [? _]. }
  exists encoded. split_and!; [done..|].
  unfold ngrams in Hlen. by rewrite get_ngrams_length in Hlen.
Qed.

Lemma ngram_huffman_encode_witness :
  sum (Counter (get_ngrams [1; 0; 1; 1]%Z 2)).*2
    = Z.of_nat (length (get_ngrams [1; 0; 1; 1]%Z 2)) ∧
  ∃ tree encoded,
    build_huffman_tree (Counter (get_ngrams [1; 0; 1; 1]%Z 2)) = Ok (Some tree) ∧
    huffman_encode (get_ngrams [1; 0; 1; 1]%Z 2) (get_huffman_codes tree "" [])
      = Ok encoded ∧
    length [1; 0; 1; 1]%Z + 1 - 2 ≤ String.length encoded.
Proof. by apply (ngram_huffman_encode [1; 0; 1; 1]%Z 2). Defined.

(** ** The flips file *)

Lemma chars_rev_app (s acc : string) :
  chars (String.rev_app s acc) = reverse (chars s) ++ chars acc.
Proof.
  revert acc. induction s as [|c s IH]; intros acc; [done|].
  simpl. rewrite IH, reverse_cons, <-(assoc_L (++)). done.
Qed.

Lemma chars_rev (s : string) : chars (String.rev s) = reverse (chars s).
Proof. unfold String.rev. by rewrite chars_rev_app, app_nil_r. Qed.

Lemma lstrip_no_space (s : string) :
  Forall (λ c, isspace c = false) (chars s) → lstrip s = s.
Proof.
  destruct s as [|c s]; [done|]. intros [Hc _]%Forall_cons. simpl. by rewrite Hc.
Qed.

Lemma strip_no_space (s : string) :
  Forall (λ c, isspace c = false) (chars s) → strip s = s.
Proof.
  intros Hs. unfold strip, rstrip. rewrite (lstrip_no_space s Hs).
  rewrite lstrip_no_space by (rewrite chars_rev; by apply Forall_reverse).
  apply chars_inj. by rewrite !chars_rev, reverse_involutive.
Qed.

Lemma split_no_sep (sep : ascii) (s : string) :
  sep ∉ chars s → split sep s = [s].
Proof.
  induction s as [|c s IH]; [done|]. simpl. intros Hsep.
  apply not_elem_of_cons in Hsep as [Hc Hs].
  rewrite decide_False by done. by rewrite IH.
Qed.

Lemma split_nonempty (sep : ascii) (s : string) : split sep s ≠ [].
Proof.
  destruct s as [|c s]; [done|]. simpl.
  case_decide; [done|]. by destruct (split sep s).
Qed.

Lemma split_app_sep (sep : ascii) (a b : string) :
  split sep (a +:+ String sep b) = split sep a ++ split sep b.
Proof.
  induction a as [|c a IH]; simpl.
  - by rewrite decide_True.
  - case_decide; [by rewrite IH|]. rewrite IH.
    pose proof (split_nonempty sep a). by destruct (split sep a).
Qed.

Lemma chars_load_flips (content : string) :
  chars (load_flips content)
  = upper <$> filter (λ c, upper_in_HT c = true)
      (filter (λ line, is_comment line = false) (split newline content) ≫= chars).
Proof. unfold load_flips. by rewrite chars_of_list, chars_concat. Qed.

Lemma upper_HT (c : ascii) : c = "H"%char ∨ c = "T"%char → upper c = c.
Proof. by intros [-> | ->]. Qed.

Lemma load_flips_HT (content : string) :
  Forall (λ c, c = "H" ∨ c = "T")%char (chars (load_flips content)).
Proof.
  rewrite chars_load_flips. apply Forall_fmap, Forall_forall.
  intros c [Hc _]%list_elem_of_filter. unfold upper_in_HT in Hc.
  by apply bool_decide_eq_true in Hc.
Qed.

(** X20. [load_flips] returns only the characters ['H'] and ['T'], the
    alphabet of the analyses; it returns a string of these characters as
    it is, and so loading what was loaded changes nothing. *)
Theorem load_flips_alphabet (content : string) :
  Forall (λ c, c = "H" ∨ c = "T")%char (chars (load_flips content)) ∧
  (Forall (λ c, c = "H" ∨ c = "T")%char (chars content) →
   load_flips content = content) ∧
  load_flips (load_flips content) = load_flips content.
Proof.
  pose proof load_flips_HT as Halpha.
  assert (∀ content, Forall (λ c, c = "H" ∨ c = "T")%char (chars content) →
    load_flips content = content) as Hclean.
  { intros flips Hflips. apply chars_inj. rewrite chars_load_flips.
    rewrite split_no_sep.
    2:{ intros Hnl. rewrite Forall_forall in Hflips. by destruct (Hflips _ Hnl). }
    assert (is_comment flips = false) as Hcomment.
    { unfold is_comment. rewrite strip_no_space.
      - destruct flips as [|c flips']; [done|].
        apply Forall_cons in Hflips as [[-> | ->] _]; done.
      - eapply Forall_impl; [exact Hflips|]. by intros c [-> | ->]. }
    rewrite filter_cons_True, filter_nil by done. simpl. rewrite app_nil_r.
    induction Hflips as [|c cs Hc _ IH]; [done|].
    rewrite filter_cons_True.
    - rewrite fmap_cons, IH. by rewrite upper_HT.
    - unfold upper_in_HT. apply bool_decide_eq_true. by rewrite upper_HT. }
  split_and!; [apply Halpha|apply Hclean|apply Hclean, Halpha].
Qed.

Lemma load_flips_alphabet_witness :
  Forall (λ c, c = "H" ∨ c = "T")%char (chars (load_flips "HTTH")) ∧
  load_flips "HTTH" = "HTTH".
Proof.
  destruct (load_flips_alphabet "HTTH") as (Halpha & Hclean & _).
  split; [done|]. apply Hclean. repeat (constructor; [auto|]). constructor.
Defined.

(** X21. [load_flips] reads a file line by line: the flips of two parts
    joined by a line feed are the flips of the first part followed by
    those of the second, and a comment line (a line whose first character
    that is not white space is ['#']) has no flips.  So a comment line
    is skipped wherever it stands, whatever letters it holds. *)
Theorem load_flips_lines (a b : string) :
  load_flips (a +:+ String newline b) = load_flips a +:+ load_flips b ∧
  (is_comment a = true → newline ∉ chars a →
   load_flips a = "" ∧ load_flips (a +:+ String newline b) = load_flips b).
Proof.
  assert (load_flips (a +:+ String newline b) = load_flips a +:+ load_flips b)
    as Happ.
  { apply chars_inj. rewrite chars_app, !chars_load_flips, split_app_sep.
    by rewrite filter_app, bind_app, filter_app, fmap_app. }
  split; [done|]. intros Hcomment Hnl.
  assert (load_flips a = "") as Ha.
  { apply chars_inj. rewrite chars_load_flips, split_no_sep by done.
    rewrite filter_cons_False by (by rewrite Hcomment). done. }
  split; [done|]. by rewrite Happ, Ha.
Qed.

Lemma load_flips_lines_witness :
  load_flips ("# HT 1" +:+ String newline "HhTt")
    = load_flips "# HT 1" +:+ load_flips "HhTt" ∧
  load_flips "# HT 1" = "" ∧
  load_flips ("# HT 1" +:+ String newline "HhTt") = load_flips "HhTt".
Proof.
  destruct (load_flips_lines "# HT 1" "HhTt") as [Happ Hcomment].
  split; [done|]. apply Hcomment; [reflexivity|].
  apply (bool_decide_unpack _). vm_compute. exact I.
Defined.

(** ** What the transition stream keeps of the flips *)

Section transition_stream_facts.
Context {A : Type} `{EqDecision A}.

Lemma transition_stream_cons (a b : A) (xs : list A) :
  transition_stream (a :: b :: xs)
  = (if decide (b ≠ a) then 1 else 0)%Z :: transition_stream (b :: xs).
Proof.
  unfold transition_stream. cbn [length]. rewrite !Nat.sub_succ, !Nat.sub_0_r.
  rewrite <-cons_seq, fmap_cons. f_equal.
  - cbn [lookup list_lookup Nat.sub]. repeat case_decide; congruence.
  - rewrite <-fmap_S_seq, <-list_fmap_compose. apply list_fmap_ext.
    intros _ i Hi%list_elem_of_lookup_2%elem_of_seq. cbn [compose].
    destruct i as [|i]; [lia|]. cbn [lookup list_lookup Nat.sub].
    by rewrite Nat.sub_0_r.
Qed.

Lemma transition_stream_fmap {B : Type} `{EqDecision B} (f : A → B) (xs : list A) :
  Inj (=) (=) f → transition_stream (f <$> xs) = transition_stream xs.
Proof.
  intros Hf. unfold transition_stream. rewrite length_fmap.
  apply list_fmap_ext. intros _ i _. rewrite !list_lookup_fmap.
  destruct (xs !! i) as [x|], (xs !! (i - 1)) as [y|]; simpl;
    repeat case_decide; try done; exfalso; naive_solver.
Qed.
End transition_stream_facts.

Lemma flips_of_transitions (l1 l2 : list ascii) :
  Forall (λ c, c = "H" ∨ c = "T")%char l1 →
  Forall (λ c, c = "H" ∨ c = "T")%char l2 →
  head l1 = head l2 → transition_stream l1 = transition_stream l2 → l1 = l2.
Proof.
  revert l2. induction l1 as [|a l1 IH]; intros l2 H1 H2 Hhead Hts.
  - by destruct l2.
  - destruct l2 as [|a' l2]; [done|]. injection Hhead as <-. f_equal.
    apply Forall_cons in H1 as [Ha H1]. apply Forall_cons in H2 as [_ H2].
    destruct l1 as [|b l1], l2 as [|b' l2]; [done|..].
    + by rewrite transition_stream_cons in Hts.
    + by rewrite transition_stream_cons in Hts.
    + rewrite !transition_stream_cons in Hts. injection Hts as Hbit Hts.
      pose proof H1 as [Hb _]%Forall_cons. pose proof H2 as [Hb' _]%Forall_cons.
      assert (b = b') as <-.
      { destruct Ha as [-> | ->], Hb as [-> | ->], Hb' as [-> | ->]; done. }
      by apply IH.
Qed.

(** X22. On strings of ['H'] and ['T'] the first flip and the transition
    stream determine the flips: two such strings with the same first flip
    and the same stream of [to_transitions] are equal.  This is what makes
    "first flip + transitions" an encoding of the flips. *)
Theorem to_transitions_determines_flips (flips1 flips2 : string) :
  Forall (λ c, c = "H" ∨ c = "T")%char (chars flips1) →
  Forall (λ c, c = "H" ∨ c = "T")%char (chars flips2) →
  String.get 0 flips1 = String.get 0 flips2 →
  to_transitions flips1 = to_transitions flips2 →
  flips1 = flips2.
Proof.
  intros H1 H2 Hfirst Hts. apply chars_inj.
  apply flips_of_transitions; [done..| |done].
  rewrite !string_get_lookup in Hfirst. by rewrite !head_lookup.
Qed.

Lemma to_transitions_determines_flips_witness : "HTTH" = "HTTH".
Proof.
  apply (to_transitions_determines_flips "HTTH" "HTTH"); try reflexivity;
    repeat (constructor; [auto|]); constructor.
Defined.

(** X23. The analyses of the transition stream do not depend on the
    names of the two faces: renaming the characters of the flips by a
    one-to-one map (such as exchanging ['H'] and ['T']) changes neither
    the stream of [to_transitions] nor the results, or the failure, of
    [analyze_compression] and [analyze_sequence]. *)
Theorem analyses_rename_faces (log2 : float → float) (f : ascii → ascii)
    (flips : string) :
  Inj (=) (=) f →
  let renamed := String.string_of_list_ascii (f <$> chars flips) in
  to_transitions renamed = to_transitions flips ∧
  analyze_compression log2 renamed = analyze_compression log2 flips ∧
  analyze_sequence renamed = analyze_sequence flips.
Proof.
  intros Hf renamed.
  assert (to_transitions renamed = to_transitions flips) as Hts.
  { unfold to_transitions, renamed. rewrite chars_of_list.
    by apply transition_stream_fmap. }
  assert (String.length renamed = String.length flips) as Hlen.
  { unfold renamed. by rewrite !string_length_chars, chars_of_list, length_fmap. }
  split_and!; [done| |].
  - unfold analyze_compression. by rewrite Hts, Hlen.
  - unfold analyze_sequence. by rewrite Hts, Hlen.
Qed.

Lemma analyses_rename_faces_witness :
  let swap := λ c : ascii,
    if decide (c = "H"%char) then "T"%char
    else if decide (c = "T"%char) then "H"%char else c in
  String.string_of_list_ascii (swap <$> chars "HHTH") = "TTHT" ∧
  to_transitions "TTHT" = to_transitions "HHTH" ∧
  analyze_compression (λ x, x) "TTHT" = analyze_compression (λ x, x) "HHTH" ∧
  analyze_sequence "TTHT" = analyze_sequence "HHTH".
Proof.
  intros swap. split; [reflexivity|].
  apply (analyses_rename_faces (λ x, x) swap "HHTH").
  intros x y. unfold swap. repeat case_decide; congruence.
Defined.

(** X24. The flips that [load_flips] returns suit every script: on them
    the transition stream that [compression_analysis.py] takes from the
    bits is the stream of [to_transitions] of the other scripts, and when
    there is a flip [compress_sequence] with its default arguments (the
    Golomb code with [m = 2]) returns a result, whose error stream is the
    complement of that transition stream. *)
Theorem load_flips_compress_sequence (log2 : float → float) (content : string) :
  let flips := load_flips content in
  get_transitions (to_bits flips) = to_transitions flips ∧
  (flips ≠ "" →
   ∃ r, compress_sequence log2 flips true 2 = Ok r ∧
     cs_original_bits r = String.length flips ∧
     cs_error_stream r = (λ t, 1 - t)%Z <$> to_transitions flips).
Proof.
  intros flips.
  pose proof (get_transitions_to_bits flips (load_flips_HT content)) as Hts.
  split; [done|]. intros Hne.
  assert (1 ≤ String.length flips) as Hn by (destruct flips; [done|simpl; lia]).
  destruct (compress_sequence_ok log2 flips true 2
              (λ l, match run_codeword log2 true 2 l with Ok c => c | _ => "" end) Hn)
    as (r & Hr & Horig & Herr & _).
  { intros run _. by destruct (run_codeword_ok log2 true 2 run.2) as [c ->]; [right|]. }
  exists r. split_and!; [done..|]. rewrite Herr, <-Hts.
  apply prediction_errors_complement, transition_stream_bits.
Qed.

Lemma load_flips_compress_sequence_witness :
  get_transitions (to_bits (load_flips "h t T")) = to_transitions (load_flips "h t T") ∧
  ∃ r, compress_sequence (λ x, x) (load_flips "h t T") true 2 = Ok r ∧
    cs_original_bits r = String.length (load_flips "h t T") ∧
    cs_error_stream r = (λ t, 1 - t)%Z <$> to_transitions (load_flips "h t T").
Proof.
  destruct (load_flips_compress_sequence (λ x, x) "h t T") as [Hts Hok].
  split; [done|]. by apply Hok.
Defined.

Lemma sum_nat_le {X} (f g : X → nat) (l : list X) :
  (∀ x, x ∈ l → f x ≤ g x) → sum_nat (f <$> l) ≤ sum_nat (g <$> l).
Proof.
  unfold sum_nat. induction l as [|x l IH]; intros Hle; [done|].
  rewrite !fmap_cons. cbn [foldr].
  pose proof (Hle x ltac:(left)).
  specialize (IH (λ y Hy, Hle y ltac:(by right))). lia.
Qed.

Lemma sum_nat_const {X} (c : nat) (l : list X) :
  sum_nat ((λ _, c) <$> l) = c * length l.
Proof.
  unfold sum_nat. induction l as [|x l IH]; [simpl; lia|].
  rewrite fmap_cons. cbn [foldr length]. rewrite IH. lia.
Qed.

(** X25. The default code of [compress_sequence], the Golomb code with
    [m = 2], is never longer than the unary code: [math.log2(2)] being 1,
    a run of length [l] costs [(l - 1) div 2 + 2] bits, at least 2 and at
    most the [l + 1] bits of the unary code, so for the same flips the
    default size is between [2 + 2 * num_runs] and the size with
    [use_golomb = False]. *)
Theorem compress_sequence_default_bits (log2 : float → float) (flips : string)
    (golomb_m : Z) :
  log2 2%float = 1%float →
  1 ≤ String.length flips →
  ∃ rg ru,
    compress_sequence log2 flips true 2 = Ok rg ∧
    compress_sequence log2 flips false golomb_m = Ok ru ∧
    cs_runs rg = cs_runs ru ∧
    2 + 2 * cs_num_runs rg ≤ cs_compressed_bits rg ∧
    cs_compressed_bits rg ≤ cs_compressed_bits ru.
Proof.
  intros Hlog2 Hn.
  set (errors := prediction_errors (get_transitions (to_bits flips))).
  set (code := λ l, match run_codeword log2 true 2 l with Ok c => c | _ => "" end).
  destruct (get_runs_sum errors) as [_ Hpos].
  pose proof (golomb_width_2 log2 Hlog2) as Hwidth.
  assert (∀ run, run ∈ run_length_encode errors →
    run_codeword log2 true 2 run.2 = Ok (code run.2) ∧
    String.length (code run.2) = (run.2 - 1) / 2 + 2) as Hcode.
  { intros run Hrun. unfold code, run_codeword.
    rewrite Forall_forall in Hpos. specialize (Hpos run Hrun). simpl in Hpos.
    destruct (golomb_spec log2 (Z.of_nat run.2) 2) as (c & -> & _ & Hlen);
      [lia|lia|by rewrite Hwidth|].
    split; [done|]. rewrite Hwidth in Hlen.
    apply Nat2Z.inj. rewrite Hlen, Nat2Z.inj_add, Nat2Z.inj_div, Nat2Z.inj_sub by lia.
    simpl. lia. }
  destruct (compress_sequence_ok log2 flips true 2 code Hn)
    as (rg & Hrg & _ & _ & Hruns_g & Hnum_g & _ & Hbits_g).
  { intros run Hrun. by apply Hcode. }
  destruct (compress_sequence_ok log2 flips false golomb_m
              (λ l, encode_run_length_unary (Z.of_nat l)) Hn)
    as (ru & Hru & _ & _ & Hruns_u & _ & _ & Hbits_u); [done|].
  exists rg, ru. fold errors in Hruns_g, Hnum_g, Hbits_g, Hruns_u, Hbits_u.
  split_and!; [done|done|by rewrite Hruns_g, Hruns_u| |].
  - rewrite Hbits_g, Hnum_g, <-(sum_nat_const 2 (run_length_encode errors)).
    apply Nat.add_le_mono_l, sum_nat_le. intros run Hrun. cbv beta.
    destruct (Hcode run Hrun) as [_ ->]. lia.
  - rewrite Hbits_g, Hbits_u. apply Nat.add_le_mono_l, sum_nat_le.
    intros run Hrun. cbv beta. destruct (Hcode run Hrun) as [_ ->].
    rewrite unary_length. rewrite Forall_forall in Hpos.
    specialize (Hpos run Hrun). simpl in Hpos.
    pose proof (Nat.Div0.div_le_upper_bound (run.2 - 1) 2 (run.2 - 1)). lia.
Qed.

Lemma compress_sequence_default_bits_witness :
  ∃ rg ru,
    compress_sequence (λ _, 1%float) "HTTH" true 2 = Ok rg ∧
    compress_sequence (λ _, 1%float) "HTTH" false 2 = Ok ru ∧
    cs_runs rg = cs_runs ru ∧
    2 + 2 * cs_num_runs rg ≤ cs_compressed_bits rg ∧
    cs_compressed_bits rg ≤ cs_compressed_bits ru.
Proof.
  apply (compress_sequence_default_bits (λ _, 1%float) "HTTH" 2);
    [reflexivity|simpl; lia].
Defined.

(** ** Flips that never change, or always change *)

Lemma tuple_method_single_run (n : nat) (codes_1 codes_0 : dict nat string)
    (run : Run Z) :
  n ≠ 0 → add_run_bits codes_1 codes_0 2 run = Ok 3 →
  ∃ m, tuple_method n codes_1 codes_0 (Ok ([], [run])) = Ok m ∧ mr_bits m = 3.
Proof.
  intros Hn Hrun. unfold tuple_method. rewrite !bind_Ok_l. cbv beta iota.
  cbn [for_each]. rewrite bind_Ok_l, Hrun, !bind_Ok_l.
  rewrite int_truediv_ok, bind_Ok_l by lia. by eexists.
Qed.

(** X26. When the transition stream is constant (the flips never change,
    or change at every flip) there is one run, whose length gets the code
    "0", and every method of [analyze_sequence] reports exactly 3 bits,
    whatever the number [n >= 2] of flips. *)
Theorem analyze_sequence_single_run (flips : string) (v : Z) :
  2 ≤ String.length flips →
  to_transitions flips = replicate (String.length flips - 1) v →
  ∃ r, analyze_sequence flips = Ok r ∧
    sr_num_runs r = 1 ∧
    Forall (λ m, mr_bits m = 3)
      [sr_separate r; sr_paired r; sr_triple r; sr_quad r;
       sr_5_tuple r; sr_6_tuple r].
Proof.
  intros Hn Hts.
  destruct (String.length flips) as [|[|k]] eqn:Hlen; [lia|lia|].
  replace (S (S k) - 1) with (S k) in Hts by lia.
  assert (v = 0 ∨ v = 1)%Z as Hv.
  { pose proof (transition_stream_bits (chars flips)) as Hbits.
    fold (to_transitions flips) in Hbits. rewrite Hts in Hbits.
    by apply Forall_cons in Hbits as [? _]. }
  assert (get_runs (replicate (S k) v) = [(v, 1 + k)]) as Hruns.
  { cbn [replicate get_runs]. by rewrite get_runs_loop_same. }
  unfold analyze_sequence. cbv zeta. rewrite Hlen, Hts, Hruns.
  rewrite int_truediv_ok, bind_Ok_l by (rewrite length_replicate; lia).
  assert (∃ codes_1 codes_0,
    build_huffman_codes (Counter (runs_of 1 [(v, 1 + k)])) = Ok codes_1 ∧
    build_huffman_codes (Counter (runs_of 0 [(v, 1 + k)])) = Ok codes_0 ∧
    ∀ bits, add_run_bits codes_1 codes_0 bits (v, 1 + k) = Ok (bits + 1))
    as (codes_1 & codes_0 & -> & -> & Hrun).
  { destruct Hv as [-> | ->].
    - exists [], [(1 + k, "0")]. split_and!; [done..|]. intros bits.
      apply (add_run_bits_ok _ _ _ _ "0"). simpl. by rewrite decide_True.
    - exists [(1 + k, "0")], []. split_and!; [done..|]. intros bits.
      apply (add_run_bits_ok _ _ _ _ "0"). simpl. by rewrite decide_True. }
  rewrite !bind_Ok_l. cbn [for_each]. rewrite Hrun, !bind_Ok_l.
  rewrite int_truediv_ok, bind_Ok_l by lia.
  change (paired_runs [(v, 1 + k)])
    with (Ok ([] : list (list nat), Some (v, 1 + k))).
  rewrite bind_Ok_l. cbv beta iota.
  assert (build_huffman_codes (Counter (@nil (list nat))) = Ok []) as ->
    by reflexivity.
  rewrite bind_Ok_l. cbn [for_each]. rewrite bind_Ok_l, Hrun, bind_Ok_l.
  rewrite int_truediv_ok, bind_Ok_l by lia.
  change (triple_runs [(v, 1 + k)]) with (Ok ([] : list (list nat), [(v, 1 + k)])).
  change (quad_runs [(v, 1 + k)]) with (Ok ([] : list (list nat), [(v, 1 + k)])).
  change (quintuple_runs [(v, 1 + k)]) with (Ok ([] : list (list nat), [(v, 1 + k)])).
  change (sextuple_runs [(v, 1 + k)]) with (Ok ([] : list (list nat), [(v, 1 + k)])).
  destruct (tuple_method_single_run (S (S k)) codes_1 codes_0 (v, 1 + k))
    as (m & -> & Hm); [lia|apply Hrun|].
  rewrite !bind_Ok_l. eexists. split; [done|].
  cbn [sr_num_runs sr_separate sr_paired sr_triple sr_quad sr_5_tuple sr_6_tuple
       mr_bits length].
  split; [done|]. repeat (constructor; [done|]). constructor.
Qed.

Lemma analyze_sequence_single_run_witness :
  ∃ r, analyze_sequence "HTHTH" = Ok r ∧
    sr_num_runs r = 1 ∧
    Forall (λ m, mr_bits m = 3)
      [sr_separate r; sr_paired r; sr_triple r; sr_quad r;
       sr_5_tuple r; sr_6_tuple r].
Proof.
  apply (analyze_sequence_single_run "HTHTH" 1); [simpl; lia|reflexivity].
Defined.
